(** * browserbox-imap.js: the IMAP client transport core

    A shallow embedding of [src/browserbox-imap.js] (the [ImapClient]
    prototype): the framing reader [_iterateIncomingBuffer], the response
    processor [_processResponse], the router [_parseIncomingCommands] /
    [_handleResponse], and the command queue [enqueueCommand] /
    [_sendRequest].

    Conventions of the model:
    - JavaScript strings are binary strings here (one character per byte,
      as produced by [mimefuncs.fromTypedArray]); they are lists of 8-bit
      characters.  JavaScript numbers are [nat] (or [N] for delays): the
      model is exact as long as counters and literal sizes stay below 2^53.
    - The client object is a record [Client.State]; each method is a function
      from states to states.  What the client does to the outside (bytes
      handed to [send], calls of handlers, callbacks and prechecks) is
      appended to the field [events].
    - The codec of imap-handler is external: [parser] and [compiler] are
      parameters.  The values they exchange with the client are typed
      ([Client.Response], [Client.Request]).
    - Handlers and prechecks are application code.  Their calls are events;
      what they ask of the client is a later operation of the history.
    - [options] of [enqueueCommand] carries [ctx], [precheck] and
      [errorResponseExpectsEmptyLine], the three keys the client reads.
    - A response is the record of its fields together with the table
      [r_keyed] of the properties that [_processResponse] assigns by
      name; the table is empty in what the parser delivers.  An assignment
      under the name of a field overwrites the field.
    - A statement that can throw returns a [Client.Result] or a
      [Client.Flow]; [undefined] and [false] are [None]. *)

From Stdlib Require Import List Ascii Arith NArith Bool Lia.
From Stdlib Require String DecimalNat DecimalString.
Import ListNotations.

(** ** Strings

    A string literal denotes the list of its characters; the empty string
    is [[]].  There are no escapes: CR and LF are named. *)

Definition str := list ascii.

Inductive strlit : Set :=
| strlit_nil
| strlit_cons (c : ascii) (s : strlit).

Fixpoint strlit_of_bytes (l : list Byte.byte) : strlit :=
  match l with
  | nil => strlit_nil
  | b :: r => strlit_cons (ascii_of_byte b) (strlit_of_bytes r)
  end.

Fixpoint bytes_of_strlit (s : strlit) : list Byte.byte :=
  match s with
  | strlit_nil => nil
  | strlit_cons c r => byte_of_ascii c :: bytes_of_strlit r
  end.

Declare Scope str_scope.
Delimit Scope str_scope with str.
#[warnings="-via-type-mismatch"]
String Notation list strlit_of_bytes bytes_of_strlit
  (via strlit mapping [[nil] => strlit_nil, [cons] => strlit_cons]) : str_scope.
Open Scope str_scope.
Open Scope list_scope.

Definition CR : ascii := "013"%char.
Definition LF : ascii := "010"%char.
Definition LBRACE : ascii := "{"%char.
Definition RBRACE : ascii := "}"%char.
Definition PLUS : ascii := "+"%char.

(** [var EOL = '\r\n';] *)
Definition EOL : str := [CR; LF].

Module Js.

(** [\d] of a JavaScript regular expression: the ten ASCII digits. *)
Definition is_digit (c : ascii) : bool :=
  (48 <=? nat_of_ascii c) && (nat_of_ascii c <=? 57).

Definition digit_value (c : ascii) : nat := nat_of_ascii c - 48.

(** [Number(s)] for a string [s] of decimal digits (the only strings the
    source converts: the second group of [COMMAND_REGEX]). *)
Definition Number (s : str) : nat :=
  fold_left (fun acc c => 10 * acc + digit_value c) s 0.

(** String conversion of a non-negative integer, as in ['W' + n]. *)
Definition number_to_string (n : nat) : str :=
  String.list_ascii_of_string (DecimalString.NilEmpty.string_of_uint (Nat.to_uint n)).

(** The greedy [\d*] prefix of a string, and what follows it. *)
Fixpoint span_digits (s : str) : str * str :=
  match s with
  | c :: r =>
      if is_digit c
      then let (ds, r') := span_digits r in (c :: ds, r')
      else ([], s)
  | [] => ([], [])
  end.

(** [s.toUpperCase()] and [s.toLowerCase()] on the ASCII letters: exact on
    the US-ASCII protocol tokens they are applied to. *)
Definition upper_char (c : ascii) : ascii :=
  let n := nat_of_ascii c in
  if (97 <=? n) && (n <=? 122) then ascii_of_nat (n - 32) else c.

Definition toUpperCase (s : str) : str := map upper_char s.

Definition lower_char (c : ascii) : ascii :=
  let n := nat_of_ascii c in
  if (65 <=? n) && (n <=? 90) then ascii_of_nat (n + 32) else c.

Definition toLowerCase (s : str) : str := map lower_char s.

(** White space removed by [s.trim()], among the 8-bit characters:
    TAB, LF, VT, FF, CR, SPACE and NBSP. *)
Definition is_space (c : ascii) : bool :=
  let n := nat_of_ascii c in
  ((9 <=? n) && (n <=? 13)) || (n =? 32) || (n =? 160).

Fixpoint trim_start (s : str) : str :=
  match s with
  | c :: r => if is_space c then trim_start r else s
  | [] => []
  end.

Definition trim (s : str) : str := List.rev (trim_start (List.rev (trim_start s))).

Fixpoint str_eqb (a b : str) : bool :=
  match a, b with
  | [], [] => true
  | x :: a', y :: b' => Ascii.eqb x y && str_eqb a' b'
  | _, _ => false
  end.

(** [a.shift()]: removes and returns the first element, [undefined] on an
    empty array. *)
Definition shift {A} (l : list A) : option A * list A :=
  match l with
  | x :: r => (Some x, r)
  | [] => (None, [])
  end.

(** String concatenation [v + s] where [v] may be [undefined]. *)
Definition concat_undef (v : option str) (s : str) : str :=
  match v with
  | Some x => x ++ s
  | None => "undefined" ++ s
  end.

End Js.

(** ** The framing reader *)

Module Framing.

Import Js.

(** *** [COMMAND_REGEX = /(\{(\d+)(\+)?\})?\r?\n/]

    [String.prototype.match] with a non-global regular expression returns
    the leftmost match; at one position the optional group is tried first.
    The pattern has no choice that backtracking could revise with success:
    after the greedy [\d+] only [+] or [}] may follow, after an accepted [+]
    only [}], and after an accepted CR only LF. *)

(** [\r?\n] at the head of [s]: the length matched. *)
Definition match_eol (s : str) : option nat :=
  match s with
  | c :: r =>
      if Ascii.eqb c LF then Some 1
      else if Ascii.eqb c CR then
        match r with
        | d :: _ => if Ascii.eqb d LF then Some 2 else None
        | [] => None
        end
      else None
  | [] => None
  end.

(** [\}\r?\n] at the head of [s]. *)
Definition match_close (s : str) : option nat :=
  match s with
  | c :: r => if Ascii.eqb c RBRACE then option_map S (match_eol r) else None
  | [] => None
  end.

(** [(\+)?\}\r?\n] at the head of [s]. *)
Definition match_plus_close (s : str) : option nat :=
  match s with
  | c :: r =>
      if Ascii.eqb c PLUS then option_map S (match_close r) else match_close s
  | [] => None
  end.

(** [\{(\d+)(\+)?\}\r?\n] at the head of [s]: the digits of group 2 and the
    length matched. *)
Definition match_literal (s : str) : option (str * nat) :=
  match s with
  | c :: r =>
      if Ascii.eqb c LBRACE then
        let (ds, r') := span_digits r in
        match ds with
        | [] => None
        | _ :: _ =>
            option_map (fun n => (ds, S (length ds + n))) (match_plus_close r')
        end
      else None
  | [] => None
  end.

(** The whole pattern at the head of [s]: group 2 ([None] when the optional
    group did not take part) and the length of the match. *)
Definition match_here (s : str) : option (option str * nat) :=
  match match_literal s with
  | Some (ds, n) => Some (Some ds, n)
  | None => option_map (fun n => (None, n)) (match_eol s)
  end.

(** The result of [str.match(COMMAND_REGEX)]: [match.index],
    [match[0].length] and [match[2]]. *)
Record RegexMatch := {
  m_index : nat;
  m_length : nat;
  m_digits : option str
}.

Definition shift_match (m : RegexMatch) : RegexMatch :=
  {| m_index := S (m_index m); m_length := m_length m; m_digits := m_digits m |}.

Fixpoint regex_match (s : str) : option RegexMatch :=
  match s with
  | [] => None
  | _ :: r =>
      match match_here s with
      | Some (ds, n) => Some {| m_index := 0; m_length := n; m_digits := ds |}
      | None => option_map shift_match (regex_match r)
      end
  end.

(** The same pattern as a language: the strings it matches, each with its
    group 2.  [regex_match] is compared with it in [PatternFacts]. *)

(** A line terminator, with or without CR. *)
Definition eol (cr : bool) : str := if cr then [CR; LF] else [LF].

(** [\d+]: a non-empty string of digits. *)
Definition well_formed_count (ds : str) : bool :=
  negb (Nat.eqb (length ds) 0) && forallb is_digit ds.

Inductive matches_pattern : str -> option str -> Prop :=
| matches_eol (cr : bool) :
    matches_pattern (eol cr) None
| matches_literal (ds : str) (plus cr : bool) :
    well_formed_count ds = true ->
    matches_pattern
      (LBRACE :: ds ++ (if plus then [PLUS] else []) ++ RBRACE :: eol cr)
      (Some ds).

(** *** Reader state: [_incomingBuffer], [_command], [_literalRemaining] *)

Record Reader := {
  incomingBuffer : str;
  command : str;
  literalRemaining : nat
}.

Definition initial : Reader :=
  {| incomingBuffer := []; command := []; literalRemaining := 0 |}.

(** The reader between two literals: a buffer, the unit collected so far,
    no literal pending. *)
Definition reader_at (buf cmd : str) : Reader :=
  {| incomingBuffer := buf; command := cmd; literalRemaining := 0 |}.

(** [this._incomingBuffer += chunk] in [_onData]. *)
Definition push (r : Reader) (chunk : str) : Reader :=
  {| incomingBuffer := incomingBuffer r ++ chunk;
     command := command r;
     literalRemaining := literalRemaining r |}.

(** One turn of the [while] loop of [_iterateIncomingBuffer]. *)
Inductive Step :=
| Wait                                (* loop exit or [return] *)
| Loop (r : Reader)                   (* [continue] *)
| Yield (unit : str) (r : Reader).    (* suspended at [yield this._command] *)

Definition iterate_step (r : Reader) : Step :=
  let buf := incomingBuffer r in
  match regex_match buf with
  | None => Wait
  | Some m =>
      let lit := literalRemaining r in
      if (0 <? lit) && (length buf <? lit) then Wait
      else if 0 <? lit then
        Loop {| command := command r ++ firstn lit buf;
                incomingBuffer := skipn lit buf;
                literalRemaining := 0 |}
      else
        match m_digits m with
        | Some ds =>
            Loop {| literalRemaining := Number ds;
                    command := command r ++ firstn (m_index m + m_length m) buf;
                    incomingBuffer := skipn (m_index m + m_length m) buf |}
        | None =>
            let cmd := command r ++ firstn (m_index m) buf in
            Yield cmd
                  {| command := cmd;
                     incomingBuffer := skipn (m_index m + m_length m) buf;
                     literalRemaining := lit |}
        end
  end.

(** Resuming the generator after a [yield]: [this._command = ''], then the
    loop condition is evaluated again. *)
Definition resume (r : Reader) : Reader :=
  {| incomingBuffer := incomingBuffer r;
     command := [];
     literalRemaining := literalRemaining r |}.

(** The generator run to its end by a consumer that takes every unit.  Each
    turn of the loop that does not stop removes at least one character from
    the buffer, so [fuel] above the buffer length is never exhausted. *)
Fixpoint iterate (fuel : nat) (r : Reader) : list str * Reader :=
  match fuel with
  | 0 => ([], r)
  | S fuel' =>
      match iterate_step r with
      | Wait => ([], r)
      | Loop r' => iterate fuel' r'
      | Yield u r' =>
          let (us, r'') := iterate fuel' (resume r') in (u :: us, r'')
      end
  end.

Definition iterateIncomingBuffer (r : Reader) : list str * Reader :=
  iterate (S (length (incomingBuffer r))) r.

(** The reader's part of [_onData]: append the chunk, take all units. *)
Definition onData (r : Reader) (chunk : str) : list str * Reader :=
  iterateIncomingBuffer (push r chunk).

(** A sequence of chunks, each delivered by one [_onData] event. *)
Fixpoint feed (r : Reader) (chunks : list str) : list str * Reader :=
  match chunks with
  | [] => ([], r)
  | c :: cs =>
      let (us, r') := onData r c in
      let (vs, r'') := feed r' cs in
      (us ++ vs, r'')
  end.

(** *** Response units on the wire

    A unit is a line that announces zero or more literals and ends with a
    plain line terminator.  Each literal is a piece of line text, the marker
    [{N}] or [{N+}] with its terminator, and exactly [N] arbitrary bytes. *)

Record Literal := {
  lit_text : str;       (* line text before the marker *)
  lit_digits : str;     (* the decimal count N *)
  lit_plus : bool;      (* [{N+}] rather than [{N}] *)
  lit_cr : bool;        (* the marker is followed by CR LF rather than LF *)
  lit_bytes : str       (* the N bytes of the literal *)
}.

Record ResponseUnit := {
  unit_literals : list Literal;
  unit_tail : str;      (* line text after the last literal *)
  unit_cr : bool        (* the line ends with CR LF rather than LF *)
}.

Definition marker (l : Literal) : str :=
  LBRACE :: lit_digits l ++ (if lit_plus l then [PLUS] else []) ++ RBRACE :: eol (lit_cr l).

Definition literal_wire (l : Literal) : str :=
  lit_text l ++ marker l ++ lit_bytes l.

(** The unit as the reader is to deliver it: no closing terminator. *)
Definition unit_body (u : ResponseUnit) : str :=
  concat (map literal_wire (unit_literals u)) ++ unit_tail u.

Definition unit_wire (u : ResponseUnit) : str :=
  unit_body u ++ eol (unit_cr u).

Definition stream_wire (us : list ResponseUnit) : str :=
  concat (map unit_wire us).

Definition no_lf (s : str) : bool := forallb (fun c => negb (Ascii.eqb c LF)) s.

(** [s] is exactly [{digits}] or [{digits+}]. *)
Definition is_marker (s : str) : bool :=
  match s with
  | c :: r =>
      Ascii.eqb c LBRACE &&
      (let (ds, r') := span_digits r in
       negb (Nat.eqb (length ds) 0) &&
       match r' with
       | [x] => Ascii.eqb x RBRACE
       | [x; y] => Ascii.eqb x PLUS && Ascii.eqb y RBRACE
       | _ => false
       end)
  | [] => false
  end.

Fixpoint ends_with_marker (s : str) : bool :=
  match s with
  | [] => false
  | _ :: r => is_marker s || ends_with_marker r
  end.

Fixpoint ends_with_cr (s : str) : bool :=
  match s with
  | [] => false
  | [c] => Ascii.eqb c CR
  | _ :: r => ends_with_cr r
  end.

(** Line text never contains LF; a literal has as many bytes as announced;
    the text before the closing terminator does not itself end with a
    literal marker (it would announce a literal), nor with a CR that a bare
    LF terminator would absorb. *)
Definition wf_literal (l : Literal) : bool :=
  no_lf (lit_text l) &&
  well_formed_count (lit_digits l) &&
  Nat.eqb (length (lit_bytes l)) (Number (lit_digits l)).

Definition wf_tail (t : str) (cr : bool) : bool :=
  no_lf t && negb (ends_with_marker t) && (cr || negb (ends_with_cr t)).

(** A literal of zero bytes: [text{0}] or [text{0+}], and its terminator. *)
Definition empty_literal (text : str) (plus cr : bool) : Literal :=
  {| lit_text := text; lit_digits := "0"; lit_plus := plus; lit_cr := cr;
     lit_bytes := [] |}.

Definition wf_unit (u : ResponseUnit) : bool :=
  forallb wf_literal (unit_literals u) && wf_tail (unit_tail u) (unit_cr u).

End Framing.

(** ** The client: responses, commands, queue and router *)

Module Client.

Import Js.

(** *** Values exchanged with the codec (imap-handler)

    The parser's output is typed here: [tag] and [command] are strings and
    [attributes], when present, is an array whose entries are [null], nested
    arrays or nodes [{type, value, section}]. *)

#[warnings="-register-all"]
Inductive Attr :=
| ANull
| AList (items : list Attr)
| ANode (type : str) (value : option str) (section : option (list Attr)).

(** [a.value || ''] for a non-null entry (an array has no [value]). *)
Definition value_or_empty (a : Attr) : str :=
  match a with
  | ANode _ (Some v) _ => v
  | _ => []
  end.

(** An entry of the [option] array that [_processResponse] builds from a
    bracketed section, and so also a value of [response.code]; the [option]
    array itself, when it is assigned to a property. *)
#[warnings="-register-all"]
Inductive CodeValue :=
| CUndefined
| CString (s : str)
| CStrings (l : list str)
| CArray (vs : list CodeValue).

(** A property that [_processResponse] adds under the lowercased code. *)
Inductive Keyed :=
| KeyedOne (v : CodeValue)             (* [option[0]] *)
| KeyedMany (vs : list CodeValue).     (* [option] *)

#[warnings="-register-all"]
Inductive Response := mkResponse {
  r_tag : str;
  r_command : str;
  r_attributes : option (list Attr);
  r_nr : option nat;
  r_humanReadable : option str;
  r_code : CodeValue;
  (** The own properties assigned by [response[key.toLowerCase()] = ...].
      An entry whose name is that of a field holds the value of that
      property, the field having been overwritten (see [set_keyed]); the
      value of every other property is its field. *)
  r_keyed : list (str * Keyed);
  r_payload : option (list (str * list Response))
}.

Definition Payload := list (str * list Response).

(** A parsed response before [_processResponse] has touched it. *)
Definition parsed (tag cmd : str) (attrs : option (list Attr)) : Response :=
  {| r_tag := tag; r_command := cmd; r_attributes := attrs;
     r_nr := None; r_humanReadable := None; r_code := CUndefined;
     r_keyed := []; r_payload := None |}.

Record JsError := {
  message : str;
  code : CodeValue       (* [CUndefined]: no [code] property *)
}.

(** The structured request; the core only touches its [tag]. *)
Record Request := {
  req_command : str;
  req_attributes : list Attr;
  req_tag : option str
}.

Definition request_of_string (s : str) : Request :=
  {| req_command := s; req_attributes := []; req_tag := None |}.

(** How a command's promise is settled by its [callback]. *)
Inductive Settled :=
| Resolved (r : Response)
| Rejected (e : JsError).

Inductive CallbackArg :=
| ArgResponse (r : Response)
| ArgError (e : JsError).

(** *** JavaScript conversions used by the source *)

(** Truthiness of a string: non-empty. *)
Definition truthy_str (s : str) : bool :=
  match s with [] => false | _ => true end.

Definition truthy_code (c : CodeValue) : bool :=
  match c with
  | CUndefined => false
  | CString s => truthy_str s
  | CStrings _ => true
  | CArray _ => true
  end.

(** [typeof v] for an optional boolean property. *)
Definition typeof (v : option bool) : str :=
  match v with
  | None => "undefined"
  | Some _ => "boolean"
  end.

(** [(s || '').toString().toUpperCase().trim()] *)
Definition normalize (s : str) : str := trim (toUpperCase s).

(** [/^\d+$/.test(s)] *)
Definition all_digits (s : str) : bool :=
  truthy_str s && forallb is_digit s.

(** [/^\+/.test(s)] *)
Definition starts_with_plus (s : str) : bool :=
  match s with
  | c :: _ => Ascii.eqb c PLUS
  | [] => false
  end.

(** [name in object] on a table of own properties.  The names looked up
    are upper-cased, so no property inherited from [Object.prototype] can
    answer. *)
Definition has_key {A} (k : str) (m : list (str * A)) : bool :=
  existsb (fun e => str_eqb (fst e) k) m.

(** [object[name] = v] *)
Fixpoint set_key {A} (k : str) (v : A) (m : list (str * A)) : list (str * A) :=
  match m with
  | [] => [(k, v)]
  | (k', v') :: m' =>
      if str_eqb k' k then (k, v) :: m' else (k', v') :: set_key k v m'
  end.

(** [object[name].push(x)] *)
Fixpoint push_key {A} (k : str) (x : A) (m : list (str * list A))
  : list (str * list A) :=
  match m with
  | [] => []
  | (k', b) :: m' =>
      if str_eqb k' k then (k', b ++ [x]) :: m' else (k', b) :: push_key k x m'
  end.

(** [object[name]], when the object has that own property. *)
Definition get_key {A} (k : str) (m : list (str * A)) : option A :=
  option_map snd (find (fun e => str_eqb (fst e) k) m).

(** [delete object[name]]; an assignment to a field drops the entry that
    held the property before. *)
Definition delete_key {A} (k : str) (m : list (str * A)) : list (str * A) :=
  filter (fun e => negb (str_eqb (fst e) k)) m.

Inductive Result (A : Type) :=
| Ok (a : A)
| TypeError.
Arguments Ok {A} a.
Arguments TypeError {A}.

(** *** [_processResponse] *)

(** [key.map((key) => (key.value || '').toString().trim())]: reading
    [value] of [null] throws. *)
Fixpoint section_list (items : list Attr) : Result (list str) :=
  match items with
  | [] => Ok []
  | ANull :: _ => TypeError
  | a :: rest =>
      match section_list rest with
      | Ok vs => Ok (trim (value_or_empty a) :: vs)
      | TypeError => TypeError
      end
  end.

(** The callback of [response.attributes[0].section.map(...)]. *)
Definition section_entry (key : Attr) : Result CodeValue :=
  match key with
  | ANull => Ok CUndefined
  | AList items =>
      match section_list items with
      | Ok vs => Ok (CStrings vs)
      | TypeError => TypeError
      end
  | ANode _ _ _ => Ok (CString (normalize (value_or_empty key)))
  end.

Fixpoint section_map (section : list Attr) : Result (list CodeValue) :=
  match section with
  | [] => Ok []
  | key :: rest =>
      match section_entry key, section_map rest with
      | Ok v, Ok vs => Ok (v :: vs)
      | _, _ => TypeError
      end
  end.

(** [a.type === t]; reading [type] of [null] throws. *)
Definition type_is (a : Attr) (t : str) : Result bool :=
  match a with
  | ANull => TypeError
  | AList _ => Ok false
  | ANode ty _ _ => Ok (str_eqb ty t)
  end.

Definition set_code (r : Response) (c : CodeValue) : Response :=
  {| r_tag := r_tag r; r_command := r_command r;
     r_attributes := r_attributes r; r_nr := r_nr r;
     r_humanReadable := r_humanReadable r; r_code := c;
     r_keyed := r_keyed r; r_payload := r_payload r |}.

(** The value assigned: [option[0]] or the array [option]. *)
Definition keyed_value (v : Keyed) : CodeValue :=
  match v with
  | KeyedOne v => v
  | KeyedMany vs => CArray vs
  end.

Definition string_or_empty (v : CodeValue) : str :=
  match v with
  | CString s => s
  | _ => []
  end.

(** [response[k] = v], lines 597 and 599, [k] being lower-cased.  The
    assignment is made on the response itself.
    - [__proto__] is the accessor of [Object.prototype]: no property is
      added (an array becomes the prototype of the response, which no read
      of the client can tell).
    - Every other name becomes an own property, recorded in [r_keyed].
    - When the name is that of a field, the field is overwritten.  [code]
      takes the value; [tag] and [command] take it when it is a string;
      a field that cannot hold the value is emptied, the value being the
      entry of [r_keyed].  ([command] emptied is what
      [response.command || ''] gives for [undefined]; an array in
      [command] or a [tag] that is no string is seen by
      [handleProcessed].) *)
Definition set_keyed (r : Response) (k : str) (v : Keyed) : Response :=
  if str_eqb k "__proto__" then r
  else
    let value := keyed_value v in
    {| r_tag := if str_eqb k "tag" then string_or_empty value else r_tag r;
       r_command :=
         if str_eqb k "command" then string_or_empty value else r_command r;
       r_attributes :=
         if str_eqb k "attributes" then None else r_attributes r;
       r_nr := if str_eqb k "nr" then None else r_nr r;
       r_humanReadable := r_humanReadable r;
       r_code := if str_eqb k "code" then value else r_code r;
       r_keyed := set_key k v (r_keyed r);
       r_payload := if str_eqb k "payload" then None else r_payload r |}.

Definition set_humanReadable (r : Response) (h : option str) : Response :=
  {| r_tag := r_tag r; r_command := r_command r;
     r_attributes := r_attributes r; r_nr := r_nr r;
     r_humanReadable := h; r_code := r_code r;
     r_keyed := r_keyed r; r_payload := r_payload r |}.

(** [response.payload = p]: the property is replaced, also when a code
    named [payload] had overwritten it. *)
Definition set_payload (r : Response) (p : option Payload) : Response :=
  {| r_tag := r_tag r; r_command := r_command r;
     r_attributes := r_attributes r; r_nr := r_nr r;
     r_humanReadable := r_humanReadable r; r_code := r_code r;
     r_keyed := delete_key "payload" (r_keyed r); r_payload := p |}.

(** [response.nr = Number(response.command);
     response.command = (response.attributes.shift().value || '')...] *)
Definition promote_numbered (r : Response) (a0 : Attr) (rest : list Attr)
  : Response :=
  {| r_tag := r_tag r; r_command := normalize (value_or_empty a0);
     r_attributes := Some rest; r_nr := Some (Number (r_command r));
     r_humanReadable := r_humanReadable r; r_code := r_code r;
     r_keyed := r_keyed r; r_payload := r_payload r |}.

(** "Parse and format ATOM values": the part after [option] is built. *)
Definition bind_code (r : Response) (option_ : list CodeValue)
  : Result Response :=
  let (key, option_) := shift option_ in
  let key := match key with Some k => k | None => CUndefined end in
  let r := set_code r key in
  match option_ with
  | [] => Ok r
  | [v] =>
      match key with
      | CString k => Ok (set_keyed r (toLowerCase k) (KeyedOne v))
      | _ => TypeError        (* [key.toLowerCase] is not a function *)
      end
  | _ =>
      match key with
      | CString k => Ok (set_keyed r (toLowerCase k) (KeyedMany option_))
      | _ => TypeError
      end
  end.

Definition response_codes : list str := ["OK"; "NO"; "BAD"; "BYE"; "PREAUTH"].

Definition processResponse (response : Response) : Result Response :=
  let command := normalize (r_command response) in
  match r_attributes response with
  | None | Some [] => Ok response                       (* no attributes *)
  | Some (a0 :: rest) =>
      (* untagged responses w/ sequence numbers *)
      match
        (if str_eqb (r_tag response) "*" && all_digits (r_command response)
         then type_is a0 "ATOM" else Ok false)
      with
      | TypeError => TypeError
      | Ok numbered =>
          let response :=
            if numbered then promote_numbered response a0 rest else response in
          (* no optional response code *)
          if negb (existsb (str_eqb command) response_codes) then Ok response
          else
            match r_attributes response with
            | None | Some [] => TypeError   (* [attributes[-1].type] *)
            | Some (b0 :: brest) =>
                (* If last element of the response is TEXT then this is for humans *)
                let last_ := last brest b0 in
                match type_is last_ "TEXT" with
                | TypeError => TypeError
                | Ok is_text =>
                    let response :=
                      if is_text
                      then set_humanReadable response
                             (match last_ with
                              | ANode _ v _ => v
                              | _ => None
                              end)
                      else response in
                    (* Parse and format ATOM values *)
                    match type_is b0 "ATOM" with
                    | TypeError => TypeError
                    | Ok false => Ok response
                    | Ok true =>
                        match b0 with
                        | ANode _ _ (Some section) =>
                            match section_map section with
                            | Ok option_ => bind_code response option_
                            | TypeError => TypeError
                            end
                        | _ => Ok response
                        end
                    end
                end
            end
      end
  end.

(** *** Command records *)

Record Command := {
  c_id : nat;                 (* identity of the record ([indexOf] compares references) *)
  c_tag : str;
  c_request : Request;
  c_payload : option Payload; (* [undefined] when nothing is to be collected *)
  c_data : option (list str); (* compiled chunks not yet sent; [undefined] before compilation *)
  c_precheck : option nat;    (* a function, named by a number *)
  c_ctx : option nat;         (* a reference to a command record *)
  c_errorResponseExpectsEmptyLine : option bool
}.

Record Options := {
  o_ctx : option nat;
  o_precheck : option nat;
  o_errorResponseExpectsEmptyLine : option bool
}.

Definition no_options : Options :=
  {| o_ctx := None; o_precheck := None; o_errorResponseExpectsEmptyLine := None |}.

Definition set_data (c : Command) (d : option (list str)) : Command :=
  {| c_id := c_id c; c_tag := c_tag c; c_request := c_request c;
     c_payload := c_payload c; c_data := d; c_precheck := c_precheck c;
     c_ctx := c_ctx c;
     c_errorResponseExpectsEmptyLine := c_errorResponseExpectsEmptyLine c |}.

Definition set_cpayload (c : Command) (p : option Payload) : Command :=
  {| c_id := c_id c; c_tag := c_tag c; c_request := c_request c;
     c_payload := p; c_data := c_data c; c_precheck := c_precheck c;
     c_ctx := c_ctx c;
     c_errorResponseExpectsEmptyLine := c_errorResponseExpectsEmptyLine c |}.

(** [delete context.precheck] *)
Definition delete_precheck (c : Command) : Command :=
  {| c_id := c_id c; c_tag := c_tag c; c_request := c_request c;
     c_payload := c_payload c; c_data := c_data c; c_precheck := None;
     c_ctx := c_ctx c;
     c_errorResponseExpectsEmptyLine := c_errorResponseExpectsEmptyLine c |}.

(** [data.tag += '.p'; data.request.tag += '.p';] *)
Definition suffix_priority (c : Command) : Command :=
  {| c_id := c_id c; c_tag := c_tag c ++ ".p";
     c_request :=
       {| req_command := req_command (c_request c);
          req_attributes := req_attributes (c_request c);
          req_tag := Some (concat_undef (req_tag (c_request c)) ".p") |};
     c_payload := c_payload c; c_data := c_data c; c_precheck := c_precheck c;
     c_ctx := c_ctx c;
     c_errorResponseExpectsEmptyLine := c_errorResponseExpectsEmptyLine c |}.

(** [String(v)] for a value of a property; an array is joined with
    commas, [undefined] inside an array giving the empty string. *)
Fixpoint join (sep : str) (l : list str) : str :=
  match l with
  | [] => []
  | [x] => x
  | x :: rest => x ++ sep ++ join sep rest
  end.

Fixpoint to_string (v : CodeValue) : str :=
  match v with
  | CUndefined => []
  | CString s => s
  | CStrings l => join "," l
  | CArray vs =>
      join "," ((fix each (vs : list CodeValue) : list str :=
                   match vs with
                   | [] => []
                   | v :: rest => to_string v :: each rest
                   end) vs)
  end.

(** [(response.command || '').toString()]: the field, unless [command] has
    been overwritten with an array. *)
Definition command_text (response : Response) : str :=
  match get_key "command" (r_keyed response) with
  | Some v => to_string (keyed_value v)
  | None => r_command response
  end.

(** The [callback] that [enqueueCommand] gives a command: it settles the
    promise returned to the caller.  A parsed response is never an [Error]
    object, so [isError] separates the two kinds of argument. *)
Definition callback (arg : CallbackArg) : Settled :=
  match arg with
  | ArgError e => Rejected e
  | ArgResponse response =>
      if existsb (str_eqb (normalize (command_text response))) ["NO"; "BAD"]
      then
        Rejected
          {| message :=
               match r_humanReadable response with
               | Some h => if truthy_str h then h else "Error"
               | None => "Error"
               end;
             code :=
               if truthy_code (r_code response) then r_code response
               else CUndefined |}
      else Resolved response
  end.

(** *** Client state *)

(** What the client does to the outside, in order. *)
Inductive Event :=
| EvSend (s : str)                           (* [this.send(s)] *)
| EvHandler (command : str) (r : Response)   (* [this._globalAcceptUntagged[command](response)] *)
| EvSettled (cmd : nat) (s : Settled)        (* a command's callback ran *)
| EvPrecheck (precheck : nat) (cmd : nat)    (* [precheck(context)] is called *)
| EvReady                                    (* [this.onready()] *)
| EvSocketClose                              (* [this.socket.close()] *)
| EvFatal.                                   (* [this._onError(e)] was entered *)

Record State := {
  connectionReady : bool;
  globalAcceptUntagged : list (str * nat);
  clientQueue : list Command;
  canSend : bool;
  tagCounter : nat;
  currentCommand : option Command;     (* [false] is [None] *)
  idleTimer : bool;                    (* the idle timer is armed *)
  socketTimeoutTimer : option N;       (* armed, with its delay in ms *)
  restartQueue : bool;
  reader : Framing.Reader;
  compressed : bool;
  socketOpen : bool;                   (* [socket.readyState === 'open'] *)
  allocated : nat;                     (* command records created so far *)
  events : list Event
}.

(** The constructor, with the socket opened by [connect]. *)
Definition initial : State :=
  {| connectionReady := false; globalAcceptUntagged := [];
     clientQueue := []; canSend := false; tagCounter := 0;
     currentCommand := None; idleTimer := false;
     socketTimeoutTimer := None; restartQueue := false;
     reader := Framing.initial; compressed := false; socketOpen := true;
     allocated := 0; events := [] |}.

Definition with_queue (q : list Command) (st : State) : State :=
  {| connectionReady := connectionReady st;
     globalAcceptUntagged := globalAcceptUntagged st;
     clientQueue := q; canSend := canSend st; tagCounter := tagCounter st;
     currentCommand := currentCommand st; idleTimer := idleTimer st;
     socketTimeoutTimer := socketTimeoutTimer st;
     restartQueue := restartQueue st; reader := reader st;
     compressed := compressed st; socketOpen := socketOpen st;
     allocated := allocated st; events := events st |}.

Definition with_canSend (b : bool) (st : State) : State :=
  {| connectionReady := connectionReady st;
     globalAcceptUntagged := globalAcceptUntagged st;
     clientQueue := clientQueue st; canSend := b; tagCounter := tagCounter st;
     currentCommand := currentCommand st; idleTimer := idleTimer st;
     socketTimeoutTimer := socketTimeoutTimer st;
     restartQueue := restartQueue st; reader := reader st;
     compressed := compressed st; socketOpen := socketOpen st;
     allocated := allocated st; events := events st |}.

Definition with_current (c : option Command) (st : State) : State :=
  {| connectionReady := connectionReady st;
     globalAcceptUntagged := globalAcceptUntagged st;
     clientQueue := clientQueue st; canSend := canSend st;
     tagCounter := tagCounter st;
     currentCommand := c; idleTimer := idleTimer st;
     socketTimeoutTimer := socketTimeoutTimer st;
     restartQueue := restartQueue st; reader := reader st;
     compressed := compressed st; socketOpen := socketOpen st;
     allocated := allocated st; events := events st |}.

Definition with_idleTimer (b : bool) (st : State) : State :=
  {| connectionReady := connectionReady st;
     globalAcceptUntagged := globalAcceptUntagged st;
     clientQueue := clientQueue st; canSend := canSend st;
     tagCounter := tagCounter st;
     currentCommand := currentCommand st; idleTimer := b;
     socketTimeoutTimer := socketTimeoutTimer st;
     restartQueue := restartQueue st; reader := reader st;
     compressed := compressed st; socketOpen := socketOpen st;
     allocated := allocated st; events := events st |}.

Definition with_socketTimer (t : option N) (st : State) : State :=
  {| connectionReady := connectionReady st;
     globalAcceptUntagged := globalAcceptUntagged st;
     clientQueue := clientQueue st; canSend := canSend st;
     tagCounter := tagCounter st;
     currentCommand := currentCommand st; idleTimer := idleTimer st;
     socketTimeoutTimer := t;
     restartQueue := restartQueue st; reader := reader st;
     compressed := compressed st; socketOpen := socketOpen st;
     allocated := allocated st; events := events st |}.

Definition with_restartQueue (b : bool) (st : State) : State :=
  {| connectionReady := connectionReady st;
     globalAcceptUntagged := globalAcceptUntagged st;
     clientQueue := clientQueue st; canSend := canSend st;
     tagCounter := tagCounter st;
     currentCommand := currentCommand st; idleTimer := idleTimer st;
     socketTimeoutTimer := socketTimeoutTimer st;
     restartQueue := b; reader := reader st;
     compressed := compressed st; socketOpen := socketOpen st;
     allocated := allocated st; events := events st |}.

Definition with_reader (r : Framing.Reader) (st : State) : State :=
  {| connectionReady := connectionReady st;
     globalAcceptUntagged := globalAcceptUntagged st;
     clientQueue := clientQueue st; canSend := canSend st;
     tagCounter := tagCounter st;
     currentCommand := currentCommand st; idleTimer := idleTimer st;
     socketTimeoutTimer := socketTimeoutTimer st;
     restartQueue := restartQueue st; reader := r;
     compressed := compressed st; socketOpen := socketOpen st;
     allocated := allocated st; events := events st |}.

Definition with_handlers (h : list (str * nat)) (st : State) : State :=
  {| connectionReady := connectionReady st;
     globalAcceptUntagged := h;
     clientQueue := clientQueue st; canSend := canSend st;
     tagCounter := tagCounter st;
     currentCommand := currentCommand st; idleTimer := idleTimer st;
     socketTimeoutTimer := socketTimeoutTimer st;
     restartQueue := restartQueue st; reader := reader st;
     compressed := compressed st; socketOpen := socketOpen st;
     allocated := allocated st; events := events st |}.

Definition with_ready (b : bool) (st : State) : State :=
  {| connectionReady := b;
     globalAcceptUntagged := globalAcceptUntagged st;
     clientQueue := clientQueue st; canSend := canSend st;
     tagCounter := tagCounter st;
     currentCommand := currentCommand st; idleTimer := idleTimer st;
     socketTimeoutTimer := socketTimeoutTimer st;
     restartQueue := restartQueue st; reader := reader st;
     compressed := compressed st; socketOpen := socketOpen st;
     allocated := allocated st; events := events st |}.

Definition with_compressed (b : bool) (st : State) : State :=
  {| connectionReady := connectionReady st;
     globalAcceptUntagged := globalAcceptUntagged st;
     clientQueue := clientQueue st; canSend := canSend st;
     tagCounter := tagCounter st;
     currentCommand := currentCommand st; idleTimer := idleTimer st;
     socketTimeoutTimer := socketTimeoutTimer st;
     restartQueue := restartQueue st; reader := reader st;
     compressed := b; socketOpen := socketOpen st;
     allocated := allocated st; events := events st |}.

(** A new command record: the counters move, the record is returned by
    the caller's continuation. *)
Definition with_counters (tags ids : nat) (st : State) : State :=
  {| connectionReady := connectionReady st;
     globalAcceptUntagged := globalAcceptUntagged st;
     clientQueue := clientQueue st; canSend := canSend st;
     tagCounter := tags;
     currentCommand := currentCommand st; idleTimer := idleTimer st;
     socketTimeoutTimer := socketTimeoutTimer st;
     restartQueue := restartQueue st; reader := reader st;
     compressed := compressed st; socketOpen := socketOpen st;
     allocated := ids; events := events st |}.

Definition emit (e : Event) (st : State) : State :=
  {| connectionReady := connectionReady st;
     globalAcceptUntagged := globalAcceptUntagged st;
     clientQueue := clientQueue st; canSend := canSend st;
     tagCounter := tagCounter st;
     currentCommand := currentCommand st; idleTimer := idleTimer st;
     socketTimeoutTimer := socketTimeoutTimer st;
     restartQueue := restartQueue st; reader := reader st;
     compressed := compressed st; socketOpen := socketOpen st;
     allocated := allocated st; events := events st ++ [e] |}.

(** [array.indexOf(ref)]: the position of the record with that identity. *)
Fixpoint indexOf (ref : nat) (q : list Command) : option nat :=
  match q with
  | [] => None
  | c :: r => if Nat.eqb (c_id c) ref then Some 0 else option_map S (indexOf ref r)
  end.

(** [array.splice(index, 0, x)] and [array.splice(index, 1)]. *)
Definition splice_insert {A} (index : nat) (x : A) (l : list A) : list A :=
  firstn index l ++ x :: skipn index l.

Definition splice_remove {A} (index : nat) (l : list A) : list A :=
  firstn index l ++ skipn (S index) l.

Definition is_empty {A} (l : list A) : bool :=
  match l with [] => true | _ => false end.

(** The outcome of a piece of code that may return early or throw. *)
Inductive Flow :=
| Normal (st : State)      (* ran to its end *)
| Returned (st : State)    (* [return this._onError(e)] *)
| Threw (st : State).      (* an uncaught [TypeError] *)

Definition TIMEOUT_SOCKET_LOWER_BOUND : N := 10000.

(** *** Timers, [send], [close] *)

(** [send]: arms the socket timeout ([LOWER_BOUND + floor(bytes * 0.1)])
    and hands the string to the socket, or to the deflater when the
    connection is compressed. *)
Definition send (s : str) (st : State) : State :=
  emit (EvSend s)
    (with_socketTimer
       (Some (TIMEOUT_SOCKET_LOWER_BOUND + N.of_nat (length s) / 10)%N) st).

Definition enterIdle (st : State) : State := with_idleTimer true st.

Definition clearIdle (st : State) : State := with_idleTimer false st.

Definition tearDown (st : State) : State :=
  with_socketTimer None
    (with_idleTimer false (with_current None (with_queue [] st))).

(** [close]: with an open socket the tear-down waits for the socket's
    [onclose] event, which is not part of this model. *)
Definition close (st : State) : State :=
  let st := with_compressed false st in
  if socketOpen st then emit EvSocketClose st else tearDown st.

Definition onError (st : State) : State := close (emit EvFatal st).

Definition setHandler (command : str) (handler : nat) (st : State) : State :=
  with_handlers
    (set_key (trim (toUpperCase command)) handler (globalAcceptUntagged st)) st.

(** [command] holds an array: [toUpperCase] is no function of it. *)
Definition command_unreadable (response : Response) : bool :=
  match get_key "command" (r_keyed response) with
  | Some (KeyedOne (CStrings _)) | Some (KeyedOne (CArray _))
  | Some (KeyedMany _) => true
  | _ => false
  end.

(** [tag] holds a value that is no string. *)
Definition tag_unmatched (response : Response) : bool :=
  match get_key "tag" (r_keyed response) with
  | Some (KeyedOne (CString _)) | None => false
  | Some _ => true
  end.

Section Codec.

(** [imapHandler.parser] and [imapHandler.compiler(request, true)];
    [None] stands for a thrown exception. *)
Variable parser : str -> option Response.
Variable compiler : Request -> option (list str).

(** *** [_sendRequest]

    [precheck(context)] is application code as well: the call is recorded,
    the commands it enqueues are later operations of the history, and its
    promise is settled by [precheckResolved] or [precheckRejected]. *)

Definition sendRequest (st : State) : State :=
  match clientQueue st with
  | [] => enterIdle st
  | command :: rest =>
      let st := with_restartQueue false (clearIdle st) in
      match c_precheck command with
      | Some precheck =>
          let context := delete_precheck command in
          emit (EvPrecheck precheck (c_id context))
            (with_restartQueue true (with_queue (context :: rest) st))
      | None =>
          let st := with_queue rest (with_canSend false st) in
          match compiler (c_request command) with
          | None => onError (with_current (Some command) st)
          | Some chunks =>
              let (data, remaining) := shift chunks in
              send (concat_undef data (if is_empty remaining then EOL else []))
                (with_current (Some (set_data command (Some remaining))) st)
          end
      end
  end.

(** The two continuations of [precheck(context)]. *)
Definition precheckResolved (st : State) : State :=
  if restartQueue st then sendRequest st else st.

Definition precheckRejected (context : nat) (err : JsError) (st : State)
  : State :=
  match indexOf context (clientQueue st) with
  | Some index =>
      match nth_error (clientQueue st) index with
      | Some cmd =>
          emit (EvSettled (c_id cmd) (callback (ArgError err)))
            (with_queue (splice_remove index (clientQueue st)) st)
      | None => st
      end
  | None => st
  end.

(** *** [enqueueCommand] *)

(** The record [data], as it enters the queue. *)
Definition new_command (st : State) (request : Request)
           (acceptUntagged : list str) (options : Options) : Command :=
  let acceptUntagged := map normalize acceptUntagged in
  let tag := "W" ++ number_to_string (S (tagCounter st)) in
  let data :=
    {| c_id := allocated st;
       c_tag := tag;
       c_request :=
         {| req_command := req_command request;
            req_attributes := req_attributes request;
            req_tag := Some tag |};
       c_payload :=
         if is_empty acceptUntagged then None
         else Some (fold_left (fun p command => set_key command [] p)
                              acceptUntagged []);
       c_data := None;
       c_precheck := o_precheck options;
       c_ctx := o_ctx options;
       c_errorResponseExpectsEmptyLine :=
         o_errorResponseExpectsEmptyLine options |} in
  match c_ctx data with
  | Some ctx =>
      match indexOf ctx (clientQueue st) with
      | Some _ => suffix_priority data
      | None => data
      end
  | None => data
  end.

(** [enqueueCommand] up to the insertion into the queue. *)
Definition enqueue (st : State) (request : Request)
           (acceptUntagged : list str) (options : Options) : State :=
  let data := new_command st request acceptUntagged options in
  let index :=
    match c_ctx data with
    | Some ctx => indexOf ctx (clientQueue st)
    | None => None
    end in
  let st := with_counters (S (tagCounter st)) (S (allocated st)) st in
  match index with
  | Some index => with_queue (splice_insert index data (clientQueue st)) st
  | None => with_queue (clientQueue st ++ [data]) st
  end.

Definition enqueueCommand (st : State) (request : Request)
           (acceptUntagged : list str) (options : Options) : State :=
  let st := enqueue st request acceptUntagged options in
  if canSend st then sendRequest st else st.

(** *** [_handleResponse] *)

(** [response.payload = this._currentCommand.payload] when the command has
    a payload object with at least one key. *)
Definition attach_payload (cur : Command) (response : Response) : Response :=
  match c_payload cur with
  | Some p => if is_empty p then response else set_payload response (Some p)
  | None => response
  end.

(** [this._globalAcceptUntagged[command](response);
     this._canSend = true; this._sendRequest();]
    The handler is application code: its call is recorded.  What it asks
    of the client in turn (an [enqueueCommand], say) is a later operation
    of the history. *)
Definition deliver_global (command : str) (response : Response) (st : State)
  : State :=
  sendRequest (with_canSend true (emit (EvHandler command response) st)).

Definition handleResponse (st : State) (response : Response) : State :=
  let command := normalize (r_command response) in
  let untagged := str_eqb (r_tag response) "*" in
  match currentCommand st with
  | None =>
      (* unsolicited untagged response *)
      if untagged && has_key command (globalAcceptUntagged st)
      then deliver_global command response st
      else st
  | Some cur =>
      if match c_payload cur with
         | Some p => untagged && has_key command p
         | None => false
         end
      then
        (* expected untagged response *)
        with_current
          (Some (set_cpayload cur
                   (option_map (push_key command response) (c_payload cur))))
          st
      else if untagged && has_key command (globalAcceptUntagged st) then
        (* unexpected untagged response *)
        deliver_global command response st
      else if str_eqb (r_tag response) (c_tag cur) then
        (* tagged response *)
        let response := attach_payload cur response in
        sendRequest
          (with_canSend true
             (emit (EvSettled (c_id cur) (callback (ArgResponse response)))
                   st))
      else st
  end.

(** [_handleResponse] on a response as [_processResponse] has left it.
    Line 428 reads [command] first: [(response.command || '').toUpperCase()]
    throws when [command] has been overwritten with an array.  A [tag]
    overwritten with a value that is no string equals neither ['*'] nor the
    tag of a command, so that no branch is taken.  In every other case the
    tag and the command are the fields, and [handleResponse] is the body of
    the function. *)
Definition handleProcessed (st : State) (response : Response)
  : Result State :=
  if command_unreadable response then TypeError
  else if tag_unmatched response then Ok st
  else Ok (handleResponse st response).

(** *** [_parseIncomingCommands] *)

(** The ["+"]-tagged response: [this._currentCommand.data.length] is read
    first, whatever [this._currentCommand] is.  [false.data] is
    [undefined], and reading [length] of [undefined] throws. *)
Definition continuation (st : State) : Result State :=
  match currentCommand st with
  | None => TypeError
  | Some cur =>
      match c_data cur with
      | None => TypeError
      | Some (chunk :: remaining) =>
          (* feed the next chunk of data *)
          Ok (send (chunk ++ (if is_empty remaining then EOL else []))
                (with_current (Some (set_data cur (Some remaining))) st))
      | Some [] =>
          if truthy_str (typeof (c_errorResponseExpectsEmptyLine cur))
          then Ok (send EOL st)
          else Ok st
      end
  end.

(** The body of the [for] loop, for one unit taken from the reader. *)
Definition routeUnit (command : str) (st : State) : Flow :=
  let st := clearIdle st in
  if starts_with_plus command then
    match continuation st with
    | Ok st' => Normal st'
    | TypeError => Threw st
    end
  else
    match parser command with
    | None => Returned (onError st)
    | Some response =>
        match processResponse response with
        | TypeError => Threw st
        | Ok response =>
            match handleProcessed st response with
            | TypeError => Threw st
            | Ok st =>
                (* first response from the server, connection is now usable *)
                Normal (if connectionReady st then st
                        else emit EvReady (with_ready true st))
            end
        end
    end.

(** The loop over the generator: each turn of the reader's loop is taken
    when the consumer asks for the next unit; after an early exit the
    generator stays suspended at its [yield]. *)
Fixpoint parseIncomingCommands (fuel : nat) (st : State) : Flow :=
  match fuel with
  | 0 => Normal st
  | S fuel' =>
      match Framing.iterate_step (reader st) with
      | Framing.Wait => Normal st
      | Framing.Loop r => parseIncomingCommands fuel' (with_reader r st)
      | Framing.Yield command r =>
          match routeUnit command (with_reader r st) with
          | Normal st' =>
              parseIncomingCommands fuel'
                (with_reader (Framing.resume (reader st')) st')
          | other => other
          end
      end
  end.

(** [_onData] *)
Definition onData (chunk : str) (st : State) : Flow :=
  let st := with_socketTimer None st in
  let st := with_reader (Framing.push (reader st) chunk) st in
  parseIncomingCommands (S (length (Framing.incomingBuffer (reader st)))) st.

(** Units handed to the router one after the other. *)
Fixpoint routeUnits (units : list str) (st : State) : Flow :=
  match units with
  | [] => Normal st
  | u :: us =>
      match routeUnit u st with
      | Normal st' => routeUnits us st'
      | other => other
      end
  end.

(** *** Histories *)

Definition flow_state (f : Flow) : State :=
  match f with
  | Normal st | Returned st | Threw st => st
  end.

Definition flow_map (g : State -> State) (f : Flow) : Flow :=
  match f with
  | Normal st => Normal (g st)
  | Returned st => Returned (g st)
  | Threw st => Threw (g st)
  end.

Inductive Op :=
| OpEnqueue (request : Request) (acceptUntagged : list str) (options : Options)
| OpData (chunk : str)
| OpSetHandler (command : str) (handler : nat)
| OpPrecheckResolved
| OpPrecheckRejected (context : nat) (err : JsError).

Definition apply_op (st : State) (op : Op) : State :=
  match op with
  | OpEnqueue request acceptUntagged options =>
      enqueueCommand st request acceptUntagged options
  | OpData chunk => flow_state (onData chunk st)
  | OpSetHandler command handler => setHandler command handler st
  | OpPrecheckResolved => precheckResolved st
  | OpPrecheckRejected context err => precheckRejected context err st
  end.

(** The state after a history, and the tags given to the commands it
    enqueued, in order. *)
Fixpoint run (st : State) (ops : list Op) : State * list str :=
  match ops with
  | [] => (st, [])
  | op :: rest =>
      let (st', tags) := run (apply_op st op) rest in
      match op with
      | OpEnqueue request acceptUntagged options =>
          (st', c_tag (new_command st request acceptUntagged options) :: tags)
      | _ => (st', tags)
      end
  end.

End Codec.

(** The strings sent, in order. *)
Definition sent (st : State) : list str :=
  flat_map (fun e => match e with EvSend s => [s] | _ => [] end) (events st).

Definition priority_suffix (priority : bool) : str :=
  if priority then ".p" else [].

(** The tag of the [n]-th command, priority or not. *)
Definition tag_of (n : nat) (priority : bool) : str :=
  "W" ++ number_to_string n ++ priority_suffix priority.


End Client.

(** ** Statements in the words of the specification, and the vocabulary of
    the theorems *)

Module Spec.

Import Js Client.

(** "Each transmitted chunk has CRLF appended if and only if it is the
    final chunk": the first [n] transmissions for compiled [chunks]. *)
Fixpoint wire_chunks (chunks : list str) (n : nat) {struct n} : list str :=
  match n, chunks with
  | S n', c :: rest =>
      (c ++ (if is_empty rest then EOL else [])) :: wire_chunks rest n'
  | _, _ => []
  end.

(** "While the current command is non-null, the canSend flag is false." *)
Definition canSend_invariant (st : State) : Prop :=
  currentCommand st <> None -> canSend st = false.

(** "At least one acceptUntagged bucket is non-empty." *)
Definition some_bucket_filled (p : option Payload) : bool :=
  match p with
  | Some buckets => existsb (fun e => negb (is_empty (snd e))) buckets
  | None => false
  end.

(** The tagged completion as specified: the payload is attached exactly
    when a bucket is non-empty, and no command remains current. *)
Definition completion_as_specified
           (cur : Command) (delivered : Response) (after : State) : Prop :=
  (r_payload delivered <> None <-> some_bucket_filled (c_payload cur) = true) /\
  currentCommand after = None.

(** The command's payload object has at least one key. *)
Definition has_bucket (p : option Payload) : bool :=
  match p with
  | Some (_ :: _) => true
  | _ => false
  end.

(** The current command claims the response: it is untagged and its
    command names one of the command's [acceptUntagged] buckets. *)
Definition claimed (cur : Command) (r : Response) : bool :=
  match c_payload cur with
  | Some p => str_eqb (r_tag r) "*" && has_key (normalize (r_command r)) p
  | None => false
  end.

(** A response that is neither handed to a global untagged handler nor the
    tagged completion of the current command: the command claims it, or
    it is no untagged response with a global handler and does not carry
    the command's tag. *)
Definition routed_quietly (handlers : list (str * nat)) (cur : Command)
           (r : Response) : bool :=
  claimed cur r ||
  (negb (str_eqb (r_tag r) "*" &&
         has_key (normalize (r_command r)) handlers) &&
   negb (str_eqb (r_tag r) (c_tag cur))).
















(** Priority insertion as specified: the anchor sits right after the new
    record and its tag has received the suffix as well. *)
Definition anchor_suffixed (anchor : Command) (index : nat) (after : State)
  : Prop :=
  exists anchor',
    nth_error (clientQueue after) (S index) = Some anchor' /\
    c_id anchor' = c_id anchor /\
    c_tag anchor' = c_tag anchor ++ ".p".

(** "If that option is not set, the prompt is ignored and nothing is
    sent." *)
Definition prompt_ignored (before after : State) : Prop :=
  sent after = sent before.

End Spec.

(** ** Concrete sessions *)

Module Scenario.

Import Js Client.

(** A parser given by its graph on the lines of a session. *)
Definition table_parser (table : list (str * Response)) (line : str)
  : option Response :=
  option_map snd (find (fun e => str_eqb (fst e) line) table).

(** A compiler for requests without literals: one chunk, tag and command. *)
Definition one_line (request : Request) : option (list str) :=
  Some [concat_undef (req_tag request) (" " ++ req_command request)].

(** A compiler that yields the same chunks for every request. *)
Definition fixed_chunks (chunks : list str) (request : Request)
  : option (list str) :=
  Some chunks.

Definition greeting : Response :=
  parsed "*" "OK" (Some [ANode "TEXT" (Some "ready") None]).

Definition w1_ok : Response :=
  parsed "W1" "OK" (Some [ANode "TEXT" (Some "done") None]).

Definition capability : Response :=
  parsed "*" "CAPABILITY"
         (Some [ANode "ATOM" (Some "IMAP4rev1") None;
                ANode "ATOM" (Some "AUTH=PLAIN") None]).

(** [W2 NO [ALERT] bad mailbox] *)
Definition w2_no : Response :=
  parsed "W2" "NO"
         (Some [ANode "ATOM" (Some [])
                      (Some [ANode "ATOM" (Some "ALERT") None]);
                ANode "TEXT" (Some "bad mailbox") None]).

(** [* 5 EXISTS] *)
Definition exists5 : Response :=
  parsed "*" "5" (Some [ANode "ATOM" (Some "EXISTS") None]).

Definition session_parser : str -> option Response :=
  table_parser
    [("* OK ready", greeting);
     ("* CAPABILITY IMAP4rev1 AUTH=PLAIN", capability);
     ("* 5 EXISTS", exists5);
     ("W1 OK done", w1_ok);
     ("W2 NO [ALERT] bad mailbox", w2_no)].

Definition with_ctx (ctx : nat) : Options :=
  {| o_ctx := Some ctx; o_precheck := None;
     o_errorResponseExpectsEmptyLine := None |}.

(** The application registers a handler for untagged OK, the greeting
    arrives, CAPABILITY is enqueued and dispatched as [W1]. *)
Definition capability_sent : State :=
  fst (run session_parser one_line initial
         [OpSetHandler "ok" 0;
          OpData ("* OK ready" ++ EOL);
          OpEnqueue (request_of_string "CAPABILITY") ["CAPABILITY"] no_options]).

(** The server completes [W1] without any untagged CAPABILITY. *)
Definition capability_done : State :=
  flow_state (onData session_parser one_line ("W1 OK done" ++ EOL) capability_sent).

Definition capability_command : Command :=
  {| c_id := 0; c_tag := "W1";
     c_request := {| req_command := "CAPABILITY"; req_attributes := [];
                     req_tag := Some "W1" |};
     c_payload := Some [("CAPABILITY", [])];
     c_data := Some [];
     c_precheck := None; c_ctx := None;
     c_errorResponseExpectsEmptyLine := None |}.

(** [W1 OK done] after [_processResponse]. *)
Definition w1_ok_processed : Response :=
  set_humanReadable w1_ok (Some "done").

(** The state after the prompt [+ go] has been routed while [W1] is in
    flight. *)
Definition capability_prompted : State :=
  send EOL (clearIdle capability_sent).

(** What the callback of [W1] receives. *)
Definition w1_ok_delivered : Response :=
  set_payload w1_ok_processed (Some [("CAPABILITY", [])]).

Definition capability_completed : State :=
  handleResponse one_line capability_sent w1_ok_processed.

(** [W1] is in flight and [W2] queued when an untagged EXISTS, for which the
    application has a handler, arrives; then the server completes [W1]. *)
Definition overtaken : State :=
  fst (run session_parser one_line initial
         [OpSetHandler "ok" 0;
          OpSetHandler "exists" 1;
          OpData ("* OK ready" ++ EOL);
          OpEnqueue (request_of_string "CAPABILITY") [] no_options;
          OpEnqueue (request_of_string "NOOP") [] no_options;
          OpData ("* 5 EXISTS" ++ EOL);
          OpData ("W1 OK done" ++ EOL)]).

(** Before the greeting nothing may be sent: SELECT waits in the queue as
    [W1]; then NOOP is enqueued with [ctx] pointing at it. *)
Definition anchor_queued : State :=
  enqueueCommand one_line initial (request_of_string "SELECT") [] no_options.

Definition anchor : Command :=
  {| c_id := 0; c_tag := "W1";
     c_request := {| req_command := "SELECT"; req_attributes := [];
                     req_tag := Some "W1" |};
     c_payload := None; c_data := None;
     c_precheck := None; c_ctx := None;
     c_errorResponseExpectsEmptyLine := None |}.

Definition priority_queued : State :=
  enqueueCommand one_line anchor_queued (request_of_string "NOOP") [] (with_ctx 0).

(** A request compiled into two chunks, waiting at the head of the queue. *)
Definition two_chunks : list str := ["W1 LOGIN {4}"; "user"].

Definition literal_queued : State :=
  enqueueCommand (fixed_chunks two_chunks) initial
                 (request_of_string "LOGIN") [] no_options.

Definition login_command : Command :=
  {| c_id := 0; c_tag := "W1";
     c_request := {| req_command := "LOGIN"; req_attributes := [];
                     req_tag := Some "W1" |};
     c_payload := None; c_data := None;
     c_precheck := None; c_ctx := None;
     c_errorResponseExpectsEmptyLine := None |}.

(** A FETCH response with a literal, and the same stream cut inside the
    marker, inside the literal and inside the closing terminator. *)
Definition fetch_unit : Framing.ResponseUnit :=
  {| Framing.unit_literals :=
       [{| Framing.lit_text := "* 1 FETCH (BODY[] ";
           Framing.lit_digits := "5";
           Framing.lit_plus := false;
           Framing.lit_cr := true;
           Framing.lit_bytes := [LF] ++ "ell" ++ [CR] |}];
     Framing.unit_tail := ")";
     Framing.unit_cr := true |}.

Definition fetch_chunks : list str :=
  ["* 1 FETCH (BODY[] {"; "5}" ++ [CR; LF; LF] ++ "el"; "l" ++ [CR] ++ ")" ++ [CR]; [LF]].

Definition empty_literal_chunks : list str :=
  ["* LIST {0"; "}" ++ [CR]; [LF] ++ " done"; EOL].

End Scenario.

(** ** The constructor *)

Module Construction.

(** [options.tcpSocket]: the key [useSecureTransport] is present with a
    truthy or falsy value, or absent. *)
Record TcpSocketOptions := {
  useSecureTransport : option bool
}.

(** [options]: [tcpSocket] may be missing, and so may the top-level key
    [useSecureTransport] that [secureMode] is read from. *)
Record Options := {
  tcpSocket : option TcpSocketOptions;
  topUseSecureTransport : option bool
}.

(** What the constructor fixes about the connection. *)
Record Connection := {
  host : str;
  port : nat;
  tcpUseSecureTransport : bool;   (* [this.options.tcpSocket.useSecureTransport] *)
  secureMode : bool
}.

Definition truthy (v : option bool) : bool :=
  match v with
  | Some b => b
  | None => false
  end.

(** [{ useSecureTransport: true, binaryType: 'arraybuffer' }] *)
Definition default_tcpSocket : TcpSocketOptions :=
  {| useSecureTransport := Some true |}.

(** [function ImapClient(host, port, options)]: a missing argument is
    [None]; the port [0] and the host [''] are falsy as well. *)
Definition ImapClient (host_ : option str) (port_ : option nat)
           (options : option Options) : Connection :=
  let tcp :=
    match options with
    | Some o =>
        match tcpSocket o with
        | Some t => t
        | None => default_tcpSocket
        end
    | None => default_tcpSocket
    end in
  let port_ :=
    match port_ with
    | Some (S p) => S p
    | _ => if truthy (useSecureTransport tcp) then 993 else 143
    end in
  {| host := match host_ with
             | Some (c :: s) => c :: s
             | _ => "localhost"
             end;
     port := port_;
     tcpUseSecureTransport :=
       match useSecureTransport tcp with
       | Some b => b                      (* ['useSecureTransport' in ...] *)
       | None => Nat.eqb port_ 993
       end;
     secureMode :=
       match options with
       | Some o => truthy (topUseSecureTransport o)
       | None => false
       end |}.

End Construction.

(** ** Vocabulary of the further properties *)

Module More.

Import Js Client.

(** The units emitted, each followed by a line terminator again. *)
Fixpoint rejoin (units : list str) (crs : list bool) : str :=
  match units, crs with
  | u :: us, cr :: crs' => u ++ Framing.eol cr ++ rejoin us crs'
  | _, _ => []
  end.

(** The wire form of a literal that announces [n] bytes. *)
Definition counted_literal (text : str) (n : nat) (plus cr : bool)
           (bytes : str) : Framing.Literal :=
  {| Framing.lit_text := text;
     Framing.lit_digits := number_to_string n;
     Framing.lit_plus := plus;
     Framing.lit_cr := cr;
     Framing.lit_bytes := bytes |}.

(** [{type: 'ATOM', value: v}] *)
Definition atom (v : str) : Attr := ANode "ATOM" (Some v) None.



Definition is_node (a : Attr) : bool :=
  match a with
  | ANode _ _ _ => true
  | _ => false
  end.

Definition non_null (a : Attr) : bool :=
  match a with
  | ANull => false
  | _ => true
  end.

(** An entry of a bracketed section that [_processResponse] can map: not
    an array that holds [null]. *)
Definition entry_ok (a : Attr) : bool :=
  match a with
  | AList items => forallb non_null items
  | _ => true
  end.

(** The section of the first attribute, when it has one, begins with a node
    and holds no array with [null] in it. *)
Definition head_section_ok (attrs : list Attr) : bool :=
  match attrs with
  | ANode _ _ (Some (first :: more)) :: _ => is_node first && forallb entry_ok more
  | _ => true
  end.

(** [payload[name]], the empty array when the key is missing. *)
Definition bucket (k : str) (p : Payload) : list Response :=
  match find (fun e => str_eqb (fst e) k) p with
  | Some e => snd e
  | None => []
  end.

(** How many times [onready] was called. *)
Definition ready_count (evs : list Event) : nat :=
  length (filter (fun e => match e with EvReady => true | _ => false end) evs).

Definition is_setHandler (op : Op) : bool :=
  match op with
  | OpSetHandler _ _ => true
  | _ => false
  end.

(** The first transmission of a command whose request compiles to
    [chunks]. *)
Definition first_wire (chunks : list str) : str :=
  let (data, remaining) := shift chunks in
  concat_undef data (if is_empty remaining then EOL else []).

(** Nothing was sent, nothing may be sent, no command is in flight and no
    global handler is registered. *)
Definition cold (st : State) : Prop :=
  canSend st = false /\ currentCommand st = None /\
  globalAcceptUntagged st = [] /\ restartQueue st = false /\ sent st = [].

(** [onready] was called once when the connection is marked ready, and
    never before. *)
Definition ready_once (st : State) : Prop :=
  ready_count (events st) = if connectionReady st then 1 else 0.

(** The command in flight has its array of compiled chunks. *)
Definition has_data (st : State) : Prop :=
  forall cur, currentCommand st = Some cur -> c_data cur <> None.

(** An armed idle timer means an empty queue and leave to send; so does a
    precheck whose promise is awaited. *)
Definition idle_when_done (st : State) : Prop :=
  (idleTimer st = true -> clientQueue st = [] /\ canSend st = true) /\
  (restartQueue st = true -> canSend st = true).

(** The first transmission of a queued command, given the compiler. *)
Definition wire_of (compiler : Request -> option (list str)) (c : Command)
  : str :=
  match compiler (c_request c) with
  | Some chunks => first_wire chunks
  | None => []
  end.

(** [TIMEOUT_SOCKET_LOWER_BOUND + Math.floor(byteLength * 0.1)] *)
Definition timeout_for (s : str) : N :=
  (TIMEOUT_SOCKET_LOWER_BOUND + N.of_nat (length s) / 10)%N.

(** The socket timeout after the strings [new] were sent, in this order,
    none being armed before. *)
Definition armed_for (new : list str) : option N :=
  fold_left (fun _ s => Some (timeout_for s)) new None.

(** On an open socket: since [base] was sent, the strings [new] were sent
    and the socket timeout is the one of the last of them. *)
Definition timer_tracks (base : list str) (st : State) : Prop :=
  socketOpen st = true /\
  exists new, sent st = base ++ new /\ socketTimeoutTimer st = armed_for new.

(** The identities of the queued records. *)
Definition ids (st : State) : list nat := map c_id (clientQueue st).

(** The records of the queue are distinct objects, and the command in
    flight is none of them. *)
Definition identities_distinct (st : State) : Prop :=
  NoDup (ids st) /\ Forall (fun i => i < allocated st) (ids st) /\
  match currentCommand st with
  | Some cur => c_id cur < allocated st /\ ~ In (c_id cur) (ids st)
  | None => True
  end.

End More.

(** ** Further concrete inputs *)

Module MoreScenario.

Import Js Client More.



(** [* OK [PERMANENTFLAGS (\Answered \Flagged)] Limited] *)
Definition permanentflags : list Attr :=
  [ANode "ATOM" (Some [])
         (Some [atom "PERMANENTFLAGS";
                AList [atom "\Answered"; atom "\Flagged"]]);
   ANode "TEXT" (Some "Limited") None].

(** [W1] in flight with a FETCH bucket, a global handler for FETCH being
    registered as well. *)
Definition fetch_sent : State :=
  fst (run Scenario.session_parser Scenario.one_line initial
         [OpSetHandler "ok" 0;
          OpSetHandler "fetch" 1;
          OpData ("* OK ready" ++ EOL);
          OpEnqueue (request_of_string "FETCH 1:2 FLAGS") ["FETCH"] no_options]).

Definition fetch_command : Command :=
  {| c_id := 0; c_tag := "W1";
     c_request := {| req_command := "FETCH 1:2 FLAGS"; req_attributes := [];
                     req_tag := Some "W1" |};
     c_payload := Some [("FETCH", [])];
     c_data := Some [];
     c_precheck := None; c_ctx := None;
     c_errorResponseExpectsEmptyLine := None |}.

(** [* 1 FETCH (...)] and [* 2 FETCH (...)] after [_processResponse]. *)
Definition fetched (n : nat) : Response :=
  {| r_tag := "*"; r_command := "FETCH"; r_attributes := Some [AList []];
     r_nr := Some n; r_humanReadable := None; r_code := CUndefined;
     r_keyed := []; r_payload := None |}.

Definition with_precheck (p : nat) : Options :=
  {| o_ctx := None; o_precheck := Some p;
     o_errorResponseExpectsEmptyLine := None |}.

Definition greeted : State :=
  fst (run Scenario.session_parser Scenario.one_line initial
         [OpSetHandler "ok" 0; OpData ("* OK ready" ++ EOL)]).



(** Three commands enqueued before the greeting; [W1] was then dispatched
    by hand of the greeting's handler. *)
Definition three_queued : State :=
  fst (run Scenario.session_parser Scenario.one_line initial
         [OpSetHandler "ok" 0;
          OpEnqueue (request_of_string "A") [] no_options;
          OpEnqueue (request_of_string "B") [] no_options;
          OpEnqueue (request_of_string "C") [] no_options;
          OpData ("* OK ready" ++ EOL)]).

Definition tagged_ok (tag : str) : Response :=
  parsed tag "OK" None.

(** Before the greeting, with a global handler for FETCH: [W1], a FETCH
    that collects the untagged FETCH responses, and behind it [W2], a
    command with a precheck. *)
Definition fetch_queued : State :=
  fst (run Scenario.session_parser Scenario.one_line initial
         [OpSetHandler "fetch" 1;
          OpEnqueue (request_of_string "FETCH 1:2 FLAGS") ["FETCH"] no_options;
          OpEnqueue (request_of_string "NOOP") [] (with_precheck 7)]).

Definition fetch_waiting : Command :=
  {| c_id := 0; c_tag := "W1";
     c_request := {| req_command := "FETCH 1:2 FLAGS"; req_attributes := [];
                     req_tag := Some "W1" |};
     c_payload := Some [("FETCH", [])];
     c_data := None;
     c_precheck := None; c_ctx := None;
     c_errorResponseExpectsEmptyLine := None |}.

Definition noop_guarded : Command :=
  {| c_id := 1; c_tag := "W2";
     c_request := {| req_command := "NOOP"; req_attributes := [];
                     req_tag := Some "W2" |};
     c_payload := None; c_data := None;
     c_precheck := Some 7; c_ctx := None;
     c_errorResponseExpectsEmptyLine := None |}.

End MoreScenario.

(** * Proofs *)

(** ** Characters and digit strings *)

Module JsFacts.

Import Js.

Lemma span_digits_split (s : str) :
  fst (span_digits s) ++ snd (span_digits s) = s.
Proof.
  induction s as [|c r IH]; simpl; [reflexivity|].
  destruct (is_digit c); [|reflexivity].
  destruct (span_digits r) as [ds r']; simpl in *. now rewrite IH.
Qed.

(** A non-digit stops the scan: what follows it is left untouched. *)
Lemma span_digits_app (a b : str) (x : ascii) :
  is_digit x = false ->
  span_digits (a ++ x :: b) =
  (fst (span_digits a), snd (span_digits a) ++ x :: b).
Proof.
  intros Hx. induction a as [|c r IH]; simpl.
  - now rewrite Hx.
  - destruct (is_digit c); [|reflexivity].
    rewrite IH. now destruct (span_digits r).
Qed.

Lemma span_digits_all (ds : str) :
  forallb is_digit ds = true -> span_digits ds = (ds, []).
Proof.
  induction ds as [|c r IH]; simpl; [reflexivity|].
  intros H. apply andb_true_iff in H as [Hc Hr].
  now rewrite Hc, (IH Hr).
Qed.

End JsFacts.

(** ** The regular expression *)

Module RegexFacts.

Import Js JsFacts Framing.

Ltac char_case c k :=
  destruct (Ascii.eqb_spec c k) as [->|?].

Lemma in_cons_other {A} (x c : A) (r : list A) :
  In x (c :: r) -> c <> x -> In x r.
Proof. intros [H|H] Hne; [contradiction | exact H]. Qed.

(** *** A match ends with the first LF and lies inside the string *)

Lemma match_eol_range (s : str) (n : nat) :
  match_eol s = Some n -> 1 <= n <= length s /\ In LF s.
Proof.
  destruct s as [|c r]; simpl; [discriminate|].
  char_case c LF.
  - intros [= <-]. split; [lia | now left].
  - char_case c CR; [|discriminate].
    destruct r as [|d r]; [discriminate|].
    char_case d LF; [|discriminate].
    intros [= <-]. simpl. split; [lia | right; now left].
Qed.

Lemma match_close_range (s : str) (n : nat) :
  match_close s = Some n -> 1 <= n <= length s /\ In LF s.
Proof.
  destruct s as [|c r]; simpl; [discriminate|].
  char_case c RBRACE; [|discriminate].
  destruct (match_eol r) as [k|] eqn:E; [|discriminate].
  intros [= <-]. apply match_eol_range in E as [? ?].
  simpl. split; [lia | now right].
Qed.

Lemma match_plus_close_range (s : str) (n : nat) :
  match_plus_close s = Some n -> 1 <= n <= length s /\ In LF s.
Proof.
  destruct s as [|c r]; [discriminate|].
  unfold match_plus_close. char_case c PLUS.
  - destruct (match_close r) as [k|] eqn:E; [|discriminate].
    intros [= <-]. apply match_close_range in E as [? ?].
    simpl. split; [lia | now right].
  - apply match_close_range.
Qed.

Lemma match_literal_range (s : str) (ds : str) (n : nat) :
  match_literal s = Some (ds, n) -> 1 <= n <= length s /\ In LF s.
Proof.
  destruct s as [|c r]; simpl; [discriminate|].
  char_case c LBRACE; [|discriminate].
  pose proof (span_digits_split r) as Hsplit.
  destruct (span_digits r) as [ds' r'] eqn:Hspan; simpl in Hsplit.
  destruct ds' as [|d ds']; [discriminate|].
  destruct (match_plus_close r') as [k|] eqn:E; [|discriminate].
  intros [= <- <-]. apply match_plus_close_range in E as [? ?].
  rewrite <- Hsplit. rewrite length_app. split; [simpl; lia|].
  right. apply in_or_app. now right.
Qed.

Lemma match_here_range (s : str) (d : option str) (n : nat) :
  match_here s = Some (d, n) -> 1 <= n <= length s /\ In LF s.
Proof.
  unfold match_here.
  destruct (match_literal s) as [[ds k]|] eqn:E.
  - intros [= <- <-]. eapply match_literal_range; eauto.
  - destruct (match_eol s) as [k|] eqn:E'; [|discriminate].
    intros [= <- <-]. now apply match_eol_range.
Qed.

Lemma regex_match_range (s : str) (m : RegexMatch) :
  regex_match s = Some m ->
  1 <= m_length m /\ m_index m + m_length m <= length s /\ In LF s.
Proof.
  revert m. induction s as [|c r IH]; intros m; [discriminate|].
  cbn [regex_match].
  destruct (match_here (c :: r)) as [[d n]|] eqn:E.
  - intros [= <-]. apply match_here_range in E as [? ?]. simpl in *.
    repeat split; try lia; assumption.
  - destruct (regex_match r) as [m'|]; [|discriminate].
    intros [= <-]. destruct (IH m' eq_refl) as (? & ? & ?).
    simpl. repeat split; try lia. now right.
Qed.

(** Every LF is matched by the pattern, so a match exists as soon as the
    string contains one. *)
Lemma regex_match_exists (s : str) :
  In LF s -> exists m, regex_match s = Some m.
Proof.
  induction s as [|c r IH]; intros H; [contradiction|].
  cbn [regex_match].
  destruct (match_here (c :: r)) as [[d n]|] eqn:E; [eauto|].
  char_case c LF.
  - unfold match_here in E. destruct (match_literal (LF :: r)) as [[? ?]|];
      [discriminate|]. simpl in E. discriminate.
  - destruct (IH (in_cons_other _ _ _ H ltac:(congruence))) as [m ->].
    simpl. eauto.
Qed.

(** *** Later input does not change a match *)

Lemma match_eol_app (s t : str) :
  In LF s -> match_eol (s ++ t) = match_eol s.
Proof.
  destruct s as [|c r]; [contradiction|]. intros H. simpl.
  char_case c LF; [reflexivity|].
  char_case c CR; [|reflexivity].
  destruct r as [|d r]; [|reflexivity].
  destruct H as [H|[]]. congruence.
Qed.

Lemma match_close_app (s t : str) :
  In LF s -> match_close (s ++ t) = match_close s.
Proof.
  destruct s as [|c r]; [contradiction|]. intros H. simpl.
  char_case c RBRACE; [|reflexivity].
  rewrite match_eol_app; [reflexivity|].
  apply (in_cons_other _ _ _ H). discriminate.
Qed.

Lemma match_plus_close_app (s t : str) :
  In LF s -> match_plus_close (s ++ t) = match_plus_close s.
Proof.
  destruct s as [|c r]; [contradiction|]. intros H.
  change ((c :: r) ++ t) with (c :: (r ++ t)). unfold match_plus_close.
  char_case c PLUS.
  - rewrite match_close_app; [reflexivity|].
    apply (in_cons_other _ _ _ H). discriminate.
  - now apply (match_close_app (c :: r)).
Qed.

Lemma span_digits_app_lf (s t : str) :
  In LF s ->
  span_digits (s ++ t) = (fst (span_digits s), snd (span_digits s) ++ t) /\
  In LF (snd (span_digits s)).
Proof.
  intros H. apply in_split in H as (a & b & ->).
  rewrite <- app_assoc. simpl.
  rewrite !span_digits_app by reflexivity. simpl.
  rewrite <- app_assoc. split; [reflexivity|].
  apply in_or_app. right. now left.
Qed.

Lemma match_literal_app (s t : str) :
  In LF s -> match_literal (s ++ t) = match_literal s.
Proof.
  destruct s as [|c r]; [contradiction|]. intros H. simpl.
  char_case c LBRACE; [|reflexivity].
  apply in_cons_other in H; [|discriminate].
  destruct (span_digits_app_lf r t H) as [-> Hin].
  destruct (span_digits r) as [ds r']; simpl in *.
  destruct ds; [reflexivity|].
  now rewrite match_plus_close_app.
Qed.

Lemma match_here_app (s t : str) :
  In LF s -> match_here (s ++ t) = match_here s.
Proof.
  intros H. unfold match_here.
  now rewrite match_literal_app, match_eol_app.
Qed.

Lemma regex_match_app (s t : str) (m : RegexMatch) :
  regex_match s = Some m -> regex_match (s ++ t) = Some m.
Proof.
  revert m. induction s as [|c r IH]; intros m Hm; [discriminate|].
  pose proof (regex_match_range _ _ Hm) as (_ & _ & Hin).
  change ((c :: r) ++ t) with (c :: (r ++ t)).
  cbn [regex_match] in *.
  change (c :: (r ++ t)) with ((c :: r) ++ t).
  rewrite match_here_app by exact Hin.
  destruct (match_here (c :: r)) as [[d n]|]; [exact Hm|].
  destruct (regex_match r) as [m'|]; [|discriminate].
  now rewrite (IH m' eq_refl).
Qed.

End RegexFacts.

(** ** The reader loop *)

Module ReaderFacts.

Import Js JsFacts Framing RegexFacts.

Lemma firstn_app_le {A} (n : nat) (a b : list A) :
  n <= length a -> firstn n (a ++ b) = firstn n a.
Proof.
  intros H. rewrite firstn_app.
  replace (n - length a) with 0 by lia. simpl. apply app_nil_r.
Qed.

Lemma skipn_app_le {A} (n : nat) (a b : list A) :
  n <= length a -> skipn n (a ++ b) = skipn n a ++ b.
Proof.
  intros H. rewrite skipn_app.
  replace (n - length a) with 0 by lia. reflexivity.
Qed.

Lemma resume_push (r : Reader) (t : str) :
  resume (push r t) = push (resume r) t.
Proof. reflexivity. Qed.

(** A turn of the loop that does not stop consumes input. *)
Lemma iterate_step_shrinks (r : Reader) :
  match iterate_step r with
  | Wait => True
  | Loop r' | Yield _ r' =>
      length (incomingBuffer r') < length (incomingBuffer r)
  end.
Proof.
  unfold iterate_step.
  destruct (regex_match (incomingBuffer r)) as [m|] eqn:Hm; [|exact I].
  apply regex_match_range in Hm as (Hlen & Hle & _).
  destruct (0 <? literalRemaining r) eqn:Hlit; simpl.
  - destruct (length (incomingBuffer r) <? literalRemaining r) eqn:Hshort;
      [exact I|]. simpl.
    apply Nat.ltb_lt in Hlit. apply Nat.ltb_ge in Hshort.
    rewrite length_skipn. lia.
  - destruct (m_digits m); simpl; rewrite length_skipn; lia.
Qed.

(** A turn that was possible stays possible, with the same effect, when
    more input has arrived. *)
Lemma iterate_step_push (r : Reader) (t : str) :
  match iterate_step r with
  | Wait => True
  | Loop r' => iterate_step (push r t) = Loop (push r' t)
  | Yield u r' => iterate_step (push r t) = Yield u (push r' t)
  end.
Proof.
  unfold iterate_step. cbn [push incomingBuffer command literalRemaining].
  destruct (regex_match (incomingBuffer r)) as [m|] eqn:Hm; [|exact I].
  rewrite (regex_match_app _ t _ Hm).
  apply regex_match_range in Hm as (Hlen & Hle & _).
  rewrite length_app.
  destruct (0 <? literalRemaining r) eqn:Hlit; simpl.
  - destruct (length (incomingBuffer r) <? literalRemaining r) eqn:Hshort;
      [exact I|]. simpl.
    apply Nat.ltb_ge in Hshort.
    replace (length (incomingBuffer r) + length t <? literalRemaining r)
      with false by (symmetry; apply Nat.ltb_ge; lia).
    unfold push; simpl.
    now rewrite firstn_app_le, skipn_app_le by lia.
  - destruct (m_digits m); unfold push; simpl;
      now rewrite !firstn_app_le, skipn_app_le by lia.
Qed.

(** *** Fuel *)

Lemma iterate_fuel (f1 f2 : nat) (r : Reader) :
  length (incomingBuffer r) < f1 ->
  length (incomingBuffer r) < f2 ->
  iterate f1 r = iterate f2 r.
Proof.
  revert f2 r. induction f1 as [|f1 IH]; intros f2 r H1 H2; [lia|].
  destruct f2 as [|f2]; [lia|]. simpl.
  pose proof (iterate_step_shrinks r) as Hs.
  destruct (iterate_step r) as [|r'|u r'].
  - reflexivity.
  - apply IH; lia.
  - rewrite (IH f2 (resume r')) by (simpl; lia). reflexivity.
Qed.

Lemma iterateIncomingBuffer_eq (r : Reader) :
  iterateIncomingBuffer r =
  match iterate_step r with
  | Wait => ([], r)
  | Loop r' => iterateIncomingBuffer r'
  | Yield u r' =>
      (u :: fst (iterateIncomingBuffer (resume r')),
       snd (iterateIncomingBuffer (resume r')))
  end.
Proof.
  unfold iterateIncomingBuffer at 1. cbn [iterate].
  pose proof (iterate_step_shrinks r) as Hs.
  destruct (iterate_step r) as [|r'|u r'].
  - reflexivity.
  - apply iterate_fuel; lia.
  - unfold iterateIncomingBuffer.
    rewrite (iterate_fuel (length (incomingBuffer r))
               (S (length (incomingBuffer (resume r')))) (resume r'))
      by (simpl; lia).
    now destruct (iterate _ (resume r')).
Qed.

(** The loop is left only when nothing more can be done with the input
    received so far: the fuel is never what stops it. *)
Lemma iterateIncomingBuffer_quiescent (r : Reader) :
  iterate_step (snd (iterateIncomingBuffer r)) = Wait.
Proof.
  remember (length (incomingBuffer r)) as n eqn:Hn.
  revert r Hn. induction n as [n IH] using lt_wf_ind. intros r ->.
  rewrite iterateIncomingBuffer_eq.
  pose proof (iterate_step_shrinks r) as Hs.
  destruct (iterate_step r) as [|r'|u r'] eqn:E.
  - exact E.
  - eapply IH; [exact Hs | reflexivity].
  - simpl. eapply IH; [|reflexivity]. exact Hs.
Qed.

(** *** Chunk boundaries do not matter *)

Lemma iterateIncomingBuffer_push (r : Reader) (t : str) :
  iterateIncomingBuffer (push r t) =
  (fst (iterateIncomingBuffer r) ++
     fst (iterateIncomingBuffer (push (snd (iterateIncomingBuffer r)) t)),
   snd (iterateIncomingBuffer (push (snd (iterateIncomingBuffer r)) t))).
Proof.
  remember (length (incomingBuffer r)) as n eqn:Hn.
  revert r Hn. induction n as [n IH] using lt_wf_ind. intros r ->.
  rewrite (iterateIncomingBuffer_eq r).
  pose proof (iterate_step_shrinks r) as Hs.
  pose proof (iterate_step_push r t) as Hp.
  destruct (iterate_step r) as [|r'|u r'] eqn:E.
  - simpl. now destruct (iterateIncomingBuffer (push r t)).
  - rewrite (iterateIncomingBuffer_eq (push r t)), Hp.
    eapply IH; [exact Hs | reflexivity].
  - rewrite (iterateIncomingBuffer_eq (push r t)), Hp.
    rewrite resume_push. cbn [fst snd].
    rewrite (IH _ Hs (resume r') eq_refl). reflexivity.
Qed.

Lemma push_push (r : Reader) (a b : str) :
  push (push r a) b = push r (a ++ b).
Proof. unfold push; simpl. now rewrite app_assoc. Qed.

Lemma feed_concat (chunks : list str) (r : Reader) :
  feed r chunks =
  match chunks with
  | [] => ([], r)
  | _ => iterateIncomingBuffer (push r (concat chunks))
  end.
Proof.
  revert r. induction chunks as [|c cs IH]; intros r; [reflexivity|].
  cbn [feed concat]. unfold onData.
  rewrite <- push_push, (iterateIncomingBuffer_push (push r c)).
  destruct (iterateIncomingBuffer (push r c)) as [us r1] eqn:E1.
  rewrite IH. cbn [fst snd].
  destruct cs as [|c' cs'].
  - simpl concat.
    assert (Hq : iterate_step r1 = Wait).
    { change r1 with (snd (us, r1)). rewrite <- E1.
      apply iterateIncomingBuffer_quiescent. }
    assert (Hr1 : push r1 [] = r1).
    { destruct r1; unfold push; simpl. now rewrite app_nil_r. }
    rewrite Hr1, (iterateIncomingBuffer_eq r1), Hq. reflexivity.
  - now destruct (iterateIncomingBuffer (push r1 (concat (c' :: cs')))).
Qed.

End ReaderFacts.

(** ** Where the pattern matches in a well-formed line *)

Module WireFacts.

Import Js JsFacts Framing RegexFacts.

Lemma no_lf_cons (c : ascii) (s : str) :
  no_lf (c :: s) = true -> c <> LF /\ no_lf s = true.
Proof.
  unfold no_lf; simpl. intros H. apply andb_true_iff in H as [Hc Hs].
  split; [|exact Hs]. intros ->. discriminate.
Qed.

Lemma no_lf_app (a b : str) :
  no_lf (a ++ b) = true -> no_lf a = true /\ no_lf b = true.
Proof. unfold no_lf. rewrite forallb_app. apply andb_true_iff. Qed.

Lemma no_lf_span (s : str) :
  no_lf s = true -> no_lf (snd (span_digits s)) = true.
Proof.
  intros H. rewrite <- (span_digits_split s) in H.
  now apply no_lf_app in H.
Qed.

Lemma ends_with_cr_cons (c d : ascii) (s : str) :
  ends_with_cr (c :: d :: s) = ends_with_cr (d :: s).
Proof. reflexivity. Qed.

Lemma ends_with_cr_app (a b : str) :
  b <> [] -> ends_with_cr (a ++ b) = ends_with_cr b.
Proof.
  intros Hb. induction a as [|c a IH]; [reflexivity|].
  simpl app. destruct (a ++ b) as [|d s] eqn:E.
  - destruct a; [simpl in E; congruence | discriminate].
  - now rewrite ends_with_cr_cons.
Qed.

(** *** Line text followed by a literal marker *)

Lemma match_eol_text_brace (s rest : str) :
  no_lf s = true -> match_eol (s ++ LBRACE :: rest) = None.
Proof.
  destruct s as [|c r]; [reflexivity|]. intros H.
  apply no_lf_cons in H as [Hc Hr]. simpl.
  char_case c LF; [congruence|].
  char_case c CR; [|reflexivity].
  destruct r as [|d r]; [reflexivity|].
  apply no_lf_cons in Hr as [Hd _]. simpl.
  char_case d LF; [congruence | reflexivity].
Qed.

Lemma match_close_text_brace (s rest : str) :
  no_lf s = true -> match_close (s ++ LBRACE :: rest) = None.
Proof.
  destruct s as [|c r]; [reflexivity|]. intros H.
  apply no_lf_cons in H as [Hc Hr]. simpl.
  char_case c RBRACE; [|reflexivity].
  now rewrite match_eol_text_brace.
Qed.

Lemma match_plus_close_text_brace (s rest : str) :
  no_lf s = true -> match_plus_close (s ++ LBRACE :: rest) = None.
Proof.
  destruct s as [|c r]; [reflexivity|]. intros H.
  change ((c :: r) ++ LBRACE :: rest) with (c :: (r ++ LBRACE :: rest)).
  unfold match_plus_close. char_case c PLUS.
  - apply no_lf_cons in H as [_ Hr].
    now rewrite match_close_text_brace.
  - now apply (match_close_text_brace (c :: r)).
Qed.

Lemma match_here_text_brace (c : ascii) (r rest : str) :
  no_lf (c :: r) = true -> match_here ((c :: r) ++ LBRACE :: rest) = None.
Proof.
  intros H. unfold match_here.
  rewrite (match_eol_text_brace (c :: r)) by exact H.
  apply no_lf_cons in H as [Hc Hr]. simpl.
  char_case c LBRACE; [|reflexivity].
  rewrite span_digits_app by reflexivity.
  pose proof (no_lf_span r Hr) as Hs.
  destruct (span_digits r) as [ds r']; simpl in *.
  destruct ds; [reflexivity|].
  now rewrite match_plus_close_text_brace.
Qed.

Lemma match_here_marker (l : Literal) (rest : str) :
  well_formed_count (lit_digits l) = true ->
  match_here (marker l ++ rest) =
  Some (Some (lit_digits l), length (marker l)).
Proof.
  intros H. apply andb_true_iff in H as [Hne Hds].
  unfold match_here, marker. simpl.
  assert (Hspan : forall x tl, is_digit x = false ->
            span_digits (lit_digits l ++ x :: tl) = (lit_digits l, x :: tl)).
  { intros x tl Hx. rewrite span_digits_app by exact Hx.
    now rewrite span_digits_all. }
  destruct (lit_digits l) as [|d ds] eqn:Ed; [discriminate|].
  rewrite <- Ed in *.
  destruct (lit_plus l), (lit_cr l); simpl;
    rewrite <- ?app_assoc; simpl;
    rewrite Hspan by reflexivity; rewrite Ed; simpl;
    rewrite !length_app; simpl; repeat f_equal; lia.
Qed.

Lemma regex_match_marker (l : Literal) (rest : str) :
  no_lf (lit_text l) = true ->
  well_formed_count (lit_digits l) = true ->
  regex_match (lit_text l ++ marker l ++ rest) =
  Some {| m_index := length (lit_text l);
          m_length := length (marker l);
          m_digits := Some (lit_digits l) |}.
Proof.
  intros Ht Hd.
  assert (Hmk : exists tl, marker l ++ rest = LBRACE :: tl)
    by (unfold marker; simpl; eauto).
  destruct Hmk as [tl Htl].
  induction (lit_text l) as [|c r IH].
  - change ([] ++ marker l ++ rest) with (marker l ++ rest).
    rewrite Htl. cbn [regex_match]. rewrite <- Htl.
    now rewrite match_here_marker.
  - change ((c :: r) ++ marker l ++ rest) with (c :: (r ++ marker l ++ rest)).
    cbn [regex_match].
    change (c :: (r ++ marker l ++ rest)) with ((c :: r) ++ marker l ++ rest).
    rewrite Htl, match_here_text_brace by exact Ht. rewrite <- Htl.
    apply no_lf_cons in Ht as [_ Hr].
    rewrite (IH Hr). reflexivity.
Qed.

(** *** Line text followed by the closing terminator *)

Lemma match_eol_eol (cr : bool) (rest : str) :
  match_eol (eol cr ++ rest) = Some (length (eol cr)).
Proof. destruct cr; reflexivity. Qed.

Lemma match_eol_text_eol (c : ascii) (r : str) (cr : bool) (rest : str) :
  no_lf (c :: r) = true ->
  cr || negb (ends_with_cr (c :: r)) = true ->
  match_eol ((c :: r) ++ eol cr ++ rest) = None.
Proof.
  intros H Hcr. apply no_lf_cons in H as [Hc Hr]. simpl.
  char_case c LF; [congruence|].
  char_case c CR; [|reflexivity].
  destruct r as [|d r].
  - destruct cr; [reflexivity | discriminate].
  - apply no_lf_cons in Hr as [Hd _]. simpl.
    char_case d LF; [congruence | reflexivity].
Qed.

Lemma match_close_text_eol (s : str) (cr : bool) (rest : str) (n : nat) :
  no_lf s = true ->
  cr || negb (ends_with_cr s) = true ->
  match_close (s ++ eol cr ++ rest) = Some n ->
  s = [RBRACE].
Proof.
  destruct s as [|c r]; intros H Hcr.
  - destruct cr; discriminate.
  - simpl. char_case c RBRACE; [|discriminate].
    destruct r as [|d r]; [reflexivity|].
    rewrite ends_with_cr_cons in Hcr.
    apply no_lf_cons in H as [_ Hr].
    change (d :: r ++ eol cr ++ rest) with ((d :: r) ++ eol cr ++ rest).
    rewrite match_eol_text_eol by assumption. discriminate.
Qed.

Lemma match_plus_close_text_eol (s : str) (cr : bool) (rest : str) (n : nat) :
  no_lf s = true ->
  cr || negb (ends_with_cr s) = true ->
  match_plus_close (s ++ eol cr ++ rest) = Some n ->
  s = [RBRACE] \/ s = [PLUS; RBRACE].
Proof.
  destruct s as [|c r]; intros H Hcr.
  - destruct cr; discriminate.
  - change ((c :: r) ++ eol cr ++ rest) with (c :: (r ++ eol cr ++ rest)).
    unfold match_plus_close. char_case c PLUS.
    + destruct (match_close (r ++ eol cr ++ rest)) as [k|] eqn:E;
        [|discriminate].
      intros _. right. f_equal.
      apply no_lf_cons in H as [_ Hr].
      apply (match_close_text_eol r cr rest k); try assumption.
      destruct r as [|d r]; [destruct cr; discriminate|].
      now rewrite ends_with_cr_cons in Hcr.
    + intros E. left.
      now apply (match_close_text_eol (c :: r) cr rest n).
Qed.

Lemma eol_head_not_digit (cr : bool) (rest : str) :
  exists x tl, eol cr ++ rest = x :: tl /\ is_digit x = false.
Proof. destruct cr; simpl; eauto. Qed.

Lemma match_literal_text_eol (c : ascii) (r : str) (cr : bool) (rest : str) :
  no_lf (c :: r) = true ->
  is_marker (c :: r) = false ->
  cr || negb (ends_with_cr (c :: r)) = true ->
  match_literal ((c :: r) ++ eol cr ++ rest) = None.
Proof.
  intros H Hm Hcr. apply no_lf_cons in H as [Hc Hr].
  simpl in *. char_case c LBRACE; [|reflexivity]. simpl in Hm.
  destruct (eol_head_not_digit cr rest) as (x & tl & Hx & Hxd).
  rewrite Hx, span_digits_app by exact Hxd. rewrite <- Hx.
  pose proof (no_lf_span r Hr) as Hs.
  pose proof (span_digits_split r) as Hsplit.
  destruct (span_digits r) as [ds r']; simpl in *.
  destruct ds as [|d ds]; [reflexivity|].
  destruct (match_plus_close (r' ++ eol cr ++ rest)) as [k|] eqn:E;
    [|reflexivity].
  exfalso.
  assert (Hcr' : cr || negb (ends_with_cr r') = true).
  { destruct r' as [|y r'']; [destruct cr; discriminate|].
    rewrite <- Hsplit in Hcr.
    change (LBRACE :: (d :: ds) ++ y :: r'')
      with ((LBRACE :: d :: ds) ++ y :: r'') in Hcr.
    now rewrite ends_with_cr_app in Hcr by discriminate. }
  destruct (match_plus_close_text_eol r' cr rest k Hs Hcr' E) as [->| ->];
    discriminate.
Qed.

Lemma match_here_text_eol (c : ascii) (r : str) (cr : bool) (rest : str) :
  no_lf (c :: r) = true ->
  is_marker (c :: r) = false ->
  cr || negb (ends_with_cr (c :: r)) = true ->
  match_here ((c :: r) ++ eol cr ++ rest) = None.
Proof.
  intros H Hm Hcr. unfold match_here.
  now rewrite match_literal_text_eol, match_eol_text_eol.
Qed.

Lemma match_here_eol (cr : bool) (rest : str) :
  match_here (eol cr ++ rest) = Some (None, length (eol cr)).
Proof. destruct cr; reflexivity. Qed.

Lemma regex_match_eol (t : str) (cr : bool) (rest : str) :
  wf_tail t cr = true ->
  regex_match (t ++ eol cr ++ rest) =
  Some {| m_index := length t; m_length := length (eol cr); m_digits := None |}.
Proof.
  unfold wf_tail. intros H.
  apply andb_true_iff in H as [H Hcr]. apply andb_true_iff in H as [Hlf Hm].
  apply negb_true_iff in Hm.
  induction t as [|c r IH].
  - simpl app. destruct cr; reflexivity.
  - change ((c :: r) ++ eol cr ++ rest) with (c :: (r ++ eol cr ++ rest)).
    cbn [regex_match].
    change (c :: (r ++ eol cr ++ rest)) with ((c :: r) ++ eol cr ++ rest).
    cbn [ends_with_marker] in Hm. apply orb_false_iff in Hm as [Hm1 Hm2].
    rewrite match_here_text_eol by assumption.
    rewrite IH; [reflexivity | | exact Hm2 |].
    + now apply no_lf_cons in Hlf.
    + destruct r as [|d r]; [destruct cr; reflexivity|].
      now rewrite ends_with_cr_cons in Hcr.
Qed.

End WireFacts.

(** ** The matcher and the language of the pattern *)

Module PatternFacts.

Import Js JsFacts Framing RegexFacts WireFacts.

Lemma span_digits_digits (s : str) :
  forallb is_digit (fst (span_digits s)) = true.
Proof.
  induction s as [|c r IH]; simpl; [reflexivity|].
  destruct (is_digit c) eqn:E; [|reflexivity].
  destruct (span_digits r); simpl in *. now rewrite E.
Qed.

Lemma match_eol_sound (s : str) (n : nat) :
  match_eol s = Some n ->
  exists cr rest, s = eol cr ++ rest /\ n = length (eol cr).
Proof.
  destruct s as [|c r]; simpl; [discriminate|].
  char_case c LF.
  - intros [= <-]. now exists false, r.
  - char_case c CR; [|discriminate].
    destruct r as [|d r]; [discriminate|].
    char_case d LF; [|discriminate].
    intros [= <-]. now exists true, r.
Qed.

Lemma match_plus_close_sound (s : str) (n : nat) :
  match_plus_close s = Some n ->
  exists (plus cr : bool) (rest : str),
    s = (if plus then [PLUS] else []) ++ RBRACE :: eol cr ++ rest /\
    n = length ((if plus then [PLUS] else []) ++ RBRACE :: eol cr).
Proof.
  assert (Hclose : forall t k, match_close t = Some k ->
            exists cr rest, t = RBRACE :: eol cr ++ rest /\
                            k = S (length (eol cr))).
  { intros [|c r] k; simpl; [discriminate|].
    char_case c RBRACE; [|discriminate].
    destruct (match_eol r) as [j|] eqn:E; [|discriminate].
    intros [= <-]. apply match_eol_sound in E as (cr & rest & -> & ->).
    now exists cr, rest. }
  destruct s as [|c r]; [discriminate|].
  unfold match_plus_close. char_case c PLUS.
  - destruct (match_close r) as [k|] eqn:E; [|discriminate].
    intros [= <-]. apply Hclose in E as (cr & rest & -> & ->).
    now exists true, cr, rest.
  - intros E. apply Hclose in E as (cr & rest & E & ->).
    exists false, cr, rest. now rewrite E.
Qed.

(** What [match_here] accepts is a string of the language, at the head. *)
Lemma match_here_sound (s : str) (d : option str) (n : nat) :
  match_here s = Some (d, n) ->
  exists m rest, s = m ++ rest /\ length m = n /\ matches_pattern m d.
Proof.
  unfold match_here.
  destruct (match_literal s) as [[ds k]|] eqn:E.
  - intros [= <- <-]. destruct s as [|c r]; [discriminate|].
    simpl in E. char_case c LBRACE; [|discriminate].
    pose proof (span_digits_split r) as Hsplit.
    pose proof (span_digits_digits r) as Hdigits.
    destruct (span_digits r) as [ds' r']; simpl in Hsplit, Hdigits.
    destruct ds' as [|x ds']; [discriminate|].
    destruct (match_plus_close r') as [j|] eqn:Ej; [|discriminate].
    injection E as <- <-.
    apply match_plus_close_sound in Ej as (plus & cr & rest & -> & ->).
    exists (LBRACE :: (x :: ds') ++ (if plus then [PLUS] else []) ++
              RBRACE :: eol cr), rest.
    split; [|split].
    + rewrite <- Hsplit. simpl. f_equal. f_equal.
      now rewrite <- !app_assoc.
    + simpl. now rewrite !length_app.
    + apply matches_literal. unfold well_formed_count. now rewrite Hdigits.
  - destruct (match_eol s) as [k|] eqn:E'; [|discriminate].
    intros [= <- <-]. apply match_eol_sound in E' as (cr & rest & -> & ->).
    exists (eol cr), rest. repeat split. apply matches_eol.
Qed.

(** A string of the language at the head is accepted, whatever follows. *)
Lemma match_here_complete (m rest : str) (d : option str) :
  matches_pattern m d -> match_here (m ++ rest) = Some (d, length m).
Proof.
  intros [cr|ds plus cr Hds].
  - apply match_here_eol.
  - apply (match_here_marker
             {| lit_text := []; lit_digits := ds; lit_plus := plus;
                lit_cr := cr; lit_bytes := [] |} rest Hds).
Qed.

(** [regex_match] finds the leftmost position at which the pattern matches. *)
Lemma regex_match_leftmost (s : str) (m : RegexMatch) :
  regex_match s = Some m ->
  match_here (skipn (m_index m) s) = Some (m_digits m, m_length m) /\
  forall i, i < m_index m -> match_here (skipn i s) = None.
Proof.
  revert m. induction s as [|c r IH]; intros m; [discriminate|].
  cbn [regex_match].
  destruct (match_here (c :: r)) as [[d n]|] eqn:E.
  - intros [= <-]. simpl. split; [exact E | intros i Hi; lia].
  - destruct (regex_match r) as [m'|]; [|discriminate].
    intros [= <-]. destruct (IH m' eq_refl) as [Hat Hbefore].
    simpl. split; [exact Hat|].
    intros [|i] Hi; [exact E | apply Hbefore; lia].
Qed.

Lemma regex_match_none_anywhere (s : str) (i : nat) :
  regex_match s = None -> match_here (skipn i s) = None.
Proof.
  revert i. induction s as [|c r IH]; intros i.
  - now destruct i.
  - cbn [regex_match].
    destruct (match_here (c :: r)) as [[d n]|] eqn:E; [discriminate|].
    destruct (regex_match r) as [m'|] eqn:Er; [discriminate|].
    intros _. destruct i as [|i]; [exact E | now apply IH].
Qed.

End PatternFacts.

(** ** A whole stream of units *)

Module StreamFacts.

Import Js JsFacts Framing RegexFacts ReaderFacts WireFacts.

Lemma firstn_length_app {A} (a b : list A) : firstn (length a) (a ++ b) = a.
Proof.
  rewrite firstn_app, Nat.sub_diag, firstn_all. simpl. apply app_nil_r.
Qed.

Lemma skipn_length_app {A} (a b : list A) : skipn (length a) (a ++ b) = b.
Proof. rewrite skipn_app, Nat.sub_diag, skipn_all. reflexivity. Qed.

Lemma regex_match_none (s : str) : no_lf s = true -> regex_match s = None.
Proof.
  intros H. destruct (regex_match s) as [m|] eqn:E; [|reflexivity].
  apply regex_match_range in E as (_ & _ & Hin). exfalso.
  unfold no_lf in H. rewrite forallb_forall in H.
  specialize (H LF Hin). discriminate.
Qed.

Lemma in_lf_eol (t : str) (cr : bool) (rest : str) :
  In LF (t ++ eol cr ++ rest).
Proof.
  apply in_or_app. right. apply in_or_app. left.
  destruct cr; simpl; auto.
Qed.

(** The marker turn, then (for a non-empty literal) the literal turn. *)
Lemma literal_turns (l : Literal) (rest cmd : str) :
  wf_literal l = true ->
  In LF rest ->
  iterateIncomingBuffer (reader_at (literal_wire l ++ rest) cmd) =
  iterateIncomingBuffer (reader_at rest (cmd ++ literal_wire l)).
Proof.
  unfold wf_literal. intros H Hin.
  apply andb_true_iff in H as [H Hlen]. apply andb_true_iff in H as [Ht Hd].
  apply Nat.eqb_eq in Hlen.
  rewrite iterateIncomingBuffer_eq. unfold iterate_step, reader_at.
  cbn [incomingBuffer command literalRemaining].
  unfold literal_wire. rewrite <- !app_assoc.
  rewrite regex_match_marker by assumption.
  cbn [Nat.ltb Nat.leb andb m_digits m_index m_length].
  rewrite <- length_app.
  rewrite (app_assoc (lit_text l) (marker l)).
  rewrite firstn_length_app, skipn_length_app.
  destruct (lit_bytes l) as [|b bs] eqn:Eb.
  - simpl in Hlen. rewrite <- Hlen. simpl app.
    now rewrite app_nil_r.
  - rewrite iterateIncomingBuffer_eq. unfold iterate_step.
    cbn [incomingBuffer command literalRemaining].
    destruct (regex_match_exists ((b :: bs) ++ rest)) as [m ->].
    { apply in_or_app. now right. }
    rewrite <- Hlen.
    replace (0 <? length (b :: bs)) with true
      by (symmetry; apply Nat.ltb_lt; simpl; lia).
    replace (length ((b :: bs) ++ rest) <? length (b :: bs)) with false
      by (symmetry; apply Nat.ltb_ge; rewrite length_app; lia).
    cbn [andb].
    rewrite firstn_length_app, skipn_length_app.
    now rewrite <- !app_assoc.
Qed.

Lemma literals_turns (ls : list Literal) (rest cmd : str) :
  forallb wf_literal ls = true ->
  In LF rest ->
  iterateIncomingBuffer
    (reader_at (concat (map literal_wire ls) ++ rest) cmd) =
  iterateIncomingBuffer
    (reader_at rest (cmd ++ concat (map literal_wire ls))).
Proof.
  revert cmd. induction ls as [|l ls IH]; intros cmd H Hin.
  - simpl. now rewrite app_nil_r.
  - simpl in H. apply andb_true_iff in H as [Hl Hls].
    cbn [map concat]. rewrite <- app_assoc.
    rewrite literal_turns; [|exact Hl|].
    + rewrite IH by assumption. now rewrite <- app_assoc.
    + apply in_or_app. now right.
Qed.

(** The closing terminator: the unit is yielded, the terminator dropped. *)
Lemma tail_turn (t : str) (cr : bool) (rest cmd : str) :
  wf_tail t cr = true ->
  iterateIncomingBuffer (reader_at (t ++ eol cr ++ rest) cmd) =
  ((cmd ++ t) :: fst (iterateIncomingBuffer (reader_at rest [])),
   snd (iterateIncomingBuffer (reader_at rest []))).
Proof.
  intros H. rewrite iterateIncomingBuffer_eq. unfold iterate_step, reader_at.
  cbn [incomingBuffer command literalRemaining].
  rewrite regex_match_eol by exact H.
  cbn [Nat.ltb Nat.leb andb m_digits m_index m_length].
  rewrite firstn_length_app.
  rewrite <- length_app, app_assoc, skipn_length_app.
  reflexivity.
Qed.

Lemma unit_turns (u : ResponseUnit) (rest : str) :
  wf_unit u = true ->
  iterateIncomingBuffer (reader_at (unit_wire u ++ rest) []) =
  (unit_body u :: fst (iterateIncomingBuffer (reader_at rest [])),
   snd (iterateIncomingBuffer (reader_at rest []))).
Proof.
  unfold wf_unit. intros H. apply andb_true_iff in H as [Hls Ht].
  unfold unit_wire, unit_body. rewrite <- !app_assoc.
  rewrite literals_turns; [|exact Hls | apply in_lf_eol].
  now rewrite tail_turn.
Qed.

Lemma stream_turns (us : list ResponseUnit) :
  forallb wf_unit us = true ->
  iterateIncomingBuffer (reader_at (stream_wire us) []) =
  (map unit_body us, initial).
Proof.
  induction us as [|u us IH]; intros H; [reflexivity|].
  simpl in H. apply andb_true_iff in H as [Hu Hus].
  unfold stream_wire. cbn [map concat].
  rewrite unit_turns by exact Hu.
  fold (stream_wire us). now rewrite (IH Hus).
Qed.

(** Feeding chunks one by one, from the initial state, is the reader's loop
    run once on their concatenation. *)
Lemma feed_whole (chunks : list str) :
  feed initial chunks = iterateIncomingBuffer (reader_at (concat chunks) []).
Proof.
  rewrite feed_concat. now destruct chunks.
Qed.

(** Input that holds a marker but no closing terminator yet: the marker
    turn is taken, nothing is yielded. *)
Lemma feed_pending (l : Literal) (t : str) (chunks : list str) :
  wf_literal l = true ->
  lit_bytes l = [] ->
  no_lf t = true ->
  concat chunks = literal_wire l ++ t ->
  fst (feed initial chunks) = [].
Proof.
  intros Hl Hb Ht Hcat. rewrite feed_whole, Hcat.
  unfold wf_literal in Hl.
  apply andb_true_iff in Hl as [Hl Hlen].
  apply andb_true_iff in Hl as [Hlt Hd].
  apply Nat.eqb_eq in Hlen. rewrite Hb in Hlen. simpl in Hlen.
  rewrite iterateIncomingBuffer_eq. unfold iterate_step, reader_at.
  cbn [incomingBuffer command literalRemaining].
  unfold literal_wire. rewrite Hb, <- !app_assoc.
  rewrite regex_match_marker by assumption.
  cbn [Nat.ltb Nat.leb andb m_digits m_index m_length app].
  rewrite <- length_app, app_assoc, skipn_length_app.
  rewrite iterateIncomingBuffer_eq. unfold iterate_step.
  cbn [incomingBuffer command literalRemaining].
  now rewrite regex_match_none.
Qed.

End StreamFacts.

(** ** The framing reader: claims *)

Module ReaderClaims.

Import Js Framing StreamFacts.

(** C3.  For every stream that is a sequence of complete, well-formed
    response units and for every way of cutting it into chunks (inside a
    literal, inside a terminator, inside a [{N}] marker, anywhere), feeding
    the chunks one by one makes the reader emit exactly the units, each one
    its line without the closing terminator and with the bytes of every
    announced literal in place, whatever these bytes are; the reader is
    back in its initial state afterwards. *)
Theorem chunking_does_not_matter
        (units : list ResponseUnit) (chunks : list str) :
  forallb wf_unit units = true ->
  concat chunks = stream_wire units ->
  feed initial chunks = (map unit_body units, initial).
Proof.
  intros Hwf Hcat.
  (* cutting the stream into chunks changes nothing ... *)
  rewrite feed_whole, Hcat.
  (* ... and on the whole stream the loop yields unit after unit *)
  now apply stream_turns.
Qed.

Lemma chunking_does_not_matter_witness :
  forallb wf_unit [Scenario.fetch_unit] = true /\
  concat Scenario.fetch_chunks = stream_wire [Scenario.fetch_unit] /\
  feed initial Scenario.fetch_chunks =
  (map unit_body [Scenario.fetch_unit], initial).
Proof.
  refine (conj eq_refl (conj eq_refl _)).
  apply (chunking_does_not_matter [Scenario.fetch_unit] Scenario.fetch_chunks);
    reflexivity.
Defined.

(** C8.  A marker announcing zero bytes ([{0}] or [{0+}] and a line
    terminator) is accepted: it adds no literal bytes, nothing is emitted
    while the closing plain terminator is missing, and once that terminator
    has arrived the unit is emitted with the marker and the marker's own
    terminator kept inside it. *)
Theorem zero_byte_literal
        (text tail : str) (plus cr cr' : bool) (pending complete : list str) :
  no_lf text = true ->
  wf_tail tail cr' = true ->
  concat pending = literal_wire (empty_literal text plus cr) ++ tail ->
  concat complete =
    literal_wire (empty_literal text plus cr) ++ tail ++ eol cr' ->
  fst (feed initial pending) = [] /\
  feed initial complete =
    ([text ++ marker (empty_literal text plus cr) ++ tail], initial).
Proof.
  intros Htext Htail Hpending Hcomplete.
  assert (Hl : wf_literal (empty_literal text plus cr) = true).
  { unfold wf_literal; simpl. now rewrite Htext. }
  split.
  - apply (feed_pending (empty_literal text plus cr) tail); try assumption.
    + reflexivity.
    + unfold wf_tail in Htail. apply andb_true_iff in Htail as [H _].
      now apply andb_true_iff in H as [H _].
  - pose (u := {| unit_literals := [empty_literal text plus cr];
                  unit_tail := tail; unit_cr := cr' |}).
    assert (Hu : wf_unit u = true).
    { unfold u, wf_unit. cbn [forallb unit_literals unit_tail unit_cr].
      now rewrite Hl, Htail. }
    assert (Hwire : concat complete = unit_wire u ++ []).
    { rewrite Hcomplete. unfold u, unit_wire, unit_body; simpl.
      rewrite !app_nil_r, <- !app_assoc. simpl.
      now rewrite <- ?app_assoc. }
    rewrite feed_whole, Hwire, (unit_turns u [] Hu).
    unfold u, unit_body, literal_wire; simpl.
    rewrite !app_nil_r, <- !app_assoc. simpl.
    now rewrite <- ?app_assoc.
Qed.

Lemma zero_byte_literal_witness :
  fst (feed initial ["* LIST {0"; "}" ++ [CR]; [LF] ++ " done"]) = [] /\
  feed initial Scenario.empty_literal_chunks =
    (["* LIST {0}" ++ EOL ++ " done"], initial).
Proof.
  apply (zero_byte_literal "* LIST " " done" false true true); reflexivity.
Defined.

End ReaderClaims.

(** ** Tags *)

Module TagFacts.

Import Js JsFacts Client.

Lemma string_of_uint_digits (d : Decimal.uint) :
  forallb is_digit
    (String.list_ascii_of_string (DecimalString.NilEmpty.string_of_uint d))
  = true.
Proof. induction d; simpl; auto. Qed.

Lemma number_to_string_digits (n : nat) :
  forallb is_digit (number_to_string n) = true.
Proof. apply string_of_uint_digits. Qed.

Lemma number_to_string_inj (n m : nat) :
  number_to_string n = number_to_string m -> n = m.
Proof.
  unfold number_to_string. intros H.
  apply (f_equal String.string_of_list_ascii) in H.
  rewrite !String.string_of_list_ascii_of_string in H.
  apply (f_equal DecimalString.NilEmpty.uint_of_string) in H.
  rewrite !DecimalString.NilEmpty.usu in H.
  injection H as H.
  apply (f_equal Nat.of_uint) in H.
  now rewrite !DecimalNat.Unsigned.of_to in H.
Qed.

Lemma span_digits_number (n : nat) (priority : bool) :
  span_digits (number_to_string n ++ priority_suffix priority) =
  (number_to_string n, priority_suffix priority).
Proof.
  destruct priority; simpl.
  - rewrite span_digits_app by reflexivity.
    now rewrite span_digits_all by apply number_to_string_digits.
  - rewrite app_nil_r. apply span_digits_all, number_to_string_digits.
Qed.

(** The number can be read back from a tag, with or without [.p]. *)
Lemma tag_of_inj (n m : nat) (p q : bool) :
  tag_of n p = tag_of m q -> n = m.
Proof.
  unfold tag_of. intros H. injection H as H.
  apply (f_equal span_digits) in H.
  rewrite !span_digits_number in H.
  injection H as H _. now apply number_to_string_inj.
Qed.

End TagFacts.

(** ** The queue and the router *)

Module QueueFacts.

Import Js Client TagFacts.

Section Codec.

Variable parser : str -> option Response.
Variable compiler : Request -> option (list str).

(** *** The tag counter moves with [enqueueCommand] only *)

Lemma tagCounter_onError (st : State) :
  tagCounter (onError st) = tagCounter st.
Proof. unfold onError, close. simpl. now destruct (socketOpen st). Qed.

Lemma tagCounter_sendRequest (st : State) :
  tagCounter (sendRequest compiler st) = tagCounter st.
Proof.
  unfold sendRequest. destruct (clientQueue st) as [|c q]; [reflexivity|].
  destruct (c_precheck c); [reflexivity|].
  destruct (compiler (c_request c)) as [chunks|].
  - now destruct (shift chunks).
  - now rewrite tagCounter_onError.
Qed.

Lemma tagCounter_handleResponse (st : State) (r : Response) :
  tagCounter (handleResponse compiler st r) = tagCounter st.
Proof.
  unfold handleResponse, deliver_global.
  destruct (currentCommand st) as [cur|].
  - destruct (match c_payload cur with
              | Some p => _
              | None => false
              end); [reflexivity|].
    destruct (_ && has_key _ (globalAcceptUntagged st));
      [now rewrite tagCounter_sendRequest|].
    destruct (str_eqb (r_tag r) (c_tag cur)); [|reflexivity].
    now rewrite tagCounter_sendRequest.
  - destruct (_ && has_key _ (globalAcceptUntagged st)); [|reflexivity].
    now rewrite tagCounter_sendRequest.
Qed.

Lemma tagCounter_continuation (st st' : State) :
  continuation st = Ok st' -> tagCounter st' = tagCounter st.
Proof.
  unfold continuation. destruct (currentCommand st) as [cur|]; [|discriminate].
  destruct (c_data cur) as [[|chunk remaining]|]; [| |discriminate].
  - destruct (truthy_str _); intros [= <-]; reflexivity.
  - intros [= <-]; reflexivity.
Qed.

Lemma tagCounter_routeUnit (u : str) (st : State) :
  tagCounter (flow_state (routeUnit parser compiler u st)) = tagCounter st.
Proof.
  unfold routeUnit. destruct (starts_with_plus u).
  - destruct (continuation (clearIdle st)) as [st'|] eqn:E; [|reflexivity].
    simpl. now rewrite (tagCounter_continuation _ _ E).
  - destruct (parser u) as [r|]; [|simpl; now rewrite tagCounter_onError].
    destruct (processResponse r) as [r'|]; [|reflexivity].
    unfold handleProcessed.
    destruct (command_unreadable r'); [reflexivity|].
    destruct (tag_unmatched r'); simpl; destruct (connectionReady _); simpl;
      now rewrite ?tagCounter_handleResponse.
Qed.

Lemma tagCounter_parseIncomingCommands (fuel : nat) (st : State) :
  tagCounter (flow_state (parseIncomingCommands parser compiler fuel st))
  = tagCounter st.
Proof.
  revert st. induction fuel as [|fuel IH]; intros st; [reflexivity|].
  simpl. destruct (Framing.iterate_step (reader st)) as [|r|u r].
  - reflexivity.
  - now rewrite IH.
  - pose proof (tagCounter_routeUnit u (with_reader r st)) as H.
    destruct (routeUnit parser compiler u (with_reader r st)) as [st'|st'|st'];
      simpl in *; [|exact H|exact H].
    now rewrite IH.
Qed.

Lemma tagCounter_apply_op (st : State) (op : Op) :
  tagCounter (apply_op parser compiler st op) =
  match op with
  | OpEnqueue _ _ _ => S (tagCounter st)
  | _ => tagCounter st
  end.
Proof.
  destruct op as [request acc options|chunk|name h| |context err]; simpl.
  - unfold enqueueCommand.
    assert (H : tagCounter (enqueue st request acc options) = S (tagCounter st)).
    { unfold enqueue.
      destruct (match c_ctx _ with Some _ => _ | None => None end);
        reflexivity. }
    destruct (canSend _); [now rewrite tagCounter_sendRequest | exact H].
  - unfold onData. now rewrite tagCounter_parseIncomingCommands.
  - reflexivity.
  - unfold precheckResolved. destruct (restartQueue st);
      [apply tagCounter_sendRequest | reflexivity].
  - unfold precheckRejected.
    destruct (indexOf context (clientQueue st)); [|reflexivity].
    now destruct (nth_error _ _).
Qed.

(** *** The tag of a new record *)

Lemma new_command_tag (st : State) (request : Request)
      (acceptUntagged : list str) (options : Options) :
  c_tag (new_command st request acceptUntagged options) =
  tag_of (S (tagCounter st))
         (match o_ctx options with
          | Some ctx =>
              match indexOf ctx (clientQueue st) with
              | Some _ => true
              | None => false
              end
          | None => false
          end).
Proof.
  unfold new_command, tag_of. simpl.
  destruct (o_ctx options) as [ctx|]; simpl.
  - destruct (indexOf ctx (clientQueue st)); simpl;
      now rewrite <- ?app_assoc, ?app_nil_r.
  - now rewrite app_nil_r.
Qed.

(** The [i]-th command enqueued by a history carries the number
    [tagCounter + i + 1]. *)
Lemma run_tags (ops : list Op) (st : State) (i : nat) (tag : str) :
  nth_error (snd (run parser compiler st ops)) i = Some tag ->
  exists priority, tag = tag_of (tagCounter st + S i) priority.
Proof.
  revert st i. induction ops as [|op ops IH]; intros st i.
  - destruct i; discriminate.
  - cbn [run].
    pose proof (tagCounter_apply_op st op) as Hc.
    destruct (run parser compiler (apply_op parser compiler st op) ops)
      as [st' tags] eqn:E.
    assert (Htl : forall j, nth_error tags j = Some tag ->
               exists priority,
                 tag = tag_of (tagCounter (apply_op parser compiler st op) + S j)
                              priority).
    { intros j Hj. apply IH. now rewrite E. }
    destruct op as [request acc options|chunk|name h| |context err];
      cbn [snd]; try (rewrite Hc in Htl; exact (Htl i)).
    destruct i as [|j]; simpl.
    + intros [= <-]. rewrite new_command_tag, Nat.add_1_r. eauto.
    + intros Hj. destruct (Htl j Hj) as [p ->]. rewrite Hc.
      exists p. f_equal. lia.
Qed.

End Codec.

End QueueFacts.

(** ** The reader inside the client loop *)

Module LoopFacts.

Import Js Client.

Section Codec.

Variable parser : str -> option Response.
Variable compiler : Request -> option (list str).

(** Nothing the router does reads or writes the reader's state. *)
Lemma sendRequest_with_reader (r : Framing.Reader) (st : State) :
  sendRequest compiler (with_reader r st) =
  with_reader r (sendRequest compiler st).
Proof.
  unfold sendRequest. simpl.
  destruct (clientQueue st) as [|c q]; [reflexivity|].
  destruct (c_precheck c); [reflexivity|].
  destruct (compiler (c_request c)) as [chunks|].
  - now destruct (shift chunks).
  - unfold onError, close. simpl. now destruct (socketOpen st).
Qed.

Lemma handleResponse_with_reader (r : Framing.Reader) (st : State)
      (response : Response) :
  handleResponse compiler (with_reader r st) response =
  with_reader r (handleResponse compiler st response).
Proof.
  assert (Hsend : forall a b, a = with_reader r b ->
            sendRequest compiler a = with_reader r (sendRequest compiler b)).
  { intros a b ->. apply sendRequest_with_reader. }
  unfold handleResponse, deliver_global. simpl.
  destruct (currentCommand st) as [cur|].
  - destruct (match c_payload cur with
              | Some p => _
              | None => false
              end); [reflexivity|].
    destruct (_ && has_key _ (globalAcceptUntagged st));
      [now apply Hsend|].
    destruct (str_eqb (r_tag response) (c_tag cur)); [|reflexivity].
    now apply Hsend.
  - destruct (_ && has_key _ (globalAcceptUntagged st)); [|reflexivity].
    now apply Hsend.
Qed.

Lemma routeUnit_with_reader (r : Framing.Reader) (u : str) (st : State) :
  routeUnit parser compiler u (with_reader r st) =
  flow_map (with_reader r) (routeUnit parser compiler u st).
Proof.
  unfold routeUnit. destruct (starts_with_plus u).
  - unfold continuation. simpl.
    destruct (currentCommand st) as [cur|]; [|reflexivity].
    destruct (c_data cur) as [[|chunk remaining]|]; [|reflexivity|reflexivity].
    now destruct (truthy_str _).
  - destruct (parser u) as [response|].
    + destruct (processResponse response) as [response'|]; [|reflexivity].
      change (clearIdle (with_reader r st)) with (with_reader r (clearIdle st)).
      unfold handleProcessed.
      destruct (command_unreadable response'); [reflexivity|].
      destruct (tag_unmatched response').
      * simpl. now destruct (connectionReady st).
      * rewrite handleResponse_with_reader. simpl.
        now destruct (connectionReady _).
    + unfold onError, close. simpl. now destruct (socketOpen st).
Qed.

Lemma routeUnits_with_reader (r : Framing.Reader) (us : list str) (st : State) :
  routeUnits parser compiler us (with_reader r st) =
  flow_map (with_reader r) (routeUnits parser compiler us st).
Proof.
  revert st. induction us as [|u us IH]; intros st; [reflexivity|].
  cbn [routeUnits]. rewrite routeUnit_with_reader.
  destruct (routeUnit parser compiler u st) as [st'|st'|st']; try reflexivity.
  simpl. apply IH.
Qed.

Lemma with_reader_reader (st : State) : with_reader (reader st) st = st.
Proof. now destruct st. Qed.

(** The loop of [_parseIncomingCommands] hands to the router exactly the
    units that the reader yields for the bytes received, and leaves the
    reader where the reader's own loop leaves it.  The fuel given by
    [onData] is enough: the loop stops because the reader waits. *)
Lemma parseIncomingCommands_routes (fuel : nat) (st st' : State) :
  length (Framing.incomingBuffer (reader st)) < fuel ->
  routeUnits parser compiler
    (fst (Framing.iterateIncomingBuffer (reader st))) st = Normal st' ->
  parseIncomingCommands parser compiler fuel st =
  Normal (with_reader (snd (Framing.iterateIncomingBuffer (reader st))) st').
Proof.
  revert st st'. induction fuel as [|fuel IH]; intros st st' Hfuel; [lia|].
  rewrite ReaderFacts.iterateIncomingBuffer_eq. cbn [parseIncomingCommands].
  pose proof (ReaderFacts.iterate_step_shrinks (reader st)) as Hs.
  destruct (Framing.iterate_step (reader st)) as [|r|u r].
  - cbn [fst snd routeUnits]. intros [= <-]. now rewrite with_reader_reader.
  - intros Hroute.
    rewrite (IH (with_reader r st) (with_reader r st')).
    + now destruct st'.
    + simpl. lia.
    + simpl reader. rewrite routeUnits_with_reader, Hroute. reflexivity.
  - cbn [fst snd routeUnits]. rewrite routeUnit_with_reader.
    destruct (routeUnit parser compiler u st) as [st1|st1|st1];
      try discriminate.
    intros Hroute. cbn [flow_map].
    change (with_reader (Framing.resume (reader (with_reader r st1)))
              (with_reader r st1))
      with (with_reader (Framing.resume r) st1).
    rewrite (IH (with_reader (Framing.resume r) st1)
                (with_reader (Framing.resume r) st')).
    + now destruct st'.
    + simpl. lia.
    + simpl reader. rewrite routeUnits_with_reader, Hroute. reflexivity.
Qed.

End Codec.

End LoopFacts.

(** ** What is sent *)

Module SendFacts.

Import Js Client Spec.

Lemma sent_emit (e : Event) (st : State) :
  sent (emit e st) =
  sent st ++ match e with EvSend s => [s] | _ => [] end.
Proof. unfold sent; simpl. rewrite flat_map_app; simpl. now rewrite app_nil_r. Qed.

Lemma sent_send (s : str) (st : State) : sent (send s st) = sent st ++ [s].
Proof. unfold send. now rewrite sent_emit. Qed.

Section Codec.

Variable parser : str -> option Response.
Variable compiler : Request -> option (list str).

(** A prompt while chunks remain: the next chunk goes out, with CRLF
    when it is the last one. *)
Lemma routeUnit_prompt (u : str) (st : State) (cur : Command)
      (chunk : str) (remaining : list str) :
  starts_with_plus u = true ->
  currentCommand st = Some cur ->
  c_data cur = Some (chunk :: remaining) ->
  routeUnit parser compiler u st =
  Normal (send (chunk ++ (if is_empty remaining then EOL else []))
            (with_current (Some (set_data cur (Some remaining)))
               (clearIdle st))).
Proof.
  intros Hu Hcur Hdata. unfold routeUnit, continuation. rewrite Hu.
  cbn [clearIdle with_idleTimer currentCommand]. now rewrite Hcur, Hdata.
Qed.

Lemma prompts_send_chunks (prompts : list str) (st : State) (cur : Command)
      (data : list str) :
  Forall (fun u => starts_with_plus u = true) prompts ->
  currentCommand st = Some cur ->
  c_data cur = Some data ->
  length prompts <= length data ->
  exists st',
    routeUnits parser compiler prompts st = Normal st' /\
    sent st' = sent st ++ wire_chunks data (length prompts).
Proof.
  revert st cur data.
  induction prompts as [|u us IH]; intros st cur data Hall Hcur Hdata Hlen.
  - exists st. simpl. now rewrite ?app_nil_r.
  - inversion Hall as [|? ? Hu Hus]; subst.
    destruct data as [|chunk remaining]; [simpl in Hlen; lia|].
    cbn [routeUnits].
    rewrite (routeUnit_prompt u st cur chunk remaining Hu Hcur Hdata).
    edestruct (IH (send (chunk ++ (if is_empty remaining then EOL else []))
                     (with_current (Some (set_data cur (Some remaining)))
                        (clearIdle st)))
                  (set_data cur (Some remaining)) remaining)
      as (st' & Hflow & Hsent);
      [exact Hus | reflexivity | reflexivity | simpl in Hlen; lia |].
    exists st'. split; [exact Hflow|].
    rewrite Hsent, sent_send. cbn [length wire_chunks].
    now rewrite <- app_assoc.
Qed.

End Codec.

End SendFacts.

(** ** The client: claims *)

Module ClientClaims.

Import Js Client Spec TagFacts QueueFacts SendFacts.

Section Codec.

Variable parser : str -> option Response.
Variable compiler : Request -> option (list str).

(** C7.  The chunks of a command's compiled data go out one at a time:
    the first at dispatch, each further one in answer to a [+] prompt,
    and a chunk is followed by CRLF exactly when no chunk remains after
    it.  After the dispatch and [n] prompts the strings sent are the
    first [n + 1] chunks, CRLF appended to the last chunk of the command
    only. *)
Theorem chunks_end_with_crlf_iff_last
        (st : State) (c : Command) (q : list Command)
        (first : str) (rest : list str) (prompts : list str) :
  clientQueue st = c :: q ->
  c_precheck c = None ->
  compiler (c_request c) = Some (first :: rest) ->
  Forall (fun u => starts_with_plus u = true) prompts ->
  length prompts <= length rest ->
  exists st',
    routeUnits parser compiler prompts (sendRequest compiler st) = Normal st' /\
    sent st' = sent st ++ wire_chunks (first :: rest) (S (length prompts)).
Proof.
  intros Hq Hpre Hcomp Hall Hlen.
  unfold sendRequest. rewrite Hq, Hpre, Hcomp. cbn [shift concat_undef].
  edestruct (prompts_send_chunks parser compiler prompts
               (send (first ++ (if is_empty rest then EOL else []))
                  (with_current (Some (set_data c (Some rest)))
                     (with_queue q
                        (with_canSend false
                           (with_restartQueue false (clearIdle st))))))
               (set_data c (Some rest)) rest)
    as (st' & Hflow & Hsent);
    [exact Hall | reflexivity | reflexivity | exact Hlen |].
  exists st'. split; [exact Hflow|].
  rewrite Hsent, sent_send. cbn [wire_chunks].
  now rewrite <- app_assoc.
Qed.

(** C10.  A continuation prompt needs a current command: when a unit that
    begins with [+] is routed while no command is current, reading
    [this._currentCommand.data.length] throws; the prompt is not
    ignored. *)
Theorem prompt_without_command_throws (st : State) (u : str) :
  currentCommand st = None ->
  starts_with_plus u = true ->
  routeUnit parser compiler u st = Threw (clearIdle st).
Proof.
  intros Hcur Hu. unfold routeUnit, continuation. rewrite Hu.
  cbn [clearIdle with_idleTimer currentCommand]. now rewrite Hcur.
Qed.

End Codec.

Lemma chunks_end_with_crlf_iff_last_witness :
  exists st',
    routeUnits Scenario.session_parser (Scenario.fixed_chunks Scenario.two_chunks)
               ["+ go"]
               (sendRequest (Scenario.fixed_chunks Scenario.two_chunks)
                            Scenario.literal_queued) = Normal st' /\
    sent st' = ["W1 LOGIN {4}"; "user" ++ EOL].
Proof.
  apply (chunks_end_with_crlf_iff_last
           Scenario.session_parser (Scenario.fixed_chunks Scenario.two_chunks)
           Scenario.literal_queued Scenario.login_command [] "W1 LOGIN {4}"
           ["user"] ["+ go"]).
  - reflexivity.
  - reflexivity.
  - reflexivity.
  - repeat constructor.
  - simpl. lia.
Defined.

(** The same through [_onData]: the bytes [+ go CR LF] arrive before any
    command was dispatched. *)
Lemma prompt_before_any_command :
  exists st,
    onData Scenario.session_parser Scenario.one_line ("+ go" ++ EOL) initial =
    Threw st.
Proof. eexists. vm_compute. reflexivity. Qed.

Lemma prompt_without_command_throws_witness :
  routeUnit Scenario.session_parser Scenario.one_line "+ go" initial =
  Threw (clearIdle initial).
Proof.
  apply (prompt_without_command_throws
           Scenario.session_parser Scenario.one_line initial "+ go");
    reflexivity.
Defined.

End ClientClaims.

(** ** The queue: claims *)

Module QueueClaims.

Import Js Client Spec TagFacts QueueFacts.

Lemma indexOf_nth (ref : nat) (q : list Command) (index : nat) :
  indexOf ref q = Some index ->
  index < length q /\
  exists anchor, nth_error q index = Some anchor /\ c_id anchor = ref.
Proof.
  revert index. induction q as [|c q IH]; intros index; [discriminate|].
  simpl. destruct (Nat.eqb (c_id c) ref) eqn:E.
  - intros [= <-]. apply Nat.eqb_eq in E. split; [lia|]. now exists c.
  - destruct (indexOf ref q) as [i|]; [|discriminate].
    intros [= <-]. destruct (IH i eq_refl) as (Hlt & a & Hn & Hid).
    split; [lia|]. now exists a.
Qed.

Lemma nth_error_splice_insert {A} (index : nat) (x : A) (l : list A) :
  index <= length l ->
  nth_error (splice_insert index x l) index = Some x /\
  nth_error (splice_insert index x l) (S index) = nth_error l index.
Proof.
  intros H. unfold splice_insert.
  assert (Hlen : length (firstn index l) = index)
    by (rewrite length_firstn; lia).
  split.
  - rewrite nth_error_app2 by lia. rewrite Hlen, Nat.sub_diag. reflexivity.
  - rewrite nth_error_app2 by lia. rewrite Hlen.
    replace (S index - index) with 1 by lia. simpl.
    rewrite <- (firstn_skipn index l) at 2.
    rewrite nth_error_app2 by lia. now rewrite Hlen, Nat.sub_diag.
Qed.

Section Codec.

Variable parser : str -> option Response.
Variable compiler : Request -> option (list str).

Lemma new_command_ctx (st : State) (request : Request)
      (acceptUntagged : list str) (options : Options) :
  c_ctx (new_command st request acceptUntagged options) = o_ctx options.
Proof.
  unfold new_command. cbn [c_ctx].
  destruct (o_ctx options) as [ctx|]; [|reflexivity].
  now destruct (indexOf ctx (clientQueue st)).
Qed.

(** C4, as the code has it.  When [options.ctx] refers to a command that
    is still in the queue, the new record is inserted immediately before
    that command; the new record's tag and the tag of its request are
    both [W<n>.p]; the anchor follows the new record unchanged, its tag
    included. *)
Theorem priority_insertion
        (st : State) (request : Request) (acceptUntagged : list str)
        (options : Options) (ctx index : nat) :
  o_ctx options = Some ctx ->
  indexOf ctx (clientQueue st) = Some index ->
  let data := new_command st request acceptUntagged options in
  let st' := enqueue st request acceptUntagged options in
  clientQueue st' =
    firstn index (clientQueue st) ++ data :: skipn index (clientQueue st) /\
  c_tag data = tag_of (S (tagCounter st)) true /\
  req_tag (c_request data) = Some (tag_of (S (tagCounter st)) true) /\
  (exists anchor,
      nth_error (clientQueue st) index = Some anchor /\
      c_id anchor = ctx /\
      nth_error (clientQueue st') index = Some data /\
      nth_error (clientQueue st') (S index) = Some anchor) /\
  (canSend st = false ->
   enqueueCommand compiler st request acceptUntagged options = st').
Proof.
  intros Hctx Hidx data st'.
  assert (Hdata_ctx : c_ctx data = Some ctx).
  { unfold data. now rewrite new_command_ctx. }
  assert (Hq : clientQueue st' = splice_insert index data (clientQueue st)).
  { unfold st', enqueue. fold data. rewrite Hdata_ctx, Hidx. reflexivity. }
  destruct (indexOf_nth _ _ _ Hidx) as (Hlt & anchor & Hnth & Hid).
  destruct (nth_error_splice_insert index data (clientQueue st)) as [H0 H1];
    [lia|].
  repeat split.
  - exact Hq.
  - unfold data. rewrite new_command_tag, Hctx, Hidx. reflexivity.
  - unfold data, new_command. cbn [c_ctx]. rewrite Hctx, Hidx.
    unfold tag_of. simpl. now rewrite <- ?app_assoc.
  - exists anchor. rewrite Hq, H0, H1. now repeat split.
  - intros Hcan. unfold enqueueCommand. fold st'.
    replace (canSend st') with (canSend st); [now rewrite Hcan|].
    unfold st', enqueue.
    now destruct (match c_ctx _ with Some _ => _ | None => None end).
Qed.

Lemma run_tags_shape (ops : list Op) (st : State) :
  exists priorities,
    snd (run parser compiler st ops) =
    map (fun e => tag_of (fst e) (snd e))
        (combine (seq (S (tagCounter st)) (length priorities)) priorities).
Proof.
  revert st. induction ops as [|op ops IH]; intros st.
  - now exists [].
  - cbn [run]. destruct (IH (apply_op parser compiler st op)) as [ps Hps].
    pose proof (tagCounter_apply_op parser compiler st op) as Hc.
    destruct (run parser compiler (apply_op parser compiler st op) ops)
      as [st' tags]. cbn [snd] in *.
    destruct op as [request acc options|chunk|name h| |context err];
      cbn [snd]; try (exists ps; rewrite Hps, Hc; reflexivity).
    rewrite new_command_tag.
    eexists (_ :: ps). cbn [length seq combine map fst snd].
    now rewrite Hps, Hc.
Qed.

(** C9.  Over a whole history of the connection (commands enqueued with
    or without priority, data received, handlers registered, prechecks
    settled), the commands enqueued receive the tags [W1], [W2], [W3], ...
    in this order, each possibly followed by [.p]; no two of these tags
    are equal. *)
Theorem tags_are_unique (ops : list Op) :
  NoDup (snd (run parser compiler initial ops)) /\
  exists priorities,
    snd (run parser compiler initial ops) =
    map (fun e => tag_of (fst e) (snd e))
        (combine (seq 1 (length priorities)) priorities).
Proof.
  split; [|apply (run_tags_shape ops initial)].
  apply NoDup_nth_error. intros i j Hi Heq.
  destruct (nth_error (snd (run parser compiler initial ops)) i) as [tag|] eqn:Ei;
    [|apply nth_error_None in Ei; lia].
  symmetry in Heq.
  destruct (run_tags parser compiler ops initial i tag Ei) as [p Hp].
  destruct (run_tags parser compiler ops initial j tag Heq) as [q Hq].
  rewrite Hp in Hq. apply tag_of_inj in Hq. simpl in Hq. lia.
Qed.

End Codec.

Lemma priority_insertion_witness :
  o_ctx (Scenario.with_ctx 0) = Some 0 /\
  indexOf 0 (clientQueue Scenario.anchor_queued) = Some 0 /\
  clientQueue (enqueue Scenario.anchor_queued (request_of_string "NOOP") []
                       (Scenario.with_ctx 0)) =
    [new_command Scenario.anchor_queued (request_of_string "NOOP") []
                 (Scenario.with_ctx 0);
     Scenario.anchor] /\
  c_tag (new_command Scenario.anchor_queued (request_of_string "NOOP") []
                     (Scenario.with_ctx 0)) = "W2.p".
Proof.
  pose proof (priority_insertion Scenario.one_line Scenario.anchor_queued
                (request_of_string "NOOP") [] (Scenario.with_ctx 0) 0 0
                eq_refl eq_refl) as H.
  cbv zeta in H. destruct H as (Hq & Htag & _).
  refine (conj eq_refl (conj eq_refl (conj _ _))).
  - exact Hq.
  - exact Htag.
Defined.

(** C4, as the specification states it, fails: the anchor [W1] keeps its
    tag when [W2.p] is inserted before it. *)
Lemma anchor_keeps_its_tag :
  nth_error (clientQueue Scenario.anchor_queued) 0 = Some Scenario.anchor /\
  Scenario.priority_queued =
    enqueueCommand Scenario.one_line Scenario.anchor_queued
                   (request_of_string "NOOP") []
                   (Scenario.with_ctx (c_id Scenario.anchor)) /\
  ~ anchor_suffixed Scenario.anchor 0 Scenario.priority_queued.
Proof.
  split; [reflexivity|]. split; [reflexivity|].
  intros (anchor' & Hnth & _ & Htag).
  vm_compute in Hnth. injection Hnth as <-. discriminate.
Qed.

End QueueClaims.

(** ** Letter case, blanks, and the names of response codes *)

Module CaseFacts.

Import Js Client Spec.













Lemma get_key_set_key_other {A} (k k' : str) (v : A) :
  str_eqb k k' = false -> get_key k' (set_key k v []) = None.
Proof. intros H. unfold get_key. simpl. now rewrite H. Qed.



End CaseFacts.

(** ** The router: claims *)

Module RouterClaims.

Import Js Client Spec.

Section Codec.

Variable parser : str -> option Response.
Variable compiler : Request -> option (list str).

(** *** Steps of the router *)

Lemma sendRequest_dispatch (st : State) (c : Command) (q : list Command)
      (chunks : list str) :
  clientQueue st = c :: q ->
  c_precheck c = None ->
  compiler (c_request c) = Some chunks ->
  canSend (sendRequest compiler st) = false /\
  currentCommand (sendRequest compiler st) =
    Some (set_data c (Some (snd (shift chunks)))) /\
  clientQueue (sendRequest compiler st) = q /\
  globalAcceptUntagged (sendRequest compiler st) = globalAcceptUntagged st.
Proof.
  intros Hq Hpre Hcomp. unfold sendRequest. rewrite Hq, Hpre, Hcomp.
  now destruct (shift chunks).
Qed.

Lemma sendRequest_idle (st : State) :
  clientQueue st = [] ->
  sendRequest compiler st = enterIdle st.
Proof. intros Hq. unfold sendRequest. now rewrite Hq. Qed.

Lemma has_key_push_key (k k' : str) (x : Response) (p : Payload) :
  has_key k' (push_key k x p) = has_key k' p.
Proof.
  unfold has_key.
  induction p as [|[k0 b] p IH]; simpl; [reflexivity|].
  destruct (str_eqb k0 k); simpl; [reflexivity|now rewrite IH].
Qed.

(** Collecting a response leaves the buckets' names as they are. *)
Lemma claimed_push (cur : Command) (k : str) (x r : Response) :
  claimed (set_cpayload cur (option_map (push_key k x) (c_payload cur))) r =
  claimed cur r.
Proof.
  unfold claimed. simpl.
  destruct (c_payload cur); simpl; [now rewrite has_key_push_key|reflexivity].
Qed.

Lemma routed_quietly_ext (handlers : list (str * nat)) (cur cur' : Command)
      (r : Response) :
  c_tag cur' = c_tag cur ->
  (forall r', claimed cur' r' = claimed cur r') ->
  routed_quietly handlers cur' r = routed_quietly handlers cur r.
Proof. intros Htag Hclaim. unfold routed_quietly. now rewrite Htag, Hclaim. Qed.

Lemma handleResponse_quiet (st : State) (cur : Command) (r : Response) :
  currentCommand st = Some cur ->
  routed_quietly (globalAcceptUntagged st) cur r = true ->
  let st' := handleResponse compiler st r in
  (exists cur', currentCommand st' = Some cur' /\
                c_id cur' = c_id cur /\ c_tag cur' = c_tag cur /\
                (forall r', claimed cur' r' = claimed cur r')) /\
  canSend st' = canSend st /\
  clientQueue st' = clientQueue st /\
  globalAcceptUntagged st' = globalAcceptUntagged st.
Proof.
  intros Hcur Hquiet. unfold routed_quietly in Hquiet.
  unfold handleResponse. rewrite Hcur.
  change (match c_payload cur with
          | Some p =>
              str_eqb (r_tag r) "*" && has_key (normalize (r_command r)) p
          | None => false
          end) with (claimed cur r).
  destruct (claimed cur r) eqn:Eclaim.
  - simpl. repeat split. eexists. split; [reflexivity|].
    repeat split. intros r'. apply claimed_push.
  - simpl in Hquiet. apply andb_true_iff in Hquiet as [Hglobal Htag].
    apply negb_true_iff in Htag, Hglobal.
    rewrite Hglobal, Htag. simpl. repeat split. now exists cur.
Qed.

Lemma handleResponse_quiet_all (rs : list Response) (st : State)
      (cur : Command) :
  currentCommand st = Some cur ->
  forallb (routed_quietly (globalAcceptUntagged st) cur) rs = true ->
  let st' := fold_left (handleResponse compiler) rs st in
  (exists cur', currentCommand st' = Some cur' /\
                c_id cur' = c_id cur /\ c_tag cur' = c_tag cur) /\
  canSend st' = canSend st /\
  clientQueue st' = clientQueue st.
Proof.
  revert st cur. induction rs as [|r rs IH]; intros st cur Hcur Hall.
  - simpl. repeat split. now exists cur.
  - simpl in Hall. apply andb_true_iff in Hall as [Hr Hrs].
    destruct (handleResponse_quiet st cur r Hcur Hr)
      as ((cur1 & Hcur1 & Hid1 & Htag1 & Hclaim1) & Hcan1 & Hq1 & Hh1).
    cbn [fold_left].
    destruct (IH (handleResponse compiler st r) cur1 Hcur1)
      as ((cur2 & Hcur2 & Hid2 & Htag2) & Hcan2 & Hq2).
    { rewrite Hh1. apply forallb_forall. intros r' Hin.
      rewrite (routed_quietly_ext _ cur cur1 r' Htag1 Hclaim1).
      rewrite forallb_forall in Hrs. now apply Hrs. }
    repeat split; try congruence.
    exists cur2. repeat split; congruence.
Qed.

Lemma handleResponse_tagged (st : State) (cur : Command) (r : Response) :
  currentCommand st = Some cur ->
  str_eqb (r_tag r) (c_tag cur) = true ->
  str_eqb (r_tag r) "*" = false ->
  handleResponse compiler st r =
  sendRequest compiler
    (with_canSend true
       (emit (EvSettled (c_id cur)
                (callback (ArgResponse (attach_payload cur r)))) st)).
Proof.
  intros Hcur Htag Hstar. unfold handleResponse.
  rewrite Hcur, Hstar, Htag. cbn [andb]. now destruct (c_payload cur).
Qed.

(** C1, as the code has it.  From the dispatch of a command onwards
    [canSend] is false and the command stays current while the responses
    routed are neither its tagged completion nor untagged responses handed
    to a global handler (the untagged responses that the command claims
    are among them, also when a global handler has the same name).  When
    its tagged completion is routed, [canSend] is set and [_sendRequest]
    runs.  With an empty queue [canSend] stays true and [currentCommand]
    is left as it is: it still refers to the completed command.  When the
    next command has a precheck, the precheck is called and nothing is
    dispatched: [canSend] stays true and the completed command stays
    current as well.  When the next command has no precheck, it becomes
    the current command with [canSend] false; its first chunk is sent if
    its request compiles, and [_onError] is entered if it does not. *)
Theorem canSend_from_dispatch_to_completion
        (st : State) (c : Command) (q : list Command) (chunks : list str)
        (rs : list Response) (completion : Response) :
  clientQueue st = c :: q ->
  c_precheck c = None ->
  compiler (c_request c) = Some chunks ->
  forallb (routed_quietly (globalAcceptUntagged st) c) rs = true ->
  let st1 := fold_left (handleResponse compiler) rs (sendRequest compiler st) in
  canSend (sendRequest compiler st) = false /\
  canSend st1 = false /\
  (exists cur, currentCommand st1 = Some cur /\
               c_id cur = c_id c /\ c_tag cur = c_tag c) /\
  (str_eqb (r_tag completion) (c_tag c) = true ->
   str_eqb (r_tag completion) "*" = false ->
   let st2 := handleResponse compiler st1 completion in
   match q with
   | [] => canSend st2 = true /\ currentCommand st2 = currentCommand st1
   | next :: q' =>
       match c_precheck next with
       | Some precheck =>
           canSend st2 = true /\
           currentCommand st2 = currentCommand st1 /\
           clientQueue st2 = delete_precheck next :: q' /\
           sent st2 = sent st1 /\
           In (EvPrecheck precheck (c_id next)) (events st2)
       | None =>
           match compiler (c_request next) with
           | Some chunks' =>
               canSend st2 = false /\
               currentCommand st2 =
                 Some (set_data next (Some (snd (shift chunks')))) /\
               sent st2 = sent st1 ++ [More.first_wire chunks']
           | None =>
               canSend st2 = false /\
               sent st2 = sent st1 /\
               In EvFatal (events st2)
           end
       end
   end).
Proof.
  intros Hq Hpre Hcomp Hall st1.
  destruct (sendRequest_dispatch st c q chunks Hq Hpre Hcomp)
    as (Hcan0 & Hcur0 & Hq0 & Hh0).
  destruct (handleResponse_quiet_all rs (sendRequest compiler st)
              (set_data c (Some (snd (shift chunks)))) Hcur0)
    as ((cur & Hcur & Hid & Htag) & Hcan & Hq1).
  { rewrite Hh0. exact Hall. }
  fold st1 in Hcur, Hcan, Hq1.
  split; [exact Hcan0|]. split; [congruence|].
  split; [exists cur; now repeat split|].
  intros Hdone Hstar st2. unfold st2.
  rewrite (handleResponse_tagged st1 cur completion Hcur);
    [|now rewrite Htag|exact Hstar].
  set (s := with_canSend true
              (emit (EvSettled (c_id cur)
                       (callback (ArgResponse (attach_payload cur completion))))
                    st1)).
  assert (Hs : sent s = sent st1).
  { unfold s. change (sent (with_canSend true ?x)) with (sent x).
    rewrite SendFacts.sent_emit. apply app_nil_r. }
  assert (Hqs : clientQueue s = q) by (simpl; now rewrite Hq1, Hq0).
  destruct q as [|next q'].
  - rewrite sendRequest_idle; [now split | exact Hqs].
  - unfold sendRequest. rewrite Hqs. cbv zeta.
    destruct (c_precheck next) as [precheck|].
    + repeat split.
      * rewrite SendFacts.sent_emit. rewrite app_nil_r. exact Hs.
      * simpl. apply in_or_app. right. now left.
    + destruct (compiler (c_request next)) as [chunks'|].
      * unfold More.first_wire. destruct (shift chunks') as [data remaining].
        repeat split. rewrite SendFacts.sent_send. f_equal. exact Hs.
      * clearbody s. unfold onError, close. cbv zeta.
        destruct (socketOpen _); (split; [reflexivity|]); split.
        -- rewrite SendFacts.sent_emit, app_nil_r.
           change (sent (emit EvFatal
                           (with_current (Some next)
                              (with_queue q'
                                 (with_canSend false
                                    (with_restartQueue false (clearIdle s))))))
                   = sent st1).
           rewrite SendFacts.sent_emit, app_nil_r. exact Hs.
        -- simpl. apply in_or_app. left. apply in_or_app. right. now left.
        -- unfold tearDown.
           change (sent (emit EvFatal
                           (with_current (Some next)
                              (with_queue q'
                                 (with_canSend false
                                    (with_restartQueue false (clearIdle s))))))
                   = sent st1).
           rewrite SendFacts.sent_emit, app_nil_r. exact Hs.
        -- simpl. apply in_or_app. right. now left.
Qed.

(** C2, as the code has it.  When a response carrying the current
    command's tag is routed, the command's payload object is attached to
    the response if and only if it has at least one bucket, filled or
    not; the command's callback is called with the response; [canSend]
    is set; the next queued command is tried.  [currentCommand] is not
    cleared: with an empty queue the completed command is still current
    afterwards. *)
Theorem tagged_completion (st : State) (cur : Command) (r : Response) :
  currentCommand st = Some cur ->
  str_eqb (r_tag r) (c_tag cur) = true ->
  str_eqb (r_tag r) "*" = false ->
  let delivered := attach_payload cur r in
  let st1 :=
    with_canSend true
      (emit (EvSettled (c_id cur) (callback (ArgResponse delivered))) st) in
  r_payload delivered =
    (if has_bucket (c_payload cur) then c_payload cur else r_payload r) /\
  handleResponse compiler st r = sendRequest compiler st1 /\
  canSend st1 = true /\
  currentCommand st1 = Some cur /\
  events st1 =
    events st ++ [EvSettled (c_id cur) (callback (ArgResponse delivered))] /\
  (clientQueue st = [] ->
   currentCommand (handleResponse compiler st r) = Some cur /\
   canSend (handleResponse compiler st r) = true).
Proof.
  intros Hcur Htag Hstar delivered st1.
  pose proof (handleResponse_tagged st cur r Hcur Htag Hstar) as Hstep.
  fold delivered in Hstep. fold st1 in Hstep.
  split; [|split; [exact Hstep|]].
  - unfold delivered, attach_payload.
    now destruct (c_payload cur) as [[|b bs]|].
  - split; [reflexivity|]. split; [exact Hcur|]. split; [reflexivity|].
    intros Hq. rewrite Hstep, sendRequest_idle by exact Hq.
    split; [exact Hcur | reflexivity].
Qed.

End Codec.

Lemma canSend_from_dispatch_to_completion_witness :
  let st1 :=
    fold_left (handleResponse Scenario.one_line)
              [MoreScenario.fetched 1; MoreScenario.fetched 2]
              (sendRequest Scenario.one_line MoreScenario.fetch_queued) in
  let st2 :=
    handleResponse Scenario.one_line st1 (MoreScenario.tagged_ok "W1") in
  canSend st1 = false /\
  canSend st2 = true /\
  currentCommand st2 = currentCommand st1 /\
  sent st2 = sent st1.
Proof.
  assert (Hq : clientQueue MoreScenario.fetch_queued =
               MoreScenario.fetch_waiting :: [MoreScenario.noop_guarded])
    by (vm_compute; reflexivity).
  assert (Hall : forallb
                   (routed_quietly (globalAcceptUntagged MoreScenario.fetch_queued)
                                   MoreScenario.fetch_waiting)
                   [MoreScenario.fetched 1; MoreScenario.fetched 2] = true)
    by (vm_compute; reflexivity).
  pose proof (canSend_from_dispatch_to_completion Scenario.one_line
                MoreScenario.fetch_queued MoreScenario.fetch_waiting
                [MoreScenario.noop_guarded] ["W1 FETCH 1:2 FLAGS"]
                [MoreScenario.fetched 1; MoreScenario.fetched 2]
                (MoreScenario.tagged_ok "W1")
                Hq eq_refl eq_refl Hall) as H.
  cbv zeta in H. destruct H as (_ & Hflight & _ & Hdone).
  assert (Htag : str_eqb (r_tag (MoreScenario.tagged_ok "W1"))
                         (c_tag MoreScenario.fetch_waiting) = true)
    by reflexivity.
  assert (Hstar : str_eqb (r_tag (MoreScenario.tagged_ok "W1")) "*" = false)
    by reflexivity.
  specialize (Hdone Htag Hstar).
  cbn [c_precheck MoreScenario.noop_guarded] in Hdone.
  destruct Hdone as (Hcan & Hcur & _ & Hsent & _).
  cbv zeta.
  split; [exact Hflight | split; [exact Hcan | split; [exact Hcur | exact Hsent]]].
Defined.

(** C1, as the specification states it, fails.  After the history
    "handler for OK registered, greeting received, CAPABILITY enqueued and
    dispatched as W1, [W1 OK done] received" the completed command is
    still the current command and [canSend] is true. *)
Lemma canSend_invariant_fails :
  currentCommand Scenario.capability_done = Some Scenario.capability_command /\
  canSend Scenario.capability_done = true /\
  ~ canSend_invariant Scenario.capability_done.
Proof.
  split; [vm_compute; reflexivity|]. split; [vm_compute; reflexivity|].
  unfold canSend_invariant. intros H.
  assert (Hcur : currentCommand Scenario.capability_done <> None)
    by (vm_compute; discriminate).
  specialize (H Hcur). vm_compute in H. discriminate.
Qed.

Lemma tagged_completion_witness :
  currentCommand Scenario.capability_sent = Some Scenario.capability_command /\
  r_payload (attach_payload Scenario.capability_command
                            Scenario.w1_ok_processed) =
    Some [("CAPABILITY", [])] /\
  currentCommand Scenario.capability_completed =
    Some Scenario.capability_command.
Proof.
  pose proof (tagged_completion Scenario.one_line Scenario.capability_sent
                Scenario.capability_command Scenario.w1_ok_processed
                eq_refl eq_refl eq_refl) as H.
  cbv zeta in H. destruct H as (Hpayload & _ & _ & _ & _ & Hidle).
  refine (conj eq_refl (conj Hpayload _)).
  exact (proj1 (Hidle eq_refl)).
Defined.

(** C2, as the specification states it, fails.  CAPABILITY was enqueued
    with [acceptUntagged = ["CAPABILITY"]] and completed by [W1 OK done]
    without any untagged CAPABILITY: the callback receives the response
    with the payload attached although its only bucket is empty, and the
    command is still current afterwards. *)
Lemma completion_not_as_specified :
  currentCommand Scenario.capability_sent = Some Scenario.capability_command /\
  events Scenario.capability_completed =
    events Scenario.capability_sent ++
    [EvSettled 0 (Resolved Scenario.w1_ok_delivered)] /\
  r_payload Scenario.w1_ok_delivered <> None /\
  some_bucket_filled (c_payload Scenario.capability_command) = false /\
  currentCommand Scenario.capability_completed <> None /\
  ~ completion_as_specified Scenario.capability_command
      Scenario.w1_ok_delivered Scenario.capability_completed.
Proof.
  repeat split; try reflexivity; try (vm_compute; discriminate).
  intros [_ Hcleared]. vm_compute in Hcleared. discriminate.
Qed.

(** The delivery to a global handler while a command is in flight, which
    the corrected C1 leaves aside: [canSend] is set and the next command is
    sent at once.  Here [W2] overtakes [W1], whose completion then finds
    another command current and is dropped: no callback ever runs. *)
Lemma unclaimed_untagged_overtakes :
  sent Scenario.overtaken = ["W1 CAPABILITY" ++ EOL; "W2 NOOP" ++ EOL] /\
  option_map c_tag (currentCommand Scenario.overtaken) = Some "W2" /\
  forallb (fun e => match e with EvSettled _ _ => false | _ => true end)
          (events Scenario.overtaken) = true.
Proof. repeat split; vm_compute; reflexivity. Qed.

(** A prompt that finds no chunk left is answered with CRLF whatever the
    command's options are: [typeof] yields a non-empty string. *)
Lemma prompt_without_data (parser : str -> option Response)
      (compiler : Request -> option (list str))
      (st : State) (cur : Command) (u : str) :
  currentCommand st = Some cur ->
  c_data cur = Some [] ->
  starts_with_plus u = true ->
  routeUnit parser compiler u st = Normal (send EOL (clearIdle st)).
Proof.
  intros Hcur Hdata Hu. unfold routeUnit, continuation. rewrite Hu.
  cbn [clearIdle with_idleTimer currentCommand]. rewrite Hcur, Hdata.
  now destruct (c_errorResponseExpectsEmptyLine cur).
Qed.

(** C5: the code at the failing input.  The command in flight ([W1
    CAPABILITY], enqueued without options) has no chunk left and does not
    set [errorResponseExpectsEmptyLine]; the prompt [+ go] is nevertheless
    answered with a bare CRLF instead of being ignored. *)
Lemma prompt_answered_without_option :
  (exists cur,
      currentCommand Scenario.capability_sent = Some cur /\
      c_data cur = Some [] /\
      c_errorResponseExpectsEmptyLine cur = None) /\
  routeUnit Scenario.session_parser Scenario.one_line "+ go"
            Scenario.capability_sent = Normal Scenario.capability_prompted /\
  sent Scenario.capability_prompted = ["W1 CAPABILITY" ++ EOL; EOL] /\
  ~ prompt_ignored Scenario.capability_sent Scenario.capability_prompted.
Proof.
  split; [|split; [|split]].
  - exists Scenario.capability_command.
    repeat split; vm_compute; reflexivity.
  - vm_compute. reflexivity.
  - vm_compute. reflexivity.
  - unfold prompt_ignored. vm_compute. discriminate.
Qed.




End RouterClaims.

(** * Further properties *)

(** ** The constructor *)

Module ConstructionFacts.

Import Construction.

(** X1.  Port and TLS as the constructor settles them.  When no port is
    given, the port is 993 with TLS and 143 without, never anything else.
    When [options.tcpSocket] is missing, TLS is on whatever the port is.
    When [options.tcpSocket] is given without the key [useSecureTransport]
    and a port is given, TLS is on exactly for port 993. *)
Theorem port_and_tls_defaults :
  (forall host_ options,
      let c := ImapClient host_ None options in
      (port c = 993 /\ tcpUseSecureTransport c = true) \/
      (port c = 143 /\ tcpUseSecureTransport c = false)) /\
  (forall host_ port_ top,
      tcpUseSecureTransport (ImapClient host_ port_ None) = true /\
      tcpUseSecureTransport
        (ImapClient host_ port_
           (Some {| tcpSocket := None; topUseSecureTransport := top |})) = true) /\
  (forall host_ p top,
      let c := ImapClient host_ (Some (S p))
                 (Some {| tcpSocket := Some {| useSecureTransport := None |};
                          topUseSecureTransport := top |}) in
      port c = S p /\ tcpUseSecureTransport c = Nat.eqb (S p) 993).
Proof.
  split; [|split].
  - intros host_ options.
    destruct options as [[tcp top]|]; [|simpl; auto].
    destruct tcp as [[key]|]; [|simpl; auto].
    destruct key as [[|]|]; simpl; auto.
  - intros host_ [[|p]|] top; simpl; auto.
  - intros host_ p top. simpl. auto.
Qed.

End ConstructionFacts.

(** ** The framing reader on arbitrary input *)

Module ReaderMore.

Import Js JsFacts Framing RegexFacts ReaderFacts WireFacts PatternFacts
       StreamFacts More.

Lemma no_lf_of_no_match (s : str) : regex_match s = None -> no_lf s = true.
Proof.
  intros Hnone. destruct (no_lf s) eqn:E; [reflexivity|]. exfalso.
  assert (Hin : In LF s).
  { clear Hnone. induction s as [|c r IH]; [discriminate|].
    unfold no_lf in E. simpl in E.
    destruct (Ascii.eqb_spec c LF) as [->|Hc]; [now left|].
    right. apply IH. exact E. }
  destruct (regex_match_exists s Hin) as [m Hm]. congruence.
Qed.

(** The generator, run to its end by a consumer that takes every unit,
    stops for one of two reasons: the buffer holds no LF any more, or a
    literal is pending and fewer bytes than it announces are buffered. *)
Lemma generator_stops_for_a_reason (r : Reader) (chunk : str) :
  let r' := snd (onData r chunk) in
  no_lf (incomingBuffer r') = true \/
  (0 < literalRemaining r' /\
   length (incomingBuffer r') < literalRemaining r').
Proof.
  intros r'. pose proof (iterateIncomingBuffer_quiescent (push r chunk)) as Hq.
  fold (onData r chunk) in Hq. fold r' in Hq.
  unfold iterate_step in Hq.
  destruct (regex_match (incomingBuffer r')) as [m|] eqn:Hm.
  - right.
    destruct (0 <? literalRemaining r') eqn:Hlit;
      destruct (length (incomingBuffer r') <? literalRemaining r') eqn:Hshort;
      simpl in Hq; try discriminate.
    + apply Nat.ltb_lt in Hlit, Hshort. now split.
    + destruct (m_digits m); discriminate.
    + destruct (m_digits m); discriminate.
  - left. now apply no_lf_of_no_match.
Qed.

(** A plain terminator found by the pattern is CR LF or LF, and the buffer
    is what precedes it, the terminator, and what follows. *)
Lemma plain_match_splits (buf : str) (m : RegexMatch) :
  regex_match buf = Some m ->
  m_digits m = None ->
  exists cr,
    buf = firstn (m_index m) buf ++ eol cr ++
          skipn (m_index m + m_length m) buf.
Proof.
  intros Hm Hplain.
  destruct (regex_match_leftmost buf m Hm) as [Hat _].
  rewrite Hplain in Hat.
  apply match_here_sound in Hat as (mm & rest & Hsplit & Hlen & Hpat).
  inversion Hpat as [cr Heq|]; subst mm.
  exists cr.
  rewrite Nat.add_comm, <- skipn_skipn, Hsplit, <- Hlen, skipn_length_app.
  rewrite <- Hsplit. symmetry. apply firstn_skipn.
Qed.

Lemma iterate_step_conserves (r : Reader) :
  match iterate_step r with
  | Wait => True
  | Loop r' =>
      command r ++ incomingBuffer r = command r' ++ incomingBuffer r'
  | Yield u r' =>
      exists cr,
        command r ++ incomingBuffer r = u ++ eol cr ++ incomingBuffer r'
  end.
Proof.
  unfold iterate_step.
  destruct (regex_match (incomingBuffer r)) as [m|] eqn:Hm; [|exact I].
  destruct ((0 <? literalRemaining r) &&
            (length (incomingBuffer r) <? literalRemaining r)); [exact I|].
  destruct (0 <? literalRemaining r).
  - simpl. now rewrite <- app_assoc, firstn_skipn.
  - destruct (m_digits m) eqn:Hd; simpl.
    + now rewrite <- app_assoc, firstn_skipn.
    + destruct (plain_match_splits _ _ Hm Hd) as [cr Hsplit].
      exists cr. rewrite <- app_assoc. f_equal. exact Hsplit.
Qed.

Lemma iterateIncomingBuffer_conserves (r : Reader) :
  exists crs,
    length crs = length (fst (iterateIncomingBuffer r)) /\
    command r ++ incomingBuffer r =
    rejoin (fst (iterateIncomingBuffer r)) crs ++
    command (snd (iterateIncomingBuffer r)) ++
    incomingBuffer (snd (iterateIncomingBuffer r)).
Proof.
  remember (length (incomingBuffer r)) as n eqn:Hn.
  revert r Hn. induction n as [n IH] using lt_wf_ind. intros r ->.
  rewrite iterateIncomingBuffer_eq.
  pose proof (iterate_step_shrinks r) as Hs.
  pose proof (iterate_step_conserves r) as Hc.
  destruct (iterate_step r) as [|r'|u r'].
  - exists []. now split.
  - destruct (IH _ Hs r' eq_refl) as (crs & Hlen & Heq).
    exists crs. split; [exact Hlen|]. now rewrite Hc.
  - destruct Hc as [cr Hc].
    destruct (IH _ Hs (resume r') eq_refl) as (crs & Hlen & Heq).
    exists (cr :: crs). cbn [fst snd length rejoin].
    split; [now rewrite Hlen|].
    rewrite Hc. simpl in Heq. rewrite Heq. now rewrite <- !app_assoc.
Qed.

(** The generator, run to its end by a consumer that takes every unit,
    neither invents nor loses a byte. *)
Lemma generator_conserves_bytes (r : Reader) (chunk : str) :
  exists crs,
    length crs = length (fst (onData r chunk)) /\
    command r ++ incomingBuffer r ++ chunk =
    rejoin (fst (onData r chunk)) crs ++
    command (snd (onData r chunk)) ++
    incomingBuffer (snd (onData r chunk)).
Proof.
  destruct (iterateIncomingBuffer_conserves (push r chunk)) as (crs & Hlen & Heq).
  exists crs. split; [exact Hlen|]. exact Heq.
Qed.

(** *** Decimal counts *)

Lemma Number_of_uint (d : Decimal.uint) (acc : nat) :
  fold_left (fun a c => 10 * a + digit_value c)
    (String.list_ascii_of_string (DecimalString.NilEmpty.string_of_uint d)) acc
  = Nat.of_uint_acc d acc.
Proof.
  revert acc. induction d; intros acc; simpl fold_left;
    try reflexivity; rewrite IHd; simpl Nat.of_uint_acc;
    rewrite Nat.tail_mul_spec; f_equal;
    unfold digit_value; simpl; lia.
Qed.

(** [Number(String(n))] is [n]. *)
Lemma Number_number_to_string (n : nat) : Number (number_to_string n) = n.
Proof.
  unfold Number, number_to_string. rewrite Number_of_uint.
  apply DecimalNat.Unsigned.of_to.
Qed.

Lemma number_to_string_well_formed (n : nat) :
  well_formed_count (number_to_string n) = true.
Proof.
  unfold well_formed_count.
  rewrite TagFacts.number_to_string_digits, andb_true_r.
  destruct (number_to_string n) as [|c s] eqn:E; [|reflexivity].
  exfalso.
  pose proof (Number_number_to_string n) as Hn. rewrite E in Hn.
  change (Number []) with 0 in Hn. subst n. discriminate.
Qed.

(** X4.  A literal announced as [{n}] or [{n+}], [n] printed in decimal,
    takes exactly the next [n] bytes, whatever they are: a line with such
    a literal, cut into chunks in any way, is emitted as one unit that
    holds the marker, its terminator and the [n] bytes. *)
Theorem counted_literal_takes_n_bytes
        (n : nat) (text bytes tail : str) (plus cr cr' : bool)
        (chunks : list str) :
  no_lf text = true ->
  length bytes = n ->
  wf_tail tail cr' = true ->
  concat chunks =
    literal_wire (counted_literal text n plus cr bytes) ++ tail ++ eol cr' ->
  feed initial chunks =
    ([text ++ marker (counted_literal text n plus cr bytes) ++ bytes ++ tail],
     initial).
Proof.
  intros Htext Hlen Htail Hcat.
  pose (u := {| unit_literals := [counted_literal text n plus cr bytes];
                unit_tail := tail; unit_cr := cr' |}).
  assert (Hu : wf_unit u = true).
  { unfold u, wf_unit, wf_literal.
    cbn [forallb unit_literals unit_tail unit_cr counted_literal
         lit_text lit_digits lit_bytes].
    rewrite Htext, number_to_string_well_formed, Number_number_to_string, Htail.
    rewrite Hlen, Nat.eqb_refl. reflexivity. }
  assert (Hwire : concat chunks = unit_wire u ++ []).
  { rewrite Hcat. unfold u, unit_wire, unit_body. cbn [map concat unit_literals
      unit_tail unit_cr]. now rewrite !app_nil_r, <- !app_assoc. }
  rewrite feed_whole, Hwire, (unit_turns u [] Hu).
  unfold u, unit_body, literal_wire.
  cbn [map concat unit_literals unit_tail lit_text lit_bytes counted_literal
       fst snd].
  change (iterateIncomingBuffer (reader_at [] [])) with ((@nil str), initial).
  cbn [fst snd]. now rewrite !app_nil_r, <- !app_assoc.
Qed.

Lemma counted_literal_takes_n_bytes_witness :
  feed initial ["* 1 FETCH (BODY[] {1"; "1}" ++ [CR]; [LF] ++ "hello ";
                "world)" ++ EOL] =
  (["* 1 FETCH (BODY[] {11}" ++ EOL ++ "hello world)"], initial).
Proof.
  apply (counted_literal_takes_n_bytes 11 "* 1 FETCH (BODY[] " "hello world"
           ")" false true true); reflexivity.
Defined.

End ReaderMore.

(** ** The reader inside [_onData] *)

Module ReaderInClient.

Import Js Client More.

Section Codec.

Variable parser : str -> option Response.
Variable compiler : Request -> option (list str).

(** When the loop of [_parseIncomingCommands] runs to its end, every unit
    that the generator yields has been routed without an early exit, and
    the reader is where the generator's own loop leaves it. *)
Lemma parseIncomingCommands_normal (fuel : nat) (st st' : State) :
  length (Framing.incomingBuffer (reader st)) < fuel ->
  parseIncomingCommands parser compiler fuel st = Normal st' ->
  exists st0,
    routeUnits parser compiler
      (fst (Framing.iterateIncomingBuffer (reader st))) st = Normal st0 /\
    st' = with_reader (snd (Framing.iterateIncomingBuffer (reader st))) st0.
Proof.
  revert st st'. induction fuel as [|fuel IH]; intros st st' Hfuel Hp; [lia|].
  rewrite ReaderFacts.iterateIncomingBuffer_eq.
  cbn [parseIncomingCommands] in Hp.
  pose proof (ReaderFacts.iterate_step_shrinks (reader st)) as Hs.
  destruct (Framing.iterate_step (reader st)) as [|r|u r].
  - injection Hp as <-. exists st. cbn [fst snd routeUnits].
    split; [reflexivity|]. now rewrite LoopFacts.with_reader_reader.
  - destruct (IH (with_reader r st) st') as (st0 & Hr & Hst');
      [simpl; lia | exact Hp |].
    simpl reader in Hr, Hst'.
    rewrite (LoopFacts.routeUnits_with_reader parser compiler) in Hr.
    destruct (routeUnits parser compiler
                (fst (Framing.iterateIncomingBuffer r)) st)
      as [s|s|s]; try discriminate.
    injection Hr as <-. exists s. split; [reflexivity|]. exact Hst'.
  - rewrite (LoopFacts.routeUnit_with_reader parser compiler) in Hp.
    cbn [fst snd routeUnits].
    destruct (routeUnit parser compiler u st) as [s1|s1|s1];
      cbn [flow_map] in Hp; try discriminate.
    change (parseIncomingCommands parser compiler fuel
              (with_reader (Framing.resume r) s1) = Normal st') in Hp.
    destruct (IH (with_reader (Framing.resume r) s1) st') as (st0 & Hr & Hst');
      [simpl; lia | exact Hp |].
    simpl reader in Hr, Hst'.
    rewrite (LoopFacts.routeUnits_with_reader parser compiler) in Hr.
    destruct (routeUnits parser compiler
                (fst (Framing.iterateIncomingBuffer (Framing.resume r))) s1)
      as [s|s|s]; try discriminate.
    injection Hr as <-. exists s. split; [reflexivity|]. exact Hst'.
Qed.

(** [_onData] that returns normally has routed the units of the generator
    run to its end. *)
Lemma onData_normal (chunk : str) (st st' : State) :
  onData parser compiler chunk st = Normal st' ->
  exists s0,
    routeUnits parser compiler
      (fst (Framing.onData (reader st) chunk)) (with_socketTimer None st)
      = Normal s0 /\
    st' = with_reader (snd (Framing.onData (reader st) chunk)) s0.
Proof.
  unfold onData. cbv zeta. intros Hp.
  apply parseIncomingCommands_normal in Hp; [|simpl; lia].
  destruct Hp as (st0 & Hr & Hst'). simpl reader in Hr, Hst'.
  rewrite (LoopFacts.routeUnits_with_reader parser compiler) in Hr.
  unfold Framing.onData.
  destruct (routeUnits parser compiler
              (fst (Framing.iterateIncomingBuffer
                      (Framing.push (reader st) chunk)))
              (with_socketTimer None st)) as [s|s|s]; try discriminate.
  injection Hr as <-. exists s. split; [reflexivity|]. exact Hst'.
Qed.

(** X2.  Whatever the client holds and whatever chunk arrives, when
    [_onData] returns normally (no unit's routing has thrown or ended the
    loop early), the reader has stopped for one of two reasons: the buffer
    holds no LF any more, or a literal is pending and fewer bytes than it
    announces are buffered.  A complete line is never left unprocessed. *)
Theorem reader_stops_for_a_reason (chunk : str) (st st' : State) :
  onData parser compiler chunk st = Normal st' ->
  Framing.no_lf (Framing.incomingBuffer (reader st')) = true \/
  (0 < Framing.literalRemaining (reader st') /\
   length (Framing.incomingBuffer (reader st')) <
   Framing.literalRemaining (reader st')).
Proof.
  intros H. destruct (onData_normal chunk st st' H) as (s0 & _ & ->).
  exact (ReaderMore.generator_stops_for_a_reason (reader st) chunk).
Qed.

(** X3.  When [_onData] returns normally, the reader has neither invented
    nor lost a byte: what it held (the unit in progress and the buffer)
    followed by the new chunk is exactly the units handed to the router,
    each followed again by the CR LF or LF that closed it, followed by
    what the reader holds afterwards; and each of these units has been
    routed. *)
Theorem reader_conserves_bytes (chunk : str) (st st' : State) :
  onData parser compiler chunk st = Normal st' ->
  exists units crs,
    length crs = length units /\
    Framing.command (reader st) ++ Framing.incomingBuffer (reader st) ++ chunk
    = rejoin units crs ++
      Framing.command (reader st') ++ Framing.incomingBuffer (reader st') /\
    flow_map (with_reader (reader st'))
             (routeUnits parser compiler units (with_socketTimer None st))
    = Normal st'.
Proof.
  intros H. destruct (onData_normal chunk st st' H) as (s0 & Hroute & ->).
  destruct (ReaderMore.generator_conserves_bytes (reader st) chunk)
    as (crs & Hlen & Heq).
  exists (fst (Framing.onData (reader st) chunk)), crs.
  split; [exact Hlen|]. split; [exact Heq|].
  now rewrite Hroute.
Qed.

End Codec.

Lemma reader_stops_for_a_reason_witness :
  let st' :=
    flow_state (onData Scenario.session_parser Scenario.one_line
                  ("* OK ready" ++ EOL ++ "* 5 EXI") initial) in
  Framing.no_lf (Framing.incomingBuffer (reader st')) = true \/
  (0 < Framing.literalRemaining (reader st') /\
   length (Framing.incomingBuffer (reader st')) <
   Framing.literalRemaining (reader st')).
Proof.
  apply (reader_stops_for_a_reason Scenario.session_parser Scenario.one_line
           ("* OK ready" ++ EOL ++ "* 5 EXI") initial).
  vm_compute. reflexivity.
Defined.

Lemma reader_conserves_bytes_witness :
  let chunk := "* OK ready" ++ EOL ++ "* 5 EXI" in
  let st' :=
    flow_state (onData Scenario.session_parser Scenario.one_line chunk
                  initial) in
  exists units crs,
    length crs = length units /\
    Framing.command (reader initial) ++
    Framing.incomingBuffer (reader initial) ++ chunk
    = rejoin units crs ++
      Framing.command (reader st') ++ Framing.incomingBuffer (reader st') /\
    flow_map (with_reader (reader st'))
             (routeUnits Scenario.session_parser Scenario.one_line units
                         (with_socketTimer None initial))
    = Normal st'.
Proof.
  apply (reader_conserves_bytes Scenario.session_parser Scenario.one_line
           ("* OK ready" ++ EOL ++ "* 5 EXI") initial).
  vm_compute. reflexivity.
Defined.

End ReaderInClient.

(** ** [_processResponse] *)

Module ProcessFacts.

Import Js JsFacts Client More.

Lemma str_eqb_eq (a b : str) : str_eqb a b = true <-> a = b.
Proof.
  revert b. induction a as [|x a IH]; intros [|y b]; simpl;
    try (split; [discriminate | discriminate]); [now split|].
  rewrite andb_true_iff, Ascii.eqb_eq, IH.
  split; [intros [-> ->]; reflexivity | intros [= -> ->]; now split].
Qed.

Lemma str_eqb_refl (a : str) : str_eqb a a = true.
Proof. now apply str_eqb_eq. Qed.

Lemma digit_not_space (c : ascii) : is_digit c = true -> is_space c = false.
Proof.
  unfold is_digit, is_space. intros H.
  apply andb_true_iff in H as [Hlo Hhi].
  apply Nat.leb_le in Hlo, Hhi.
  destruct (Nat.leb_spec 9 (nat_of_ascii c)), (Nat.leb_spec (nat_of_ascii c) 13),
    (Nat.eqb_spec (nat_of_ascii c) 32), (Nat.eqb_spec (nat_of_ascii c) 160);
    simpl; try reflexivity; lia.
Qed.

Lemma digit_upper (c : ascii) : is_digit c = true -> upper_char c = c.
Proof.
  unfold is_digit, upper_char. intros H.
  apply andb_true_iff in H as [Hlo Hhi].
  apply Nat.leb_le in Hlo, Hhi.
  destruct (Nat.leb_spec 97 (nat_of_ascii c)); [lia | reflexivity].
Qed.

Lemma trim_start_digits (s : str) :
  forallb is_digit s = true -> trim_start s = s.
Proof.
  destruct s as [|c r]; [reflexivity|]. simpl. intros H.
  apply andb_true_iff in H as [Hc _]. now rewrite (digit_not_space c Hc).
Qed.

(** Upper-casing and trimming leave a string of digits as it is. *)
Lemma normalize_digits (s : str) :
  forallb is_digit s = true -> normalize s = s.
Proof.
  intros H. unfold normalize, toUpperCase.
  assert (Hmap : map upper_char s = s).
  { induction s as [|c r IH]; [reflexivity|]. simpl in *.
    apply andb_true_iff in H as [Hc Hr]. now rewrite (digit_upper c Hc), IH. }
  rewrite Hmap. unfold trim. rewrite (trim_start_digits s H).
  rewrite trim_start_digits; [apply rev_involutive|].
  apply forallb_forall. intros x Hx. apply in_rev in Hx.
  rewrite forallb_forall in H. now apply H.
Qed.

Lemma digits_are_no_code (s : str) :
  all_digits s = true ->
  existsb (str_eqb (normalize s)) response_codes = false.
Proof.
  unfold all_digits. intros H. apply andb_true_iff in H as [Hne Hd].
  rewrite (normalize_digits s Hd).
  destruct s as [|c r]; [discriminate|].
  simpl in Hd. apply andb_true_iff in Hd as [Hc _].
  unfold response_codes. simpl.
  assert (Hno : forall k, is_digit k = false -> Ascii.eqb c k = false).
  { intros k Hk. destruct (Ascii.eqb_spec c k) as [->|]; congruence. }
  now rewrite !Hno by reflexivity.
Qed.

Lemma all_digits_number (n : nat) : all_digits (number_to_string n) = true.
Proof.
  pose proof (ReaderMore.number_to_string_well_formed n) as H.
  unfold Framing.well_formed_count in H. unfold all_digits.
  apply andb_true_iff in H as [Hne Hd]. rewrite Hd, andb_true_r.
  now destruct (number_to_string n).
Qed.

(** X5.  An untagged response whose command is a number, [* n NAME ...]:
    when its first attribute is an atom, the number moves to [nr], the
    atom's upper-cased value becomes the command and the atom leaves the
    attributes; nothing else is extracted, whatever NAME is.  When the
    first attribute is [null] (a NIL on the wire) the processor throws.
    When it is an array the response is left as it is. *)
Theorem numbered_untagged_response
        (n : nat) (name : option str) (section : option (list Attr))
        (items rest : list Attr) :
  processResponse
    (parsed "*" (number_to_string n)
            (Some (ANode "ATOM" name section :: rest))) =
  Ok {| r_tag := "*";
        r_command := normalize (value_or_empty (ANode "ATOM" name section));
        r_attributes := Some rest;
        r_nr := Some n;
        r_humanReadable := None; r_code := CUndefined;
        r_keyed := []; r_payload := None |} /\
  processResponse
    (parsed "*" (number_to_string n) (Some (ANull :: rest))) = TypeError /\
  processResponse
    (parsed "*" (number_to_string n) (Some (AList items :: rest))) =
  Ok (parsed "*" (number_to_string n) (Some (AList items :: rest))).
Proof.
  pose proof (all_digits_number n) as Hd.
  pose proof (digits_are_no_code _ Hd) as Hcode.
  unfold processResponse, parsed.
  cbn [r_attributes r_tag r_command str_eqb Ascii.eqb Bool.eqb andb].
  rewrite Hd. cbn [type_is str_eqb Ascii.eqb Bool.eqb andb].
  rewrite Hcode. cbn [negb].
  unfold promote_numbered. cbn [r_tag r_command r_humanReadable r_code r_keyed
    r_payload]. rewrite ReaderMore.Number_number_to_string.
  now repeat split.
Qed.





Lemma section_list_ok (items : list Attr) :
  forallb non_null items = true -> exists vs, section_list items = Ok vs.
Proof.
  induction items as [|a items IH]; intros H; [now exists []|].
  simpl in H. apply andb_true_iff in H as [Ha Hr].
  destruct (IH Hr) as [vs Hvs].
  destruct a; [discriminate| |]; simpl; rewrite Hvs; eauto.
Qed.

Lemma section_map_ok (section : list Attr) :
  forallb entry_ok section = true -> exists vs, section_map section = Ok vs.
Proof.
  induction section as [|e section IH]; intros H; [now exists []|].
  simpl in H. apply andb_true_iff in H as [He Hr].
  destruct (IH Hr) as [vs Hvs]. cbn [section_map]. rewrite Hvs.
  destruct e as [|items|ty v sec]; simpl; eauto.
  simpl in He. destruct (section_list_ok items He) as [ws ->]. eauto.
Qed.

Lemma type_is_ok (a : Attr) (t : str) :
  non_null a = true -> exists b, type_is a t = Ok b.
Proof. destruct a; [discriminate| |]; simpl; eauto. Qed.

Lemma non_null_last (attrs : list Attr) (d : Attr) :
  non_null d = true -> forallb non_null attrs = true ->
  non_null (last attrs d) = true.
Proof.
  revert d. induction attrs as [|a attrs IH]; intros d Hd H; [exact Hd|].
  simpl in H. apply andb_true_iff in H as [Ha Hr].
  destruct attrs as [|b attrs]; [exact Ha|].
  change (non_null (last (b :: attrs) d) = true). now apply IH.
Qed.

(** X7.  [_processResponse] does not throw on a response none of whose
    attributes is [null] and whose bracketed section, if the first
    attribute has one, begins with a node and holds no array with a [null]
    in it. *)
Theorem processResponse_does_not_throw (r : Response) (attrs : list Attr) :
  r_attributes r = Some attrs ->
  forallb non_null attrs = true ->
  head_section_ok attrs = true ->
  exists r', processResponse r = Ok r'.
Proof.
  intros Hattrs Hnn Hsec. unfold processResponse. rewrite Hattrs.
  destruct attrs as [|a0 rest]; [eauto|].
  simpl in Hnn. apply andb_true_iff in Hnn as [Ha0 Hrest].
  destruct (str_eqb (r_tag r) "*" && all_digits (r_command r)) eqn:Enum.
  - destruct (type_is_ok a0 "ATOM" Ha0) as [b ->].
    apply andb_true_iff in Enum as [_ Hd].
    rewrite (digits_are_no_code _ Hd). simpl. eauto.
  - rewrite Hattrs.
    destruct (negb (existsb (str_eqb (normalize (r_command r))) response_codes));
      [eauto|].
    destruct (type_is_ok (last rest a0) "TEXT"
                (non_null_last rest a0 Ha0 Hrest)) as [b ->].
    destruct (type_is_ok a0 "ATOM" Ha0) as [[|] ->]; [|eauto].
    destruct a0 as [|items|ty v [section|]]; eauto.
    destruct section as [|first more].
    + unfold bind_code. simpl. eauto.
    + simpl in Hsec. apply andb_true_iff in Hsec as [Hfirst Hmore].
      destruct (section_map_ok more Hmore) as [vs Hvs].
      destruct first as [|?|fty fv fsec]; try discriminate.
      cbn [section_map section_entry]. rewrite Hvs.
      unfold bind_code. cbn [shift].
      destruct vs as [|w [|w' vs]]; eauto.
Qed.

Lemma processResponse_does_not_throw_witness :
  exists r',
    processResponse (parsed "*" "OK" (Some MoreScenario.permanentflags)) = Ok r'.
Proof.
  apply (processResponse_does_not_throw
           (parsed "*" "OK" (Some MoreScenario.permanentflags))
           MoreScenario.permanentflags); reflexivity.
Defined.

End ProcessFacts.

(** ** Invariants of the histories *)

Module HistoryFacts.

Import Js Client More.

Section Codec.

Variable parser : str -> option Response.
Variable compiler : Request -> option (list str).

Section Invariant.

Variable P : State -> Prop.

Hypothesis P_reader : forall r st, P st -> P (with_reader r st).
Hypothesis P_timer : forall st, P st -> P (with_socketTimer None st).
Hypothesis P_routeUnit :
  forall u st, P st -> P (flow_state (routeUnit parser compiler u st)).

Lemma parseIncomingCommands_invariant (fuel : nat) (st : State) :
  P st -> P (flow_state (parseIncomingCommands parser compiler fuel st)).
Proof.
  revert st. induction fuel as [|fuel IH]; intros st H; [exact H|].
  simpl. destruct (Framing.iterate_step (reader st)) as [|r|u r].
  - exact H.
  - apply IH, P_reader, H.
  - pose proof (P_routeUnit u (with_reader r st) (P_reader r st H)) as Hu.
    destruct (routeUnit parser compiler u (with_reader r st)) as [st'|st'|st'];
      simpl in *; [|exact Hu|exact Hu].
    apply IH, P_reader, Hu.
Qed.

Lemma onData_invariant (chunk : str) (st : State) :
  P st -> P (flow_state (onData parser compiler chunk st)).
Proof.
  intros H. unfold onData. cbv zeta.
  apply parseIncomingCommands_invariant, P_reader, P_timer, H.
Qed.

Variable allowed : Op -> bool.

Hypothesis P_op :
  forall st op, allowed op = true -> P st -> P (apply_op parser compiler st op).

Lemma run_invariant (ops : list Op) (st : State) :
  forallb allowed ops = true -> P st -> P (fst (run parser compiler st ops)).
Proof.
  revert st. induction ops as [|op ops IH]; intros st Hall H; [exact H|].
  simpl in Hall. apply andb_true_iff in Hall as [Hop Hall].
  cbn [run].
  specialize (IH (apply_op parser compiler st op) Hall (P_op st op Hop H)).
  destruct (run parser compiler (apply_op parser compiler st op) ops)
    as [st' tags].
  now destruct op.
Qed.

End Invariant.

Section Router.

Variable P : State -> Prop.

Hypothesis P_clearIdle : forall st, P st -> P (clearIdle st).
Hypothesis P_continuation :
  forall st st', P st -> continuation st = Ok st' -> P st'.
Hypothesis P_onError : forall st, P st -> P (onError st).
Hypothesis P_handleResponse :
  forall st r, P st -> P (handleResponse compiler st r).
Hypothesis P_ready :
  forall st, P st -> connectionReady st = false ->
             P (emit EvReady (with_ready true st)).

Lemma routeUnit_invariant (u : str) (st : State) :
  P st -> P (flow_state (routeUnit parser compiler u st)).
Proof.
  intros H. unfold routeUnit. cbv zeta.
  destruct (starts_with_plus u).
  - destruct (continuation (clearIdle st)) as [st'|] eqn:E; simpl.
    + exact (P_continuation _ _ (P_clearIdle _ H) E).
    + exact (P_clearIdle _ H).
  - destruct (parser u) as [r|]; [|simpl; exact (P_onError _ (P_clearIdle _ H))].
    destruct (processResponse r) as [r'|]; simpl; [|exact (P_clearIdle _ H)].
    unfold handleProcessed.
    destruct (command_unreadable r'); simpl; [exact (P_clearIdle _ H)|].
    destruct (tag_unmatched r').
    + destruct (connectionReady (clearIdle st)) eqn:E;
        [exact (P_clearIdle _ H)|].
      exact (P_ready _ (P_clearIdle _ H) E).
    + pose proof (P_handleResponse _ r' (P_clearIdle _ H)) as Hh.
      destruct (connectionReady (handleResponse compiler (clearIdle st) r'))
        eqn:E; [exact Hh|].
      exact (P_ready _ Hh E).
Qed.

End Router.

End Codec.

End HistoryFacts.

(** ** The client before the first global handler *)

Module ColdStart.

Import Js Client More SendFacts HistoryFacts.

Section Codec.

Variable parser : str -> option Response.
Variable compiler : Request -> option (list str).

Lemma sent_onError (st : State) : sent (onError st) = sent st.
Proof.
  unfold sent, onError, close. cbv zeta.
  destruct (socketOpen _); simpl; rewrite ?flat_map_app; simpl;
    now rewrite ?app_nil_r.
Qed.

Lemma cold_onError (st : State) : cold st -> cold (onError st).
Proof.
  intros (A & B & C & D & E). unfold cold. rewrite sent_onError.
  unfold onError, close. cbv zeta. destruct (socketOpen _); simpl; auto.
Qed.

Lemma cold_handleResponse (st : State) (r : Response) :
  cold st -> cold (handleResponse compiler st r).
Proof.
  intros (A & B & C & D & E). unfold handleResponse. rewrite B, C.
  cbv zeta. unfold has_key. simpl. rewrite andb_false_r.
  now repeat split.
Qed.

Lemma cold_routeUnit (u : str) (st : State) :
  cold st -> cold (flow_state (routeUnit parser compiler u st)).
Proof.
  apply (routeUnit_invariant parser compiler cold).
  - intros s H. exact H.
  - intros s s' (A & B & C & D & E). unfold continuation. now rewrite B.
  - apply cold_onError.
  - apply cold_handleResponse.
  - intros s (A & B & C & D & E) _. unfold cold. rewrite sent_emit.
    simpl. rewrite app_nil_r. now repeat split.
Qed.

Lemma cold_enqueue (st : State) (request : Request) (acc : list str)
      (options : Options) :
  cold st -> cold (enqueue st request acc options).
Proof.
  intros H. unfold enqueue. cbv zeta.
  destruct (match c_ctx _ with Some _ => _ | None => None end); exact H.
Qed.

Lemma cold_apply_op (st : State) (op : Op) :
  negb (is_setHandler op) = true -> cold st ->
  cold (apply_op parser compiler st op).
Proof.
  intros Hop H.
  destruct op as [request acc options|chunk|name h| |context err]; simpl.
  - pose proof (cold_enqueue st request acc options H) as He.
    unfold enqueueCommand. cbv zeta.
    destruct He as (A & B & C & D & E). rewrite A. now repeat split.
  - apply (onData_invariant parser compiler cold); auto.
    intros u s. apply cold_routeUnit.
  - discriminate.
  - destruct H as (A & B & C & D & E). unfold precheckResolved. rewrite D.
    now repeat split.
  - unfold precheckRejected.
    destruct (indexOf context (clientQueue st)); [|exact H].
    destruct (nth_error _ _); [|exact H].
    destruct H as (A & B & C & D & E). unfold cold. rewrite sent_emit.
    simpl. rewrite app_nil_r. now repeat split.
Qed.

(** X8.  As long as no global handler has been registered, nothing is
    sent: whatever is enqueued and whatever the server sends, [canSend]
    stays false and no command becomes current.  The first command leaves
    only after an untagged response (the greeting, say) was given to a
    global handler. *)
Theorem nothing_is_sent_before_a_handler (ops : list Op) :
  forallb (fun op => negb (is_setHandler op)) ops = true ->
  let st := fst (run parser compiler initial ops) in
  sent st = [] /\ canSend st = false /\ currentCommand st = None.
Proof.
  intros Hops st.
  assert (H : cold st).
  { apply (run_invariant parser compiler cold
             (fun op => negb (is_setHandler op))); [|exact Hops|].
    - apply cold_apply_op.
    - now repeat split. }
  destruct H as (A & B & C & D & E). now repeat split.
Qed.

End Codec.

Lemma nothing_is_sent_before_a_handler_witness :
  let st :=
    fst (run Scenario.session_parser Scenario.one_line initial
           [OpEnqueue (request_of_string "CAPABILITY") ["CAPABILITY"] no_options;
            OpData ("* OK ready" ++ EOL);
            OpData ("+ go" ++ EOL)]) in
  sent st = [] /\ canSend st = false /\ currentCommand st = None.
Proof.
  apply (nothing_is_sent_before_a_handler
           Scenario.session_parser Scenario.one_line
           [OpEnqueue (request_of_string "CAPABILITY") ["CAPABILITY"] no_options;
            OpData ("* OK ready" ++ EOL);
            OpData ("+ go" ++ EOL)]).
  reflexivity.
Defined.

End ColdStart.

(** ** [onready] *)

Module ReadyFacts.

Import Js Client More HistoryFacts.

Lemma ready_count_app (a b : list Event) :
  ready_count (a ++ b) = ready_count a + ready_count b.
Proof. unfold ready_count. now rewrite filter_app, length_app. Qed.

(** An event other than [EvReady] leaves the count as it is. *)
Lemma ready_once_emit (e : Event) (st : State) :
  e <> EvReady -> ready_once st -> ready_once (emit e st).
Proof.
  unfold ready_once. simpl. intros He H. rewrite ready_count_app, H.
  destruct e; try (now destruct He); simpl; apply Nat.add_0_r.
Qed.

Lemma ready_once_onError (st : State) : ready_once st -> ready_once (onError st).
Proof.
  intros H. unfold onError, close. cbv zeta.
  destruct (socketOpen _).
  - apply ready_once_emit; [discriminate|].
    apply (ready_once_emit EvFatal st); [discriminate|exact H].
  - apply (ready_once_emit EvFatal st); [discriminate|exact H].
Qed.

Section Codec.

Variable parser : str -> option Response.
Variable compiler : Request -> option (list str).

Lemma ready_once_sendRequest (st : State) :
  ready_once st -> ready_once (sendRequest compiler st).
Proof.
  intros H. unfold sendRequest.
  destruct (clientQueue st) as [|c q]; [exact H|]. cbv zeta.
  destruct (c_precheck c).
  - apply ready_once_emit; [discriminate|exact H].
  - destruct (compiler (c_request c)) as [chunks|].
    + destruct (shift chunks) as [data remaining].
      apply ready_once_emit; [discriminate|exact H].
    + apply ready_once_onError. exact H.
Qed.

Lemma ready_once_handleResponse (st : State) (r : Response) :
  ready_once st -> ready_once (handleResponse compiler st r).
Proof.
  intros H. unfold handleResponse, deliver_global. cbv zeta.
  destruct (currentCommand st) as [cur|].
  - destruct (match c_payload cur with
              | Some p => _
              | None => false
              end); [exact H|].
    destruct (_ && has_key _ (globalAcceptUntagged st)).
    + apply ready_once_sendRequest.
      apply (ready_once_emit (EvHandler _ r) st); [discriminate|exact H].
    + destruct (str_eqb (r_tag r) (c_tag cur)); [|exact H].
      apply ready_once_sendRequest.
      apply (ready_once_emit (EvSettled _ _) st); [discriminate|exact H].
  - destruct (_ && has_key _ (globalAcceptUntagged st)); [|exact H].
    apply ready_once_sendRequest.
    apply (ready_once_emit (EvHandler _ r) st); [discriminate|exact H].
Qed.

Lemma ready_once_continuation (st st' : State) :
  ready_once st -> continuation st = Ok st' -> ready_once st'.
Proof.
  intros H. unfold continuation.
  destruct (currentCommand st) as [cur|]; [|discriminate].
  destruct (c_data cur) as [[|chunk remaining]|]; [| |discriminate].
  - destruct (truthy_str _); intros [= <-]; [|exact H].
    apply ready_once_emit; [discriminate|exact H].
  - intros [= <-]. apply ready_once_emit; [discriminate|exact H].
Qed.

Lemma ready_once_routeUnit (u : str) (st : State) :
  ready_once st -> ready_once (flow_state (routeUnit parser compiler u st)).
Proof.
  apply (routeUnit_invariant parser compiler ready_once).
  - intros s H. exact H.
  - apply ready_once_continuation.
  - apply ready_once_onError.
  - apply ready_once_handleResponse.
  - intros s H Hr. unfold ready_once in *. simpl.
    rewrite ready_count_app, H, Hr. reflexivity.
Qed.

Lemma ready_once_apply_op (st : State) (op : Op) :
  ready_once st -> ready_once (apply_op parser compiler st op).
Proof.
  intros H.
  destruct op as [request acc options|chunk|name h| |context err]; simpl.
  - assert (He : ready_once (enqueue st request acc options)).
    { unfold enqueue. cbv zeta.
      destruct (match c_ctx _ with Some _ => _ | None => None end); exact H. }
    unfold enqueueCommand. cbv zeta.
    destruct (canSend _); [now apply ready_once_sendRequest | exact He].
  - apply (onData_invariant parser compiler ready_once); auto.
    intros u s. apply ready_once_routeUnit.
  - exact H.
  - unfold precheckResolved.
    destruct (restartQueue st); [now apply ready_once_sendRequest | exact H].
  - unfold precheckRejected.
    destruct (indexOf context (clientQueue st)); [|exact H].
    destruct (nth_error _ _); [|exact H].
    apply ready_once_emit; [discriminate|exact H].
Qed.

(** X9.  [onready] is called exactly once, after the first unit that the
    router handles to its end, and never again: at every point of every
    history the number of calls is 1 when the connection is marked ready
    and 0 otherwise. *)
Theorem onready_is_called_once (ops : list Op) :
  let st := fst (run parser compiler initial ops) in
  ready_count (events st) = (if connectionReady st then 1 else 0) /\
  ready_count (events st) <= 1.
Proof.
  intros st.
  assert (H : ready_once st).
  { apply (run_invariant parser compiler ready_once (fun _ => true)).
    - intros s op _. apply ready_once_apply_op.
    - now apply forallb_forall.
    - reflexivity. }
  split; [exact H|]. unfold ready_once in H. rewrite H.
  destruct (connectionReady st); lia.
Qed.

End Codec.

End ReadyFacts.

(** ** The chunks of the command in flight *)

Module DataFacts.

Import Js Client More HistoryFacts.

Lemma has_data_onError (st : State) : has_data st -> has_data (onError st).
Proof.
  intros H. unfold onError, close. cbv zeta.
  destruct (socketOpen _); [exact H|]. intros cur. discriminate.
Qed.

Section Codec.

Variable parser : str -> option Response.
Variable compiler : Request -> option (list str).

Hypothesis compiles : forall request, compiler request <> None.

Lemma has_data_sendRequest (st : State) :
  has_data st -> has_data (sendRequest compiler st).
Proof.
  intros H. unfold sendRequest.
  destruct (clientQueue st) as [|c q]; [exact H|]. cbv zeta.
  destruct (c_precheck c); [exact H|].
  destruct (compiler (c_request c)) as [chunks|] eqn:E;
    [|now apply compiles in E].
  destruct (shift chunks) as [data remaining].
  intros cur. simpl. intros [= <-]. discriminate.
Qed.

Lemma has_data_handleResponse (st : State) (r : Response) :
  has_data st -> has_data (handleResponse compiler st r).
Proof.
  intros H. unfold handleResponse, deliver_global. cbv zeta.
  destruct (currentCommand st) as [cur|] eqn:Ecur.
  - destruct (match c_payload cur with
              | Some p => _
              | None => false
              end).
    + intros cur'. simpl. intros [= <-]. simpl. now apply H.
    + destruct (_ && has_key _ (globalAcceptUntagged st)).
      * apply has_data_sendRequest. exact H.
      * destruct (str_eqb (r_tag r) (c_tag cur)); [|exact H].
        apply has_data_sendRequest. exact H.
  - destruct (_ && has_key _ (globalAcceptUntagged st)); [|exact H].
    apply has_data_sendRequest. exact H.
Qed.

Lemma has_data_continuation (st st' : State) :
  has_data st -> continuation st = Ok st' -> has_data st'.
Proof.
  intros H. unfold continuation.
  destruct (currentCommand st) as [cur|]; [|discriminate].
  destruct (c_data cur) as [[|chunk remaining]|]; [| |discriminate].
  - destruct (truthy_str _); intros [= <-]; exact H.
  - intros [= <-] cur'. simpl. intros [= <-]. discriminate.
Qed.

Lemma has_data_routeUnit (u : str) (st : State) :
  has_data st -> has_data (flow_state (routeUnit parser compiler u st)).
Proof.
  apply (routeUnit_invariant parser compiler has_data).
  - intros s H. exact H.
  - apply has_data_continuation.
  - apply has_data_onError.
  - apply has_data_handleResponse.
  - intros s H _. exact H.
Qed.

Lemma has_data_apply_op (st : State) (op : Op) :
  has_data st -> has_data (apply_op parser compiler st op).
Proof.
  intros H.
  destruct op as [request acc options|chunk|name h| |context err]; simpl.
  - assert (He : has_data (enqueue st request acc options)).
    { unfold enqueue. cbv zeta.
      destruct (match c_ctx _ with Some _ => _ | None => None end); exact H. }
    unfold enqueueCommand. cbv zeta.
    destruct (canSend _); [now apply has_data_sendRequest | exact He].
  - apply (onData_invariant parser compiler has_data); auto.
    intros u s. apply has_data_routeUnit.
  - exact H.
  - unfold precheckResolved.
    destruct (restartQueue st); [now apply has_data_sendRequest | exact H].
  - unfold precheckRejected.
    destruct (indexOf context (clientQueue st)); [|exact H].
    destruct (nth_error _ _); exact H.
Qed.

(** X10.  When every request compiles, a command that is current always
    has its array of chunks: after any history, a [+] prompt that arrives
    while some command is current is routed without an exception. *)
Theorem prompt_after_dispatch_is_routed (ops : list Op) (u : str) :
  starts_with_plus u = true ->
  let st := fst (run parser compiler initial ops) in
  currentCommand st <> None ->
  exists st', routeUnit parser compiler u st = Normal st'.
Proof.
  intros Hu st Hcur.
  assert (H : has_data st).
  { apply (run_invariant parser compiler has_data (fun _ => true)).
    - intros s op _. apply has_data_apply_op.
    - now apply forallb_forall.
    - intros cur. discriminate. }
  unfold routeUnit. cbv zeta. rewrite Hu. unfold continuation.
  cbn [clearIdle with_idleTimer currentCommand].
  destruct (currentCommand st) as [cur|] eqn:E; [|now destruct Hcur].
  specialize (H cur E).
  destruct (c_data cur) as [[|chunk remaining]|]; [| |now destruct H].
  - destruct (truthy_str _); eauto.
  - eauto.
Qed.

End Codec.

Lemma prompt_after_dispatch_is_routed_witness :
  exists st',
    routeUnit Scenario.session_parser Scenario.one_line "+ go"
      (fst (run Scenario.session_parser Scenario.one_line initial
              [OpSetHandler "ok" 0;
               OpData ("* OK ready" ++ EOL);
               OpEnqueue (request_of_string "CAPABILITY") [] no_options])) =
    Normal st'.
Proof.
  apply (prompt_after_dispatch_is_routed
           Scenario.session_parser Scenario.one_line);
    [intros request; discriminate | reflexivity | vm_compute; discriminate].
Defined.

End DataFacts.

(** ** The idle timer *)

Module IdleFacts.

Import Js Client More HistoryFacts.

Section Codec.

Variable parser : str -> option Response.
Variable compiler : Request -> option (list str).

(** [_sendRequest] is only entered with leave to send. *)
Lemma idle_sendRequest (st : State) :
  canSend st = true -> idle_when_done (sendRequest compiler st).
Proof.
  intros H. unfold sendRequest, idle_when_done.
  destruct (clientQueue st) as [|c q] eqn:Eq.
  - simpl. rewrite Eq. auto.
  - cbv zeta. destruct (c_precheck c).
    + simpl. split; [discriminate|auto].
    + destruct (compiler (c_request c)) as [chunks|].
      * destruct (shift chunks) as [data remaining]. simpl.
        split; discriminate.
      * unfold onError, close. cbv zeta.
        destruct (socketOpen _); simpl; split; discriminate.
Qed.

Lemma idle_onError (st : State) :
  idle_when_done st -> idle_when_done (onError st).
Proof.
  intros [H1 H2]. unfold onError, close. cbv zeta.
  destruct (socketOpen _); [split; assumption|].
  split; [discriminate|exact H2].
Qed.

Lemma idle_handleResponse (st : State) (r : Response) :
  idle_when_done st -> idle_when_done (handleResponse compiler st r).
Proof.
  intros H. unfold handleResponse, deliver_global. cbv zeta.
  destruct (currentCommand st) as [cur|].
  - destruct (match c_payload cur with
              | Some p => _
              | None => false
              end); [exact H|].
    destruct (_ && has_key _ (globalAcceptUntagged st));
      [now apply idle_sendRequest|].
    destruct (str_eqb (r_tag r) (c_tag cur)); [|exact H].
    now apply idle_sendRequest.
  - destruct (_ && has_key _ (globalAcceptUntagged st)); [|exact H].
    now apply idle_sendRequest.
Qed.

Lemma idle_continuation (st st' : State) :
  idle_when_done st -> continuation st = Ok st' -> idle_when_done st'.
Proof.
  intros H. unfold continuation.
  destruct (currentCommand st) as [cur|]; [|discriminate].
  destruct (c_data cur) as [[|chunk remaining]|]; [| |discriminate].
  - destruct (truthy_str _); intros [= <-]; exact H.
  - intros [= <-]. exact H.
Qed.

Lemma idle_routeUnit (u : str) (st : State) :
  idle_when_done st ->
  idle_when_done (flow_state (routeUnit parser compiler u st)).
Proof.
  apply (routeUnit_invariant parser compiler idle_when_done).
  - intros s [H1 H2]. split; [discriminate|exact H2].
  - apply idle_continuation.
  - apply idle_onError.
  - apply idle_handleResponse.
  - intros s H _. exact H.
Qed.

Lemma idle_apply_op (st : State) (op : Op) :
  idle_when_done st -> idle_when_done (apply_op parser compiler st op).
Proof.
  intros H.
  destruct op as [request acc options|chunk|name h| |context err]; simpl.
  - unfold enqueueCommand. cbv zeta.
    destruct (canSend (enqueue st request acc options)) eqn:E;
      [now apply idle_sendRequest|].
    assert (Hc : canSend st = false).
    { revert E. unfold enqueue. cbv zeta.
      now destruct (match c_ctx _ with Some _ => _ | None => None end). }
    destruct H as [H1 H2]. unfold enqueue. cbv zeta.
    destruct (match c_ctx _ with Some _ => _ | None => None end);
      (split; [intros Hi; destruct (H1 Hi); congruence | exact H2]).
  - apply (onData_invariant parser compiler idle_when_done); auto.
    intros u s. apply idle_routeUnit.
  - exact H.
  - unfold precheckResolved.
    destruct (restartQueue st) eqn:E; [|exact H].
    apply idle_sendRequest. now apply H.
  - unfold precheckRejected.
    destruct (indexOf context (clientQueue st)) as [index|] eqn:Ei; [|exact H].
    destruct (nth_error _ _) eqn:En; [|exact H].
    destruct H as [H1 H2]. split; [|exact H2].
    simpl. intros Hi. destruct (H1 Hi) as [Hq _]. rewrite Hq in En.
    now destruct index.
Qed.

(** X11.  Whenever the idle timer is armed, the queue is empty and the
    client has leave to send: [_enterIdle] is reached only from
    [_sendRequest] on an empty queue, and every dispatch and every routed
    unit clears the timer. *)
Theorem idle_timer_means_nothing_to_do (ops : list Op) :
  let st := fst (run parser compiler initial ops) in
  idleTimer st = true -> clientQueue st = [] /\ canSend st = true.
Proof.
  intros st.
  assert (H : idle_when_done st).
  { apply (run_invariant parser compiler idle_when_done (fun _ => true)).
    - intros s op _. apply idle_apply_op.
    - now apply forallb_forall.
    - split; discriminate. }
  apply H.
Qed.

End Codec.

Lemma idle_timer_means_nothing_to_do_witness :
  clientQueue MoreScenario.greeted = [] /\ canSend MoreScenario.greeted = true.
Proof.
  apply (idle_timer_means_nothing_to_do
           Scenario.session_parser Scenario.one_line
           [OpSetHandler "ok" 0; OpData ("* OK ready" ++ EOL)]).
  reflexivity.
Defined.

End IdleFacts.

(** ** The identities of the command records *)

Module IdentityFacts.

Import Js Client More HistoryFacts.

Lemma c_id_new_command (st : State) (request : Request) (acc : list str)
      (options : Options) :
  c_id (new_command st request acc options) = allocated st.
Proof.
  unfold new_command. cbv zeta. simpl.
  destruct (o_ctx options) as [ctx|]; [|reflexivity].
  now destruct (indexOf ctx (clientQueue st)).
Qed.

Lemma indexOf_none (ref : nat) (q : list Command) :
  ~ In ref (map c_id q) -> indexOf ref q = None.
Proof.
  induction q as [|c q IH]; intros H; [reflexivity|]. simpl in *.
  destruct (Nat.eqb_spec (c_id c) ref) as [E|E]; [now destruct H; left|].
  rewrite IH; [reflexivity|]. intros Hin. apply H. now right.
Qed.

Lemma nth_error_cut {A} (i : nat) (l : list A) (x : A) :
  nth_error l i = Some x -> l = firstn i l ++ x :: skipn (S i) l.
Proof.
  revert l. induction i as [|i IH]; intros [|y l]; try discriminate.
  - now intros [= ->].
  - intros H. simpl in H. cbn [firstn skipn app]. f_equal. now apply IH.
Qed.

Lemma distinct_insert (st : State) (l1 l2 : list Command) (x : Command)
      (n : nat) :
  clientQueue st = l1 ++ l2 ->
  c_id x = allocated st ->
  identities_distinct st ->
  identities_distinct
    (with_queue (l1 ++ x :: l2) (with_counters n (S (allocated st)) st)).
Proof.
  intros Hq Hx (Hnd & Hall & Hcur).
  unfold identities_distinct, ids in *. simpl.
  rewrite Hq in Hnd, Hall, Hcur. rewrite map_app in *. simpl.
  assert (Hfresh : ~ In (allocated st) (map c_id l1 ++ map c_id l2)).
  { intros Hin. rewrite Forall_forall in Hall. apply Hall in Hin. lia. }
  split; [|split].
  - apply (NoDup_Add (Add_app (c_id x) (map c_id l1) (map c_id l2))).
    split; [exact Hnd | now rewrite Hx].
  - apply Forall_app in Hall as [Ha Hb]. apply Forall_app. split.
    + eapply Forall_impl; [|exact Ha]. simpl. intros; lia.
    + constructor; [lia|]. eapply Forall_impl; [|exact Hb]. simpl. intros; lia.
  - destruct (currentCommand st) as [cur|]; [|exact I].
    destruct Hcur as [Hlt Hnin]. split; [lia|].
    intros Hin. apply in_elt_inv in Hin as [Heq|Hin]; [lia|contradiction].
Qed.

Lemma distinct_remove (st : State) (l1 l2 : list Command) (x : Command) :
  clientQueue st = l1 ++ x :: l2 ->
  identities_distinct st ->
  identities_distinct (with_queue (l1 ++ l2) st).
Proof.
  intros Hq (Hnd & Hall & Hcur).
  unfold identities_distinct, ids in *. simpl.
  rewrite Hq in Hnd, Hall, Hcur. rewrite map_app in *. simpl in *.
  split; [|split].
  - now apply NoDup_remove_1 in Hnd.
  - apply Forall_app in Hall as [Ha Hb]. apply Forall_app. split; [exact Ha|].
    now inversion Hb.
  - destruct (currentCommand st) as [cur|]; [|exact I].
    destruct Hcur as [Hlt Hnin]. split; [exact Hlt|].
    intros Hin. apply Hnin. apply in_app_iff in Hin as [Hin|Hin];
      apply in_app_iff; [now left | right; now right].
Qed.

Lemma distinct_onError (st : State) :
  identities_distinct st -> identities_distinct (onError st).
Proof.
  intros H. unfold onError, close. cbv zeta.
  destruct (socketOpen _); [exact H|].
  unfold identities_distinct, ids. simpl. repeat split; constructor.
Qed.

Section Codec.

Variable parser : str -> option Response.
Variable compiler : Request -> option (list str).

Lemma distinct_sendRequest (st : State) :
  identities_distinct st -> identities_distinct (sendRequest compiler st).
Proof.
  intros H. unfold sendRequest.
  destruct (clientQueue st) as [|c q] eqn:Eq; [exact H|]. cbv zeta.
  destruct H as (Hnd & Hall & Hcur). unfold ids in *.
  rewrite Eq in Hnd, Hall, Hcur. simpl in Hnd, Hall.
  assert (Hd : identities_distinct
                 (with_current (Some c) (with_queue q st))).
  { unfold identities_distinct, ids. simpl.
    inversion Hnd; subst. inversion Hall; subst. now repeat split. }
  destruct (c_precheck c).
  - unfold identities_distinct, ids. simpl. now repeat split.
  - destruct (compiler (c_request c)) as [chunks|].
    + destruct (shift chunks) as [data remaining]. exact Hd.
    + apply distinct_onError. exact Hd.
Qed.

Lemma distinct_with_current (st : State) (cur cur' : Command) :
  currentCommand st = Some cur -> c_id cur' = c_id cur ->
  identities_distinct st ->
  identities_distinct (with_current (Some cur') st).
Proof.
  intros E Hid (Hnd & Hall & Hcur). rewrite E in Hcur.
  unfold identities_distinct, ids. simpl. rewrite Hid. now repeat split.
Qed.

Lemma distinct_handleResponse (st : State) (r : Response) :
  identities_distinct st -> identities_distinct (handleResponse compiler st r).
Proof.
  intros H. unfold handleResponse, deliver_global. cbv zeta.
  destruct (currentCommand st) as [cur|] eqn:Ecur.
  - destruct (match c_payload cur with
              | Some p => _
              | None => false
              end).
    + now apply (distinct_with_current st cur).
    + destruct (_ && has_key _ (globalAcceptUntagged st)).
      * apply distinct_sendRequest. exact H.
      * destruct (str_eqb (r_tag r) (c_tag cur)); [|exact H].
        apply distinct_sendRequest. exact H.
  - destruct (_ && has_key _ (globalAcceptUntagged st)); [|exact H].
    apply distinct_sendRequest. exact H.
Qed.

Lemma distinct_continuation (st st' : State) :
  identities_distinct st -> continuation st = Ok st' -> identities_distinct st'.
Proof.
  intros H. unfold continuation.
  destruct (currentCommand st) as [cur|] eqn:Ecur; [|discriminate].
  destruct (c_data cur) as [[|chunk remaining]|]; [| |discriminate].
  - destruct (truthy_str _); intros [= <-]; exact H.
  - intros [= <-].
    apply (distinct_with_current st cur (set_data cur (Some remaining)) Ecur
             eq_refl H).
Qed.

Lemma distinct_routeUnit (u : str) (st : State) :
  identities_distinct st ->
  identities_distinct (flow_state (routeUnit parser compiler u st)).
Proof.
  apply (routeUnit_invariant parser compiler identities_distinct).
  - intros s H. exact H.
  - apply distinct_continuation.
  - apply distinct_onError.
  - apply distinct_handleResponse.
  - intros s H _. exact H.
Qed.

Lemma distinct_enqueue (st : State) (request : Request) (acc : list str)
      (options : Options) :
  identities_distinct st ->
  identities_distinct (enqueue st request acc options).
Proof.
  intros H. unfold enqueue. cbv zeta.
  destruct (match c_ctx _ with Some _ => _ | None => None end) as [index|].
  - apply (distinct_insert st (firstn index (clientQueue st))
             (skipn index (clientQueue st))
             (new_command st request acc options) (S (tagCounter st)));
      [symmetry; apply firstn_skipn | apply c_id_new_command | exact H].
  - apply (distinct_insert st (clientQueue st) []
             (new_command st request acc options) (S (tagCounter st)));
      [now rewrite app_nil_r | apply c_id_new_command | exact H].
Qed.

Lemma distinct_apply_op (st : State) (op : Op) :
  identities_distinct st ->
  identities_distinct (apply_op parser compiler st op).
Proof.
  intros H.
  destruct op as [request acc options|chunk|name h| |context err]; simpl.
  - pose proof (distinct_enqueue st request acc options H) as He.
    unfold enqueueCommand. cbv zeta.
    destruct (canSend _); [now apply distinct_sendRequest | exact He].
  - apply (onData_invariant parser compiler identities_distinct); auto.
    intros u s. apply distinct_routeUnit.
  - exact H.
  - unfold precheckResolved.
    destruct (restartQueue st); [now apply distinct_sendRequest | exact H].
  - unfold precheckRejected.
    destruct (indexOf context (clientQueue st)) as [index|]; [|exact H].
    destruct (nth_error _ _) as [cmd|] eqn:En; [|exact H].
    apply (distinct_remove st (firstn index (clientQueue st))
             (skipn (S index) (clientQueue st)) cmd);
      [now apply nth_error_cut | exact H].
Qed.

(** X12.  Priority mode applies only while the [ctx] command is still
    queued.  After any history, a command enqueued with [ctx] referring to
    the command in flight is not found in the queue: it is appended at the
    tail and its tag gets no [.p]. *)
Theorem ctx_in_flight_gives_no_priority
        (ops : list Op) (cur : Command) (request : Request) (acc : list str)
        (options : Options) :
  let st := fst (run parser compiler initial ops) in
  currentCommand st = Some cur ->
  o_ctx options = Some (c_id cur) ->
  clientQueue (enqueue st request acc options) =
    clientQueue st ++ [new_command st request acc options] /\
  c_tag (new_command st request acc options) = tag_of (S (tagCounter st)) false.
Proof.
  intros st Hcur Hctx.
  assert (H : identities_distinct st).
  { apply (run_invariant parser compiler identities_distinct (fun _ => true)).
    - intros s op _. apply distinct_apply_op.
    - now apply forallb_forall.
    - unfold identities_distinct, ids. simpl. repeat split; constructor. }
  destruct H as (_ & _ & H). rewrite Hcur in H. destruct H as [_ Hnin].
  apply indexOf_none in Hnin.
  split.
  - unfold enqueue. cbv zeta.
    assert (Hc : c_ctx (new_command st request acc options) = Some (c_id cur)).
    { unfold new_command. cbv zeta. simpl. now rewrite Hctx, Hnin. }
    now rewrite Hc, Hnin.
  - rewrite (QueueFacts.new_command_tag st request acc options).
    now rewrite Hctx, Hnin.
Qed.

End Codec.

Lemma ctx_in_flight_gives_no_priority_witness :
  let st := MoreScenario.fetch_sent in
  let options := {| o_ctx := Some 0; o_precheck := None;
                    o_errorResponseExpectsEmptyLine := None |} in
  clientQueue (enqueue st (request_of_string "NOOP") [] options) =
    clientQueue st ++ [new_command st (request_of_string "NOOP") [] options] /\
  c_tag (new_command st (request_of_string "NOOP") [] options) =
    tag_of (S (tagCounter st)) false.
Proof.
  apply (ctx_in_flight_gives_no_priority
           Scenario.session_parser Scenario.one_line
           [OpSetHandler "ok" 0;
            OpSetHandler "fetch" 1;
            OpData ("* OK ready" ++ EOL);
            OpEnqueue (request_of_string "FETCH 1:2 FLAGS") ["FETCH"] no_options]
           MoreScenario.fetch_command).
  - vm_compute. reflexivity.
  - reflexivity.
Defined.

End IdentityFacts.

(** ** The router and the queue, step by step *)

Module RouterMore.

Import Js Client More SendFacts ProcessFacts.


Lemma bucket_push_same (k : str) (x : Response) (p : Payload) :
  has_key k p = true -> bucket k (push_key k x p) = bucket k p ++ [x].
Proof.
  unfold has_key, bucket.
  induction p as [|[k' b] p IH]; simpl; [discriminate|].
  destruct (str_eqb k' k) eqn:E; simpl; rewrite E; [reflexivity|].
  exact IH.
Qed.

Lemma bucket_push_other (k k' : str) (x : Response) (p : Payload) :
  k' <> k -> bucket k' (push_key k x p) = bucket k' p.
Proof.
  intros Hne. unfold bucket.
  induction p as [|[k0 b] p IH]; simpl; [reflexivity|].
  destruct (str_eqb k0 k) eqn:E; simpl.
  - destruct (str_eqb k0 k') eqn:E'; [|reflexivity].
    apply str_eqb_eq in E, E'. congruence.
  - destruct (str_eqb k0 k'); [reflexivity|exact IH].
Qed.

Lemma has_key_push (k k' : str) (x : Response) (p : Payload) :
  has_key k' (push_key k x p) = has_key k' p.
Proof.
  unfold has_key.
  induction p as [|[k0 b] p IH]; simpl; [reflexivity|].
  destruct (str_eqb k0 k); simpl; [reflexivity|now rewrite IH].
Qed.

Lemma with_current_same (st : State) (cur : Command) :
  currentCommand st = Some cur -> with_current (Some cur) st = st.
Proof. destruct st. simpl. now intros ->. Qed.

Lemma set_cpayload_same (cur : Command) (p : option Payload) :
  c_payload cur = p -> set_cpayload cur p = cur.
Proof. destruct cur. simpl. now intros <-. Qed.

Lemma str_eqb_neq (a b : str) : a <> b -> str_eqb a b = false.
Proof.
  intros H. destruct (str_eqb a b) eqn:E; [|reflexivity].
  now apply str_eqb_eq in E.
Qed.

Section Codec.

Variable parser : str -> option Response.
Variable compiler : Request -> option (list str).

Lemma collect (rs : list Response) :
  forall (st : State) (cur : Command) (p : Payload) (k : str),
    currentCommand st = Some cur ->
    c_payload cur = Some p ->
    has_key k p = true ->
    Forall (fun r => r_tag r = "*" /\ normalize (r_command r) = k) rs ->
    exists p',
      fold_left (handleResponse compiler) rs st =
        with_current (Some (set_cpayload cur (Some p'))) st /\
      bucket k p' = bucket k p ++ rs /\
      (forall k', k' <> k -> bucket k' p' = bucket k' p) /\
      has_key k p' = true.
Proof.
  induction rs as [|r rs IH]; intros st cur p k Hcur Hp Hk Hrs.
  - exists p. simpl. rewrite (set_cpayload_same cur (Some p) Hp).
    rewrite (with_current_same st cur Hcur), app_nil_r. auto.
  - inversion Hrs as [|? ? [Htag Hcmd] Hrs']; subst.
    assert (Hstep : handleResponse compiler st r =
                    with_current
                      (Some (set_cpayload cur
                               (Some (push_key (normalize (r_command r)) r p))))
                      st).
    { unfold handleResponse. cbv zeta. rewrite Hcur, Hp, Htag, Hk.
      reflexivity. }
    cbn [fold_left]. rewrite Hstep.
    destruct (IH (with_current
                    (Some (set_cpayload cur
                             (Some (push_key (normalize (r_command r)) r p))))
                    st)
                 (set_cpayload cur
                    (Some (push_key (normalize (r_command r)) r p)))
                 (push_key (normalize (r_command r)) r p)
                 (normalize (r_command r)))
      as (p' & Hfold & Hsame & Hother & Hk'); try reflexivity.
    + now rewrite has_key_push.
    + exact Hrs'.
    + exists p'. split; [exact Hfold|]. split; [|split; [|exact Hk']].
      * rewrite Hsame, bucket_push_same by exact Hk.
        now rewrite <- app_assoc.
      * intros k' Hne. rewrite (Hother k' Hne).
        now apply bucket_push_other.
Qed.

(** X13.  Untagged responses whose command the current command listed in
    [acceptUntagged] are appended to that bucket in the order of arrival,
    also when a global handler is registered for the same command; the
    other buckets and the rest of the client are left alone.  The tagged
    completion then hands the payload with these buckets to the callback. *)
Theorem untagged_responses_are_collected
        (st : State) (cur : Command) (p : Payload) (k : str)
        (rs : list Response) (completion : Response) :
  currentCommand st = Some cur ->
  c_payload cur = Some p ->
  has_key k p = true ->
  Forall (fun r => r_tag r = "*" /\ normalize (r_command r) = k) rs ->
  r_tag completion = c_tag cur ->
  c_tag cur <> "*" ->
  exists p',
    let st' := fold_left (handleResponse compiler) rs st in
    st' = with_current (Some (set_cpayload cur (Some p'))) st /\
    bucket k p' = bucket k p ++ rs /\
    (forall k', k' <> k -> bucket k' p' = bucket k' p) /\
    handleResponse compiler st' completion =
      sendRequest compiler
        (with_canSend true
           (emit (EvSettled (c_id cur)
                    (callback
                       (ArgResponse (set_payload completion (Some p')))))
                 st')).
Proof.
  intros Hcur Hp Hk Hrs Htag Hstar.
  destruct (collect rs st cur p k Hcur Hp Hk Hrs)
    as (p' & Hfold & Hsame & Hother & Hk').
  exists p'. cbv zeta. rewrite Hfold.
  split; [reflexivity|]. split; [exact Hsame|]. split; [exact Hother|].
  unfold handleResponse. cbv zeta.
  cbn [currentCommand with_current c_payload set_cpayload c_tag c_id].
  rewrite Htag, (str_eqb_neq _ _ Hstar), str_eqb_refl.
  cbn [andb]. unfold attach_payload. cbn [c_payload set_cpayload].
  destruct p' as [|e p']; [discriminate|]. reflexivity.
Qed.





(** X18.  Commands leave in queue order, one for each tagged completion:
    when the completions of the command in flight and of the queued
    commands arrive one after the other, the strings sent are the first
    transmissions of the queued commands, in the order of the queue; at the
    end the queue is empty and the client has leave to send. *)
Theorem commands_leave_in_queue_order (rs : list Response) :
  forall (st : State) (cur : Command),
    currentCommand st = Some cur ->
    c_tag cur <> "*" ->
    Forall (fun c => c_precheck c = None /\ c_tag c <> "*" /\
                     compiler (c_request c) <> None) (clientQueue st) ->
    Forall2 (fun r c => r_tag r = c_tag c) rs (cur :: clientQueue st) ->
    let st' := fold_left (handleResponse compiler) rs st in
    sent st' = sent st ++ map (wire_of compiler) (clientQueue st) /\
    clientQueue st' = [] /\
    canSend st' = true.
Proof.
  induction rs as [|r rs IH]; intros st cur Hcur Hstar Hq Hrs;
    [inversion Hrs|].
  inversion Hrs as [|? ? ? ? Htag Hrs']; subst.
  assert (Hstep : handleResponse compiler st r =
                  sendRequest compiler
                    (with_canSend true
                       (emit (EvSettled (c_id cur)
                                (callback (ArgResponse (attach_payload cur r))))
                             st))).
  { unfold handleResponse. cbv zeta.
    rewrite Hcur, Htag, (str_eqb_neq _ _ Hstar), str_eqb_refl.
    cbn [andb]. now destruct (c_payload cur). }
  cbv zeta. cbn [fold_left]. rewrite Hstep.
  destruct (clientQueue st) as [|c q] eqn:Eq.
  - inversion Hrs'; subst. cbn [fold_left map].
    unfold sendRequest. cbn [clientQueue with_canSend emit]. rewrite Eq.
    unfold sent. simpl. rewrite flat_map_app. simpl.
    now rewrite !app_nil_r.
  - inversion Hq as [|? ? (Hpre & Hstar' & Hcomp) Hq']; subst.
    destruct (compiler (c_request c)) as [chunks|] eqn:Ec; [|now destruct Hcomp].
    set (s0 := with_canSend true
                 (emit (EvSettled (c_id cur)
                          (callback (ArgResponse (attach_payload cur r)))) st)).
    set (s1 := send (first_wire chunks)
                 (with_current (Some (set_data c (Some (snd (shift chunks)))))
                    (with_queue q
                       (with_canSend false
                          (with_restartQueue false (clearIdle s0)))))).
    assert (Hdisp : sendRequest compiler s0 = s1).
    { unfold sendRequest, s1, s0. cbn [clientQueue with_canSend emit].
      rewrite Eq, Hpre, Ec. unfold first_wire. now destruct (shift chunks). }
    rewrite Hdisp.
    assert (Hrs1 : Forall2 (fun r c => r_tag r = c_tag c) rs
                     (set_data c (Some (snd (shift chunks))) :: q)).
    { inversion Hrs'. constructor; assumption. }
    assert (Hq1 : clientQueue s1 = q) by reflexivity.
    assert (Hih : sent (fold_left (handleResponse compiler) rs s1) =
                    sent s1 ++ map (wire_of compiler) (clientQueue s1) /\
                  clientQueue (fold_left (handleResponse compiler) rs s1) = [] /\
                  canSend (fold_left (handleResponse compiler) rs s1) = true).
    { apply (IH s1 (set_data c (Some (snd (shift chunks))))).
      - reflexivity.
      - exact Hstar'.
      - rewrite Hq1. exact Hq'.
      - rewrite Hq1. exact Hrs1. }
    destruct Hih as (Hsent & Hqueue & Hcan).
    split; [|split; [exact Hqueue|exact Hcan]].
    rewrite Hsent, Hq1. unfold s1 at 1. rewrite sent_send. cbn [map].
    unfold wire_of at 2. rewrite Ec.
    assert (Hs0 : sent s0 = sent st).
    { unfold s0, sent. simpl. rewrite flat_map_app. simpl.
      now rewrite app_nil_r. }
    change (sent (with_current (Some (set_data c (Some (snd (shift chunks)))))
                    (with_queue q
                       (with_canSend false
                          (with_restartQueue false (clearIdle s0))))))
      with (sent s0).
    now rewrite Hs0, <- app_assoc.
Qed.

End Codec.

End RouterMore.

(** ** The steps of the router on concrete sessions *)

Module RouterExamples.

Import Js Client More MoreScenario.

Lemma untagged_responses_are_collected_witness :
  exists p',
    let st' :=
      fold_left (handleResponse Scenario.one_line) [fetched 1; fetched 2]
                fetch_sent in
    st' = with_current (Some (set_cpayload fetch_command (Some p'))) fetch_sent /\
    bucket "FETCH" p' = bucket "FETCH" [("FETCH", [])] ++ [fetched 1; fetched 2] /\
    (forall k', k' <> "FETCH" -> bucket k' p' = bucket k' [("FETCH", [])]) /\
    handleResponse Scenario.one_line st' (tagged_ok "W1") =
      sendRequest Scenario.one_line
        (with_canSend true
           (emit (EvSettled (c_id fetch_command)
                    (callback
                       (ArgResponse (set_payload (tagged_ok "W1") (Some p')))))
                 st')).
Proof.
  apply (RouterMore.untagged_responses_are_collected
           Scenario.one_line fetch_sent fetch_command [("FETCH", [])] "FETCH"
           [fetched 1; fetched 2] (tagged_ok "W1")).
  - vm_compute. reflexivity.
  - reflexivity.
  - reflexivity.
  - repeat constructor.
  - reflexivity.
  - discriminate.
Defined.





Lemma commands_leave_in_queue_order_witness :
  let st := three_queued in
  let st' :=
    fold_left (handleResponse Scenario.one_line)
              [tagged_ok "W1"; tagged_ok "W2"; tagged_ok "W3"] st in
  sent st' = sent st ++ map (wire_of Scenario.one_line) (clientQueue st) /\
  clientQueue st' = [] /\
  canSend st' = true.
Proof.
  apply (RouterMore.commands_leave_in_queue_order
           Scenario.one_line
           [tagged_ok "W1"; tagged_ok "W2"; tagged_ok "W3"] three_queued
           {| c_id := 0; c_tag := "W1";
              c_request := {| req_command := "A"; req_attributes := [];
                              req_tag := Some "W1" |};
              c_payload := None; c_data := Some [];
              c_precheck := None; c_ctx := None;
              c_errorResponseExpectsEmptyLine := None |}).
  - vm_compute. reflexivity.
  - discriminate.
  - let q := eval vm_compute in (clientQueue three_queued) in
    change (clientQueue three_queued) with q.
    repeat constructor; discriminate.
  - let q := eval vm_compute in (clientQueue three_queued) in
    change (clientQueue three_queued) with q.
    repeat constructor.
Defined.

End RouterExamples.

(** ** A unit whose routing fails *)

Module LoopMore.

Import Js Client More.


Section Codec.

Variable parser : str -> option Response.
Variable compiler : Request -> option (list str).


End Codec.


End LoopMore.

(** ** The socket timeout *)

Module TimerFacts.

Import Js Client More SendFacts HistoryFacts.

Section Base.

Variable base : list str.

Lemma tracks_emit (e : Event) (st : State) :
  (forall s, e <> EvSend s) ->
  timer_tracks base st -> timer_tracks base (emit e st).
Proof.
  intros He (Hopen & new & Hsent & Htimer). split; [exact Hopen|].
  exists new. split; [|exact Htimer]. rewrite sent_emit, Hsent.
  destruct e; try apply app_nil_r. now destruct (He s).
Qed.

Lemma tracks_send (s : str) (st : State) :
  timer_tracks base st -> timer_tracks base (send s st).
Proof.
  intros (Hopen & new & Hsent & Htimer). split; [exact Hopen|].
  exists (new ++ [s]). split.
  - now rewrite sent_send, Hsent, app_assoc.
  - unfold armed_for. now rewrite fold_left_app.
Qed.

Lemma tracks_onError (st : State) :
  timer_tracks base st -> timer_tracks base (onError st).
Proof.
  intros H. unfold onError, close. cbv zeta.
  assert (Hopen : socketOpen (with_compressed false (emit EvFatal st)) = true)
    by apply H.
  rewrite Hopen.
  apply tracks_emit; [discriminate|].
  apply (tracks_emit EvFatal st); [discriminate|exact H].
Qed.

Section Codec.

Variable parser : str -> option Response.
Variable compiler : Request -> option (list str).

Lemma tracks_sendRequest (st : State) :
  timer_tracks base st -> timer_tracks base (sendRequest compiler st).
Proof.
  intros H. unfold sendRequest.
  destruct (clientQueue st) as [|c q]; [exact H|]. cbv zeta.
  destruct (c_precheck c).
  - apply tracks_emit; [discriminate|exact H].
  - destruct (compiler (c_request c)) as [chunks|].
    + destruct (shift chunks) as [data remaining].
      apply tracks_send. exact H.
    + apply tracks_onError. exact H.
Qed.

Lemma tracks_handleResponse (st : State) (r : Response) :
  timer_tracks base st -> timer_tracks base (handleResponse compiler st r).
Proof.
  intros H. unfold handleResponse, deliver_global. cbv zeta.
  destruct (currentCommand st) as [cur|].
  - destruct (match c_payload cur with
              | Some p => _
              | None => false
              end); [exact H|].
    destruct (_ && has_key _ (globalAcceptUntagged st)).
    + apply tracks_sendRequest.
      apply (tracks_emit (EvHandler _ r) st); [discriminate|exact H].
    + destruct (str_eqb (r_tag r) (c_tag cur)); [|exact H].
      apply tracks_sendRequest.
      apply (tracks_emit (EvSettled _ _) st); [discriminate|exact H].
  - destruct (_ && has_key _ (globalAcceptUntagged st)); [|exact H].
    apply tracks_sendRequest.
    apply (tracks_emit (EvHandler _ r) st); [discriminate|exact H].
Qed.

Lemma tracks_continuation (st st' : State) :
  timer_tracks base st -> continuation st = Ok st' -> timer_tracks base st'.
Proof.
  intros H. unfold continuation.
  destruct (currentCommand st) as [cur|]; [|discriminate].
  destruct (c_data cur) as [[|chunk remaining]|]; [| |discriminate].
  - destruct (truthy_str _); intros [= <-]; [|exact H].
    apply tracks_send. exact H.
  - intros [= <-]. apply tracks_send. exact H.
Qed.

Lemma tracks_routeUnit (u : str) (st : State) :
  timer_tracks base st ->
  timer_tracks base (flow_state (routeUnit parser compiler u st)).
Proof.
  apply (routeUnit_invariant parser compiler (timer_tracks base)).
  - intros s H. exact H.
  - apply tracks_continuation.
  - apply tracks_onError.
  - apply tracks_handleResponse.
  - intros s H _. apply tracks_emit; [discriminate|exact H].
Qed.

End Codec.

End Base.

(** X20.  On an open socket, after a chunk of data has been handled the
    socket timeout is armed exactly when something was sent while handling
    it, and then with the delay of the last string sent: 10000 ms and a
    tenth of a millisecond for each of its bytes, rounded down.  A chunk
    that makes the client send nothing leaves no timeout armed. *)
Theorem socket_timeout_follows_the_last_send
        (parser : str -> option Response)
        (compiler : Request -> option (list str))
        (chunk : str) (st : State) :
  socketOpen st = true ->
  let st' := flow_state (onData parser compiler chunk st) in
  exists new,
    sent st' = sent st ++ new /\ socketTimeoutTimer st' = armed_for new.
Proof.
  intros Hopen st'.
  assert (H : timer_tracks (sent st) st').
  { unfold st', onData. cbv zeta.
    apply (parseIncomingCommands_invariant parser compiler
             (timer_tracks (sent st))).
    - intros r s H. exact H.
    - intros u s. apply tracks_routeUnit.
    - split; [exact Hopen|]. exists []. split; [|reflexivity].
      symmetry. apply app_nil_r. }
  apply H.
Qed.

Lemma socket_timeout_follows_the_last_send_witness :
  let st' :=
    flow_state (onData Scenario.session_parser Scenario.one_line
                  ("* OK ready" ++ EOL)
                  (setHandler "ok" 0 Scenario.anchor_queued)) in
  exists new,
    sent st' = sent (setHandler "ok" 0 Scenario.anchor_queued) ++ new /\
    socketTimeoutTimer st' = armed_for new.
Proof.
  apply (socket_timeout_follows_the_last_send
           Scenario.session_parser Scenario.one_line ("* OK ready" ++ EOL)
           (setHandler "ok" 0 Scenario.anchor_queued)).
  reflexivity.
Defined.

End TimerFacts.
